(** * Capability gateway and resilience layer of the WhatsApp server

    A shallow embedding of four pieces of the server and of the properties
    its specification states about them:

    - the agent-facing tool-call interface ([McpTestClient.callTool],
      [MCP_ALLOWLIST], [MCP_DENYLIST], the [send_text_message] tool of the MCP
      adapter),
    - the circuit breaker ([CircuitBreaker]),
    - the dual-tier rate limiter ([rateLimiter]),
    - the in-memory job queue ([MemoryQueue]),

    and of the code around them: the message queues built on the job queue,
    the REST error handler, and the authentication that runs in front of
    the rate limiter.

    JavaScript numbers that hold counters and millisecond timestamps are
    modelled as [Z]; [Date.now()] and [crypto.randomUUID()] are inputs of the
    functions that call them; an awaited promise is modelled by the value it
    settles to. *)

From Stdlib Require Import ZArith Lia List String Ascii Bool.
From stdpp Require Import gmap strings list pretty.

Local Open Scope string_scope.
Local Open Scope list_scope.
Local Open Scope Z_scope.

(** ** JSON.stringify on the flat objects the tool results carry *)

Module Json.

Inductive JsonAtom : Type :=
  | JString (s : string)
  | JNumber (n : Z)
  | JBool (b : bool).

(** A JavaScript object literal with atomic members, in member order. *)
Definition JsonObject : Type := list (string * JsonAtom).

Definition dquote : string := String (ascii_of_nat 34) EmptyString.

Definition hexDigit (n : N) : ascii :=
  if (n <? 10)%N then ascii_of_N (48 + n) else ascii_of_N (87 + n).

(** QuoteJSONString, one code unit at a time: the quote and the backslash
    are escaped, control characters become their short escape or a
    four-digit unicode escape, every other character is copied. *)
Definition escapeChar (c : ascii) : string :=
  let n := N_of_ascii c in
  if (n =? 34)%N then "\" +:+ dquote
  else if (n =? 92)%N then "\\"
  else if (n =? 8)%N then "\b"
  else if (n =? 9)%N then "\t"
  else if (n =? 10)%N then "\n"
  else if (n =? 12)%N then "\f"
  else if (n =? 13)%N then "\r"
  else if (n <? 32)%N then
    "\u00" +:+ String (hexDigit (n / 16)) (String (hexDigit (n mod 16)) EmptyString)
  else String c EmptyString.

Fixpoint escape (s : string) : string :=
  match s with
  | EmptyString => EmptyString
  | String c rest => escapeChar c +:+ escape rest
  end.

Definition quote (s : string) : string := dquote +:+ escape s +:+ dquote.

Definition atom (a : JsonAtom) : string :=
  match a with
  | JString s => quote s
  | JNumber n => pretty n
  | JBool true => "true"
  | JBool false => "false"
  end.

Definition member (kv : string * JsonAtom) : string :=
  quote (fst kv) +:+ ":" +:+ atom (snd kv).

Fixpoint members (o : JsonObject) : string :=
  match o with
  | [] => EmptyString
  | [kv] => member kv
  | kv :: rest => member kv +:+ "," +:+ members rest
  end.

Definition stringify (o : JsonObject) : string := "{" +:+ members o +:+ "}".

(** [String.prototype.includes]. *)
Definition includes (haystack needle : string) : bool :=
  match String.index 0 needle haystack with
  | Some _ => true
  | None => false
  end.

End Json.

(** ** Promises and errors *)

Module Js.

(** An [Error] object: the fields the adapters read. *)
Record JsError : Type := { message : string; stack : string }.

(** What an awaited promise settles to. *)
Inductive Settled (A : Type) : Type :=
  | Resolved (a : A)
  | Rejected (e : JsError).
Arguments Resolved {A} a.
Arguments Rejected {A} e.

End Js.

(** ** The stable error code taxonomy (infrastructure/errors/error-codes.ts) *)

Module ErrorCodes.

Definition ErrorCode : list string :=
  [ "CORE_SESSION_DOWN"; "CORE_SESSION_NOT_FOUND"; "CORE_NOT_CONNECTED";
    "MCP_TOOL_DENIED"; "MCP_TOOL_NOT_FOUND";
    "RATE_LIMIT_EXCEEDED";
    "VALIDATION_ERROR"; "INVALID_PARAMETER";
    "CIRCUIT_BREAKER_OPEN"; "SERVICE_UNAVAILABLE";
    "INTERNAL_TRANSIENT_ERROR"; "INTERNAL_ERROR";
    "UNAUTHORIZED"; "FORBIDDEN";
    "NOT_FOUND"; "CONFLICT" ].

Record AppError : Type :=
  { code : string; message : string; statusCode : Z; isTransient : bool }.

(** [Errors.circuitOpen]. *)
Definition circuitOpen (service : string) : AppError :=
  {| code := "CIRCUIT_BREAKER_OPEN";
     message := "Service unavailable: " +:+ service;
     statusCode := 503;
     isTransient := true |}.

(** The other factories of [Errors]. *)
Definition sessionNotFound (sessionId : string) : AppError :=
  {| code := "CORE_SESSION_NOT_FOUND";
     message := "Session not found: " +:+ sessionId;
     statusCode := 404;
     isTransient := false |}.

Definition sessionDown (sessionId : string) : AppError :=
  {| code := "CORE_SESSION_DOWN";
     message := "Session unavailable: " +:+ sessionId;
     statusCode := 503;
     isTransient := true |}.

Definition notConnected (sessionId : string) : AppError :=
  {| code := "CORE_NOT_CONNECTED";
     message := "Session not connected: " +:+ sessionId;
     statusCode := 503;
     isTransient := false |}.

Definition toolDenied (tool : string) : AppError :=
  {| code := "MCP_TOOL_DENIED";
     message := "Tool not permitted: " +:+ tool;
     statusCode := 403;
     isTransient := false |}.

Definition rateLimitExceeded : AppError :=
  {| code := "RATE_LIMIT_EXCEEDED";
     message := "Rate limit exceeded";
     statusCode := 429;
     isTransient := false |}.

Definition validationError (msg : string) : AppError :=
  {| code := "VALIDATION_ERROR"; message := msg;
     statusCode := 400; isTransient := false |}.

Definition transientError (msg : string) : AppError :=
  {| code := "INTERNAL_TRANSIENT_ERROR"; message := msg;
     statusCode := 500; isTransient := true |}.

Definition internal (msg : string) : AppError :=
  {| code := "INTERNAL_ERROR"; message := msg;
     statusCode := 500; isTransient := false |}.

End ErrorCodes.

(** ** The agent-facing tool-call interface *)

Module Mcp.
Import Json Js.

Record ContentItem : Type := { type : string; text : string }.

Record ToolCallResult : Type :=
  { content : list ContentItem; isError : option bool }.

(** A domain event as the event bus sees it. *)
Record DomainEvent : Type := { event : string; data : JsonObject }.

(** A tool handler: given the arguments it settles to a result or rejects,
    and may emit domain events on the way. *)
Definition ToolHandler : Type :=
  JsonObject -> list DomainEvent -> Settled ToolCallResult * list DomainEvent.

Record HistoryEntry : Type :=
  { tool : string; args : JsonObject; result : ToolCallResult }.

Record McpTestClient : Type :=
  { toolHandlers : gmap string ToolHandler;
    callHistory : list HistoryEntry }.

Definition new : McpTestClient :=
  {| toolHandlers := ∅; callHistory := [] |}.

Definition registerTool (name : string) (handler : ToolHandler)
    (c : McpTestClient) : McpTestClient :=
  {| toolHandlers := <[name := handler]> (toolHandlers c);
     callHistory := callHistory c |}.

Definition hasToolOf (c : McpTestClient) (name : string) : bool :=
  bool_decide (is_Some (toolHandlers c !! name)).

Definition errorResult (error code : string) : ToolCallResult :=
  {| content :=
       [ {| type := "text";
            text := stringify [("error", JString error); ("code", JString code)] |} ];
     isError := Some true |}.

(** What one [callTool] leaves behind: the value it resolves to, the client
    with its history extended, the events on the bus, and whether the
    [await handler(args)] line was reached. *)
Record CallOutcome : Type :=
  { returned : ToolCallResult;
    client : McpTestClient;
    emitted : list DomainEvent;
    handlerInvoked : bool }.

Definition pushHistory (c : McpTestClient) (name : string) (a : JsonObject)
    (r : ToolCallResult) : McpTestClient :=
  {| toolHandlers := toolHandlers c;
     callHistory := callHistory c ++ [ {| tool := name; args := a; result := r |} ] |}.

Definition callTool (c : McpTestClient) (name : string) (a : JsonObject)
    (bus : list DomainEvent) : CallOutcome :=
  match (toolHandlers c !! name : option ToolHandler) with
  | None =>
      let result := errorResult "Tool not found" "TOOL_NOT_FOUND" in
      {| returned := result;
         client := pushHistory c name a result;
         emitted := bus;
         handlerInvoked := false |}
  | Some handler =>
      match handler a bus with
      | (Resolved result, bus') =>
          {| returned := result;
             client := pushHistory c name a result;
             emitted := bus';
             handlerInvoked := true |}
      | (Rejected err, bus') =>
          let result := errorResult (message err) "INTERNAL_ERROR" in
          {| returned := result;
             client := pushHistory c name a result;
             emitted := bus';
             handlerInvoked := true |}
      end
  end.

Definition MCP_ALLOWLIST : list string :=
  [ "send_text_message"; "reply_message"; "get_contact_profile";
    "get_group_metadata"; "set_typing"; "get_conversation_state";
    "update_conversation_state"; "add_to_history"; "clear_conversation_state" ].

Definition MCP_DENYLIST : list string :=
  [ "delete_session"; "create_session"; "raw_socket_access";
    "modify_credentials"; "export_auth_state"; "import_auth_state";
    "execute_raw_command"; "list_all_sessions"; "revoke_api_key" ].

(** *** The [send_text_message] tool of the MCP adapter *)

Record MessageResult : Type := { messageId : string; timestamp : Z }.

(** A session as the tool uses it: [isConnected()] and
    [messaging.sendText(to, text)]. *)
Record Session : Type :=
  { isConnected : bool;
    sendText : string -> string -> Settled MessageResult }.

Definition send_text_message (getSession : string -> option Session)
    (sessionId to txt : string) : ToolCallResult :=
  match getSession sessionId with
  | None => errorResult "Session not found" "SESSION_NOT_FOUND"
  | Some session =>
      if negb (isConnected session)
      then errorResult "Session not connected" "SESSION_NOT_CONNECTED"
      else
        match sendText session to txt with
        | Resolved r =>
            {| content :=
                 [ {| type := "text";
                      text := stringify
                        [ ("success", JBool true);
                          ("messageId", JString (messageId r));
                          ("to", JString to);
                          ("timestamp", JNumber (timestamp r)) ] |} ];
               isError := None |}
        | Rejected err => errorResult (message err) "SEND_FAILED"
        end
  end.

(** *** Vocabulary of the claims *)

(** The registry holds allowlisted tools only, as the adapter and the test
    set-up register them. *)
Definition only_allowlisted (c : McpTestClient) : Prop :=
  dom (toolHandlers c) ⊆ list_to_set MCP_ALLOWLIST.


(** *** The rest of the client, and scripted sequences of calls *)

Definition getCallHistory (c : McpTestClient) : list HistoryEntry :=
  callHistory c.

Definition clearHistory (c : McpTestClient) : McpTestClient :=
  {| toolHandlers := toolHandlers c; callHistory := [] |}.

(** [names.forEach((tool) => client.registerTool(tool, mk(tool)))], the
    set-up of the security tests. *)
Definition registerEach (names : list string) (mk : string -> ToolHandler)
    (c : McpTestClient) : McpTestClient :=
  foldl (fun acc tool => registerTool tool (mk tool) acc) c names.

Record ToolCall : Type := { name : string; arguments : JsonObject }.

(** The calls of a script, each awaited before the next is made: the
    results in order, the client and the bus at the end. *)
Fixpoint callEach (c : McpTestClient) (calls : list ToolCall)
    (bus : list DomainEvent)
    : list ToolCallResult * McpTestClient * list DomainEvent :=
  match calls with
  | [] => ([], c, bus)
  | call :: rest =>
      let o := callTool c (name call) (arguments call) bus in
      let '(results, c', bus') := callEach (client o) rest (emitted o) in
      (returned o :: results, c', bus')
  end.

(** The history entry a call and its result make. *)
Definition entryOf (call : ToolCall) (r : ToolCallResult) : HistoryEntry :=
  {| tool := name call; args := arguments call; result := r |}.

End Mcp.

(** ** The circuit breaker (infrastructure/resilience/circuit-breaker.ts) *)

Module Breaker.
Import ErrorCodes.

Inductive CircuitState : Type := CLOSED | OPEN | HALF_OPEN.

#[global] Instance CircuitState_eq_dec : EqDecision CircuitState.
Proof. solve_decision. Defined.

Record CircuitBreakerOptions : Type :=
  { name : string;
    failureThreshold : Z;
    resetTimeout : Z;
    halfOpenRequests : Z }.

(** One WARN line of [transitionTo]. *)
Record StateChange : Type :=
  { breaker : string; from : CircuitState; to : CircuitState }.

(** The private fields of the class; [logged] holds the state-change lines
    the breaker has written to the log, oldest first. *)
Record CircuitBreaker : Type :=
  { state : CircuitState;
    failures : Z;
    successes : Z;
    lastFailureTime : Z;
    options : CircuitBreakerOptions;
    logged : list StateChange }.

Definition create (o : CircuitBreakerOptions) : CircuitBreaker :=
  {| state := CLOSED; failures := 0; successes := 0; lastFailureTime := 0;
     options := o; logged := [] |}.

Definition transitionTo (b : CircuitBreaker) (newState : CircuitState)
    : CircuitBreaker :=
  let oldState := state b in
  let line := {| breaker := name (options b); from := oldState; to := newState |} in
  match newState with
  | CLOSED =>
      {| state := newState; failures := 0; successes := 0;
         lastFailureTime := lastFailureTime b; options := options b;
         logged := logged b ++ [line] |}
  | HALF_OPEN =>
      {| state := newState; failures := failures b; successes := 0;
         lastFailureTime := lastFailureTime b; options := options b;
         logged := logged b ++ [line] |}
  | OPEN =>
      {| state := newState; failures := failures b; successes := successes b;
         lastFailureTime := lastFailureTime b; options := options b;
         logged := logged b ++ [line] |}
  end.

Definition onSuccess (b : CircuitBreaker) : CircuitBreaker :=
  match state b with
  | HALF_OPEN =>
      let b1 :=
        {| state := state b; failures := failures b; successes := successes b + 1;
           lastFailureTime := lastFailureTime b; options := options b;
           logged := logged b |} in
      if halfOpenRequests (options b1) <=? successes b1
      then transitionTo b1 CLOSED
      else b1
  | _ =>
      {| state := state b; failures := 0; successes := successes b;
         lastFailureTime := lastFailureTime b; options := options b;
         logged := logged b |}
  end.

(** [now] is what [Date.now()] returns inside [onFailure]. *)
Definition onFailure (b : CircuitBreaker) (now : Z) : CircuitBreaker :=
  let b1 :=
    {| state := state b; failures := failures b + 1; successes := successes b;
       lastFailureTime := now; options := options b; logged := logged b |} in
  match state b1 with
  | HALF_OPEN => transitionTo b1 OPEN
  | _ =>
      if failureThreshold (options b1) <=? failures b1
      then transitionTo b1 OPEN
      else b1
  end.

(** What the wrapped function does when it is awaited. *)
Inductive FnOutcome (T E : Type) : Type :=
  | FnReturns (v : T)
  | FnThrows (e : E).
Arguments FnReturns {T E} v.
Arguments FnThrows {T E} e.

(** How [execute] ends: with the function's value, with the circuit-open
    error, or by rethrowing the function's error. *)
Inductive ExecOutcome (T E : Type) : Type :=
  | Returned (v : T)
  | ThrewCircuitOpen (err : AppError)
  | Rethrown (e : E).
Arguments Returned {T E} v.
Arguments ThrewCircuitOpen {T E} err.
Arguments Rethrown {T E} e.

Record ExecResult (T E : Type) : Type :=
  { outcome : ExecOutcome T E;
    after : CircuitBreaker;
    fnInvoked : bool }.
Arguments outcome {T E} _.
Arguments after {T E} _.
Arguments fnInvoked {T E} _.

Section Execute.
Context {T E : Type}.

Definition runFn (b : CircuitBreaker) (fn : FnOutcome T E) (settledAt : Z)
    : ExecResult T E :=
  match fn with
  | FnReturns v =>
      {| outcome := Returned v; after := onSuccess b; fnInvoked := true |}
  | FnThrows e =>
      {| outcome := Rethrown e; after := onFailure b settledAt; fnInvoked := true |}
  end.

(** [execute]: [now] is [Date.now()] at the OPEN check, [fn] what the
    wrapped function settles to if it is called, [settledAt] the clock
    when its failure is recorded. *)
Definition execute (b : CircuitBreaker) (now : Z) (fn : FnOutcome T E)
    (settledAt : Z) : ExecResult T E :=
  match state b with
  | OPEN =>
      if resetTimeout (options b) <=? now - lastFailureTime b
      then runFn (transitionTo b HALF_OPEN) fn settledAt
      else {| outcome := ThrewCircuitOpen (circuitOpen (name (options b)));
              after := b;
              fnInvoked := false |}
  | _ => runFn b fn settledAt
  end.

(** One call of a scripted sequence. *)
Record Call : Type := { at_ : Z; fn_ : FnOutcome T E; settledAt_ : Z }.

Definition succeeds (c : Call) : Prop := exists v, fn_ c = FnReturns v.

Fixpoint executeAll (b : CircuitBreaker) (calls : list Call) : CircuitBreaker :=
  match calls with
  | [] => b
  | c :: rest => executeAll (after (execute b (at_ c) (fn_ c) (settledAt_ c))) rest
  end.

End Execute.


Definition reset (b : CircuitBreaker) : CircuitBreaker := transitionTo b CLOSED.

(** The pre-configured breakers. *)
Definition database : CircuitBreaker :=
  create {| name := "database"; failureThreshold := 5; resetTimeout := 30000;
            halfOpenRequests := 3 |}.
Definition redis : CircuitBreaker :=
  create {| name := "redis"; failureThreshold := 3; resetTimeout := 10000;
            halfOpenRequests := 2 |}.
Definition whatsapp : CircuitBreaker :=
  create {| name := "whatsapp"; failureThreshold := 5; resetTimeout := 60000;
            halfOpenRequests := 1 |}.

(** *** Monitoring, and scripted lives of a breaker *)

Definition getState (b : CircuitBreaker) : CircuitState := state b.

Record Stats : Type :=
  { stats_name : string;
    stats_state : CircuitState;
    stats_failures : Z;
    stats_successes : Z }.

Definition getStats (b : CircuitBreaker) : Stats :=
  {| stats_name := name (options b);
     stats_state := state b;
     stats_failures := failures b;
     stats_successes := successes b |}.

(** What is done to a breaker: a call goes through [execute], or an
    operator calls [reset]. *)
Inductive Op (T E : Type) : Type :=
  | Execute (c : Call (T:=T) (E:=E))
  | Reset.
Arguments Execute {T E} c.
Arguments Reset {T E}.

Definition apply {T E : Type} (b : CircuitBreaker) (op : Op T E) : CircuitBreaker :=
  match op with
  | Execute c => after (execute b (at_ c) (fn_ c) (settledAt_ c))
  | Reset => reset b
  end.

Definition applyAll {T E : Type} (b : CircuitBreaker) (ops : list (Op T E))
    : CircuitBreaker :=
  foldl apply b ops.

(** Reading a log from a start state: every line has to leave the state
    the line before it entered; the answer is the state the last line
    enters. *)
Fixpoint replay (s : CircuitState) (log : list StateChange) : option CircuitState :=
  match log with
  | [] => Some s
  | line :: rest => if decide (from line = s) then replay (to line) rest else None
  end.

(** The state changes [execute] makes. *)
Definition executeTransitions : list (CircuitState * CircuitState) :=
  [ (CLOSED, OPEN); (OPEN, HALF_OPEN); (HALF_OPEN, OPEN); (HALF_OPEN, CLOSED) ].

(** The longest run of consecutive failures a script reaches, [cur] being
    the run in progress when it starts. *)
Fixpoint longestFailureRun {T E : Type} (cur : Z) (calls : list (Call (T:=T) (E:=E)))
    : Z :=
  match calls with
  | [] => cur
  | c :: rest =>
      match fn_ c with
      | FnThrows _ => longestFailureRun (cur + 1) rest
      | FnReturns _ => Z.max cur (longestFailureRun 0 rest)
      end
  end.

(** The counters agree with the state: a closed breaker is below its
    threshold and has no trial successes on record, a half-open one is
    below its trial quota, and a breaker that has opened has failures on
    record until it closes. *)
Definition sound (b : CircuitBreaker) : Prop :=
  0 ≤ failures b ∧ 0 ≤ successes b
  ∧ (state b = CLOSED → failures b < failureThreshold (options b) ∧ successes b = 0)
  ∧ (state b = HALF_OPEN →
       successes b < halfOpenRequests (options b) ∧ 1 ≤ failures b)
  ∧ (state b = OPEN → 1 ≤ failures b).

(** *** Calls that overlap *)

(** [execute] awaits the wrapped function, so the parts of other calls can
    run between the two parts of one call: the gate in front of the await,
    which throws the circuit-open error or lets the call in (an open breaker
    whose timeout has elapsed going half-open), and the settling behind it,
    which records the outcome with [onSuccess] or [onFailure]. *)
Definition gate (b : CircuitBreaker) (now : Z) : option CircuitBreaker :=
  match state b with
  | OPEN =>
      if resetTimeout (options b) <=? now - lastFailureTime b
      then Some (transitionTo b HALF_OPEN)
      else None
  | _ => Some b
  end.

(** The parts of calls, and calls of [reset], in the order they run. *)
Inductive Part : Type :=
  | Enters (now : Z)
  | Succeeds
  | Fails (settledAt : Z)
  | Resets.

Definition part (b : CircuitBreaker) (p : Part) : CircuitBreaker :=
  match p with
  | Enters now =>
      match gate b now with
      | Some b' => b'
      | None => b
      end
  | Succeeds => onSuccess b
  | Fails settledAt => onFailure b settledAt
  | Resets => reset b
  end.

Definition parts (b : CircuitBreaker) (ps : list Part) : CircuitBreaker :=
  foldl part b ps.

(** The parts of a call that runs with no other call in between. *)
Definition partsOf {T E : Type} (b : CircuitBreaker) (c : Call (T:=T) (E:=E))
    : list Part :=
  match gate b (at_ c) with
  | None => [Enters (at_ c)]
  | Some _ =>
      [ Enters (at_ c);
        match fn_ c with
        | FnReturns _ => Succeeds
        | FnThrows _ => Fails (settledAt_ c)
        end ]
  end.

(** The parts of [n] calls that fail one after the other, and then of two
    calls that overlap: both enter, the first fails, the second succeeds. *)
Definition failThenOverlap (n : nat) : list Part :=
  concat (replicate n [Enters 0; Fails 0]) ++ [Enters 0; Enters 0; Fails 0; Succeeds].

(** The state changes calls can log when they overlap: those of
    [execute], and open to open, logged by a failure that settles on a
    breaker another call has opened in the meantime. *)
Definition overlapTransitions : list (CircuitState * CircuitState) :=
  executeTransitions ++ [ (OPEN, OPEN) ].

(** What holds of the counters even when calls overlap. *)
Definition steady (b : CircuitBreaker) : Prop :=
  0 ≤ failures b ∧ 0 ≤ successes b
  ∧ (state b = CLOSED → failures b < failureThreshold (options b) ∧ successes b = 0)
  ∧ (state b = HALF_OPEN → successes b < halfOpenRequests (options b)).

End Breaker.

(** ** The rate limiter (adapters/rest, rate limiting middleware) *)

Module RateLimit.

Record RateLimitEntry : Type :=
  { count : Z; resetAt : Z; burstCount : Z; lastBurstReset : Z }.

Record RateLimitConfig : Type :=
  { windowMs : Z; limit : Z; burstLimit : Z; burstWindowMs : Z }.

(** [RateLimits.REST] and [RateLimits.MCP]. *)
Definition REST : RateLimitConfig :=
  {| windowMs := 60000; limit := 100; burstLimit := 10; burstWindowMs := 1000 |}.
Definition MCP : RateLimitConfig :=
  {| windowMs := 60000; limit := 30; burstLimit := 5; burstWindowMs := 1000 |}.

(** The argument of [rateLimiter]. *)
Record Options : Type :=
  { windowMs_opt : option Z;
    defaultLimit_opt : option Z;
    config_opt : option RateLimitConfig }.

(** The fields of the authenticated key the middleware reads. *)
Record ApiKeyInfo : Type := { id : string; rateLimit : Z }.

(** What the middleware reads from the request context. *)
Record Request : Type :=
  { apiKey : option ApiKeyInfo; xForwardedFor : option string }.

(** The headers the middleware sets; every value is the decimal string of
    the number kept here. *)
Record Headers : Type :=
  { X_RateLimit_Limit : Z;
    X_RateLimit_Remaining : Z;
    X_RateLimit_Reset : Z;
    X_RateLimit_Burst_Limit : Z;
    X_RateLimit_Burst_Remaining : Z;
    Retry_After : option Z }.

(** The [ErrorCodes] table the middleware imports from [./types]
    (adapters/rest/types). *)
Definition ErrorCodesTable : list (string * string) :=
  [ ("VALIDATION_ERROR", "VALIDATION_ERROR");
    ("NOT_FOUND", "NOT_FOUND");
    ("SESSION_NOT_FOUND", "SESSION_NOT_FOUND");
    ("SESSION_NOT_CONNECTED", "SESSION_NOT_CONNECTED");
    ("SOCKET_ERROR", "SOCKET_ERROR");
    ("INTERNAL_ERROR", "INTERNAL_ERROR") ].

(** Reading a member of an object literal: undefined when it has none. *)
Fixpoint member (o : list (string * string)) (k : string) : option string :=
  match o with
  | [] => None
  | (k', v) :: rest => if String.eqb k' k then Some v else member rest k
  end.

(** [ErrorCodes.RATE_LIMITED].  The table has no such member, so the
    expression is undefined, and the error object of the 429 body, made by
    [errorResponse(ErrorCodes.RATE_LIMITED, message)], has no code. *)
Definition ErrorCodes_RATE_LIMITED : option string :=
  member ErrorCodesTable "RATE_LIMITED".

(** How the middleware ends: by calling [next()], or with a 429 JSON error
    response whose error object has the code and the message handed to
    [errorResponse]. *)
Inductive Reply : Type :=
  | Next
  | Status429 (code : option string) (message : string).

Record Response : Type := { headers : Headers; reply : Reply }.

(** [Math.ceil(ms / 1000)] on an integral number of milliseconds. *)
Definition ceilSeconds (ms : Z) : Z := - ((- ms) / 1000).

Definition configOf (o : Options) : RateLimitConfig :=
  default REST (config_opt o).
Definition windowOf (o : Options) : Z :=
  default (windowMs (configOf o)) (windowMs_opt o).
Definition defaultLimitOf (o : Options) : Z :=
  default (limit (configOf o)) (defaultLimit_opt o).

(** [keyInfo?.id ?? c.req.header("x-forwarded-for") ?? "anonymous"]. *)
Definition identifierOf (r : Request) : string :=
  match apiKey r with
  | Some k => id k
  | None => default "anonymous" (xForwardedFor r)
  end.

(** [keyInfo?.rateLimit ?? defaultLimit]. *)
Definition limitOf (o : Options) (r : Request) : Z :=
  match apiKey r with
  | Some k => rateLimit k
  | None => defaultLimitOf o
  end.

(** The entry the request is counted against, before the increments: a
    fresh one when there is none or its window is over, and with the burst
    counter restarted when the burst window is over. *)
Definition currentEntry (o : Options) (found : option RateLimitEntry) (now : Z)
    : RateLimitEntry :=
  let entry :=
    match found with
    | Some e =>
        if resetAt e <? now
        then {| count := 0; resetAt := now + windowOf o;
                burstCount := 0; lastBurstReset := now |}
        else e
    | None =>
        {| count := 0; resetAt := now + windowOf o;
           burstCount := 0; lastBurstReset := now |}
    end in
  if burstWindowMs (configOf o) <=? now - lastBurstReset entry
  then {| count := count entry; resetAt := resetAt entry;
          burstCount := 0; lastBurstReset := now |}
  else entry.

Definition increment (e : RateLimitEntry) : RateLimitEntry :=
  {| count := count e + 1; resetAt := resetAt e;
     burstCount := burstCount e + 1; lastBurstReset := lastBurstReset e |}.

(** The middleware returned by [rateLimiter(options)], run on one request
    at clock [now] against the store. *)
Definition rateLimiter (o : Options) (store : gmap string RateLimitEntry)
    (r : Request) (now : Z) : Response * gmap string RateLimitEntry :=
  let config := configOf o in
  let identifier := identifierOf r in
  let lim := limitOf o r in
  let entry := increment (currentEntry o (store !! identifier) now) in
  let store' := <[identifier := entry]> store in
  let hdrs retry :=
    {| X_RateLimit_Limit := lim;
       X_RateLimit_Remaining := Z.max 0 (lim - count entry);
       X_RateLimit_Reset := ceilSeconds (resetAt entry);
       X_RateLimit_Burst_Limit := burstLimit config;
       X_RateLimit_Burst_Remaining := Z.max 0 (burstLimit config - burstCount entry);
       Retry_After := retry |} in
  if burstLimit config <? burstCount entry
  then ({| headers := hdrs (Some 1);
           reply := Status429 ErrorCodes_RATE_LIMITED "Too many requests. Slow down." |},
        store')
  else if lim <? count entry
  then ({| headers := hdrs (Some (ceilSeconds (resetAt entry - now)));
           reply := Status429 ErrorCodes_RATE_LIMITED
                      "Rate limit exceeded. Please try again later." |},
        store')
  else ({| headers := hdrs None; reply := Next |}, store').

(** [mcpRateLimiter()] is [rateLimiter({ config: RateLimits.MCP })]. *)
Definition mcpOptions : Options :=
  {| windowMs_opt := None; defaultLimit_opt := None; config_opt := Some MCP |}.

Definition mcpRateLimiter : gmap string RateLimitEntry -> Request -> Z ->
    Response * gmap string RateLimitEntry :=
  rateLimiter mcpOptions.

(** The periodic sweep of the store. *)
Definition cleanup (store : gmap string RateLimitEntry) (now : Z)
    : gmap string RateLimitEntry :=
  filter (fun kv => ¬ (resetAt (snd kv) < now)) store.

(** The same caller sending one request at each of the given clock values;
    the responses come back in order. *)
Fixpoint serve (o : Options) (store : gmap string RateLimitEntry) (r : Request)
    (times : list Z) : list Response * gmap string RateLimitEntry :=
  match times with
  | [] => ([], store)
  | t :: rest =>
      let '(resp, store1) := rateLimiter o store r t in
      let '(resps, store2) := serve o store1 r rest in
      (resp :: resps, store2)
  end.

Definition rejected (resp : Response) : Prop :=
  exists code message, reply resp = Status429 code message.

Definition admitted (resp : Response) : Prop := reply resp = Next.

Definition isAdmitted (resp : Response) : bool :=
  match reply resp with
  | Next => true
  | Status429 _ _ => false
  end.

(** The caller has no entry, or one whose window is over at [now]. *)
Definition windowOver (store : gmap string RateLimitEntry) (identifier : string)
    (now : Z) : Prop :=
  match store !! identifier with
  | Some e => resetAt e < now
  | None => True
  end.

(** The entry of the caller after a request. *)
Definition entryAfter (o : Options) (r : Request)
    (store : gmap string RateLimitEntry) (now : Z) : RateLimitEntry :=
  increment (currentEntry o (store !! identifierOf r) now).

(** The request at [now] starts a burst window: it starts a sustained
    window too, or the caller's burst window is over. *)
Definition opensBurstWindow (o : Options) (r : Request)
    (store : gmap string RateLimitEntry) (now : Z) : Prop :=
  windowOver store (identifierOf r) now
  ∨ ∃ e, store !! identifierOf r = Some e
         ∧ now ≤ resetAt e
         ∧ burstWindowMs (configOf o) ≤ now - lastBurstReset e.

(** [rateLimiter()], as the REST router mounts it. *)
Definition restOptions : Options :=
  {| windowMs_opt := None; defaultLimit_opt := None; config_opt := None |}.

(** The number of requests of a list of responses that were let through. *)
Definition admittedCount (resps : list Response) : Z :=
  Z.of_nat (length (filter (fun resp => isAdmitted resp = true) resps)).

(** The response is the 429 of the burst tier. *)
Definition burstRejected (resp : Response) : Prop :=
  exists code, reply resp = Status429 code "Too many requests. Slow down.".

(** The response is the 429 of the sustained tier. *)
Definition windowRejected (resp : Response) : Prop :=
  exists code,
    reply resp = Status429 code "Rate limit exceeded. Please try again later.".

End RateLimit.

(** ** JavaScript containers the queue is built from *)

(** A [Map] with string keys: its entries in insertion order.  [set] on a key
    that is present replaces the value where it stands, on a new key appends;
    [delete] removes the entry. *)
Module JsMap.
Section Ops.
Context {V : Type}.

Fixpoint get (m : list (string * V)) (k : string) : option V :=
  match m with
  | [] => None
  | (k', v) :: rest => if decide (k' = k) then Some v else get rest k
  end.

Fixpoint set (m : list (string * V)) (k : string) (v : V) : list (string * V) :=
  match m with
  | [] => [(k, v)]
  | (k', v') :: rest =>
      if decide (k' = k) then (k, v) :: rest else (k', v') :: set rest k v
  end.

Definition delete (m : list (string * V)) (k : string) : list (string * V) :=
  filter (fun kv => fst kv ≠ k) m.

(** An assignment to a field of the object stored under [k]: the entry
    keeps its place, its value becomes [f] of the old one. *)
Fixpoint update (m : list (string * V)) (k : string) (f : V -> V)
    : list (string * V) :=
  match m with
  | [] => []
  | (k', v) :: rest =>
      if decide (k' = k) then (k', f v) :: rest else (k', v) :: update rest k f
  end.

Definition keys (m : list (string * V)) : list string := map fst m.
Definition values (m : list (string * V)) : list V := map snd m.
Definition size (m : list (string * V)) : Z := Z.of_nat (length m).
End Ops.
End JsMap.

(** [Array.prototype.sort] with a comparator: a stable sort, as the language
    standard requires. *)
Module JsArray.
Section Sort.
Context {A : Type}.
Variable compareFn : A -> A -> Z.

(** [x] goes in front of the first element it does not have to follow. *)
Fixpoint insertBy (x : A) (sorted : list A) : list A :=
  match sorted with
  | [] => [x]
  | y :: rest =>
      if compareFn x y <=? 0 then x :: y :: rest else y :: insertBy x rest
  end.

Fixpoint sort (l : list A) : list A :=
  match l with
  | [] => []
  | x :: rest => insertBy x (sort rest)
  end.
End Sort.
End JsArray.

(** ** The in-memory job queue *)

Module Queue.
Import Js.

Inductive JobStatus : Type := pending | processing | completed | failed | dead.
Inductive JobPriority : Type := low | normal | high | critical.

#[global] Instance JobStatus_eq_dec : EqDecision JobStatus.
Proof. solve_decision. Defined.
#[global] Instance JobPriority_eq_dec : EqDecision JobPriority.
Proof. solve_decision. Defined.

(** [T] is the payload type, [R] what a handler resolves to. *)
Record QueueJob (T R : Type) : Type :=
  { id : string;
    type : string;
    data : T;
    priority : JobPriority;
    status : JobStatus;
    attempts : Z;
    maxAttempts : Z;
    createdAt : Z;
    processedAt : option Z;
    completedAt : option Z;
    error : option string;
    result : option R }.
Arguments id {T R} _.
Arguments type {T R} _.
Arguments data {T R} _.
Arguments priority {T R} _.
Arguments status {T R} _.
Arguments attempts {T R} _.
Arguments maxAttempts {T R} _.
Arguments createdAt {T R} _.
Arguments processedAt {T R} _.
Arguments completedAt {T R} _.
Arguments error {T R} _.
Arguments result {T R} _.

Record QueueStats : Type :=
  { stat_pending : Z; stat_processing : Z; stat_completed : Z;
    stat_failed : Z; stat_dead : Z }.

Definition PRIORITY_WEIGHTS (p : JobPriority) : Z :=
  match p with
  | critical => 4
  | high => 3
  | normal => 2
  | low => 1
  end.

(** The constructor's options after defaulting. *)
Record QueueOptions : Type :=
  { opt_maxAttempts : Z; opt_retryDelayMs : Z; opt_concurrency : Z;
    opt_pollIntervalMs : Z }.

Record RawOptions : Type :=
  { raw_maxAttempts : option Z; raw_retryDelayMs : option Z;
    raw_concurrency : option Z; raw_pollIntervalMs : option Z }.

Definition defaults (o : RawOptions) : QueueOptions :=
  {| opt_maxAttempts := default 3 (raw_maxAttempts o);
     opt_retryDelayMs := default 1000 (raw_retryDelayMs o);
     opt_concurrency := default 5 (raw_concurrency o);
     opt_pollIntervalMs := default 100 (raw_pollIntervalMs o) |}.

(** What the bus receives from the queue. *)
Inductive QueueEvent : Type :=
  | JobCompleted (queue jobId jobType : string)
  | JobDead (queue jobId jobType errorMessage : string).

Section WithTypes.
Context {T R : Type}.

Abbreviation Job := (QueueJob T R).

(** What a worker step does to the outside: it calls the handler on a
    job and emits events. *)
Inductive Effect : Type :=
  | Invoked (job : Job)
  | Emitted (ev : QueueEvent).

Record MemoryQueue : Type :=
  { name : string;
    handler : Job -> Settled R;
    options : QueueOptions;
    jobs : list (string * Job);
    deadLetterQueue : list (string * Job);
    processingSet : gset string;
    isRunning : bool }.

Definition create (name : string) (handler : Job -> Settled R)
    (o : RawOptions) : MemoryQueue :=
  {| name := name; handler := handler; options := defaults o;
     jobs := []; deadLetterQueue := []; processingSet := ∅;
     isRunning := false |}.

Definition withStores (q : MemoryQueue) (js dl : list (string * Job))
    (p : gset string) : MemoryQueue :=
  {| name := name q; handler := handler q; options := options q;
     jobs := js; deadLetterQueue := dl; processingSet := p;
     isRunning := isRunning q |}.

(** Assignments to the fields of a job object. *)
Definition markProcessing (now : Z) (j : Job) : Job :=
  {| id := id j; type := type j; data := data j; priority := priority j;
     status := processing; attempts := attempts j + 1;
     maxAttempts := maxAttempts j; createdAt := createdAt j;
     processedAt := Some now; completedAt := completedAt j;
     error := error j; result := result j |}.

Definition markCompleted (now : Z) (r : R) (j : Job) : Job :=
  {| id := id j; type := type j; data := data j; priority := priority j;
     status := completed; attempts := attempts j;
     maxAttempts := maxAttempts j; createdAt := createdAt j;
     processedAt := processedAt j; completedAt := Some now;
     error := error j; result := Some r |}.

Definition markFailed (msg : string) (st : JobStatus) (j : Job) : Job :=
  {| id := id j; type := type j; data := data j; priority := priority j;
     status := st; attempts := attempts j;
     maxAttempts := maxAttempts j; createdAt := createdAt j;
     processedAt := processedAt j; completedAt := completedAt j;
     error := Some msg; result := result j |}.

Definition markRetried (j : Job) : Job :=
  {| id := id j; type := type j; data := data j; priority := priority j;
     status := pending; attempts := 0;
     maxAttempts := maxAttempts j; createdAt := createdAt j;
     processedAt := processedAt j; completedAt := completedAt j;
     error := None; result := result j |}.

(** [add]: [uuid] is what [crypto.randomUUID()] returns, [now] the
    creation time. *)
Definition add (q : MemoryQueue) (uuid : string) (now : Z) (ty : string) (d : T)
    (prio : option JobPriority) (maxAtt : option Z) : string * MemoryQueue :=
  let job :=
    {| id := uuid; type := ty; data := d;
       priority := default normal prio;
       status := pending; attempts := 0;
       maxAttempts := default (opt_maxAttempts (options q)) maxAtt;
       createdAt := now; processedAt := None; completedAt := None;
       error := None; result := None |} in
  (uuid, withStores q (JsMap.set (jobs q) uuid job) (deadLetterQueue q)
           (processingSet q)).

(** The comparator handed to [sort]. *)
Definition byPriority (a b : Job) : Z :=
  PRIORITY_WEIGHTS (priority b) - PRIORITY_WEIGHTS (priority a).

Definition pendingJobs (q : MemoryQueue) : list Job :=
  JsArray.sort byPriority
    (filter (fun j => status j = pending) (JsMap.values (jobs q))).

(** The first half of [processNext], up to the call of the handler: the
    job picked and marked, or nothing when the workers are all busy or no
    job is pending.  Jobs are stored under their own id, so the marked
    object is the entry under [id job]. *)
Definition takeNext (q : MemoryQueue) (now : Z) : option (Job * MemoryQueue) :=
  if opt_concurrency (options q) <=? Z.of_nat (size (processingSet q)) then None
  else
    match pendingJobs q with
    | [] => None
    | job :: _ =>
        let job1 := markProcessing now job in
        Some (job1,
              withStores q (JsMap.update (jobs q) (id job) (fun _ => job1))
                (deadLetterQueue q) ({[ id job ]} ∪ processingSet q))
    end.

(** The second half: the handler has settled to [outcome] at [now]. *)
Definition settle (q : MemoryQueue) (job : Job) (outcome : Settled R) (now : Z)
    : MemoryQueue * list Effect :=
  let '(js, dl, effects) :=
    match outcome with
    | Resolved r =>
        (JsMap.update (jobs q) (id job) (fun _ => markCompleted now r job),
         deadLetterQueue q,
         [Emitted (JobCompleted (name q) (id job) (type job))])
    | Rejected err =>
        if maxAttempts job <=? attempts job
        then
          (JsMap.delete (jobs q) (id job),
           JsMap.set (deadLetterQueue q) (id job) (markFailed (message err) dead job),
           [Emitted (JobDead (name q) (id job) (type job) (message err))])
        else
          (JsMap.update (jobs q) (id job)
             (fun _ => markFailed (message err) pending job),
           deadLetterQueue q,
           [])
    end in
  (withStores q js dl (processingSet q ∖ {[ id job ]}), effects).

(** One worker tick: [startedAt] is the clock when the job is marked,
    [settledAt] when its handler has settled. *)
Record Tick : Type := { startedAt : Z; settledAt : Z }.

Definition processNext (q : MemoryQueue) (t : Tick) : MemoryQueue * list Effect :=
  match takeNext q (startedAt t) with
  | None => (q, [])
  | Some (job, q1) =>
      let '(q2, effects) := settle q1 job (handler q1 job) (settledAt t) in
      (q2, Invoked job :: effects)
  end.

Fixpoint run (q : MemoryQueue) (ticks : list Tick) : MemoryQueue * list Effect :=
  match ticks with
  | [] => (q, [])
  | t :: rest =>
      let '(q1, e1) := processNext q t in
      let '(q2, e2) := run q1 rest in
      (q2, e1 ++ e2)
  end.

Definition countStatus (st : JobStatus) (q : MemoryQueue) : Z :=
  Z.of_nat (length (filter (fun j : Job => status j = st) (JsMap.values (jobs q)))).

Definition getStats (q : MemoryQueue) : QueueStats :=
  {| stat_pending := countStatus pending q;
     stat_processing := countStatus processing q;
     stat_completed := countStatus completed q;
     stat_failed := countStatus failed q;
     stat_dead := JsMap.size (deadLetterQueue q) |}.

Definition getJob (q : MemoryQueue) (jobId : string) : option Job :=
  match JsMap.get (jobs q) jobId with
  | Some j => Some j
  | None => JsMap.get (deadLetterQueue q) jobId
  end.

Definition getDeadLetterJobs (q : MemoryQueue) : list Job :=
  JsMap.values (deadLetterQueue q).

Definition retryDeadLetter (q : MemoryQueue) (jobId : string)
    : bool * MemoryQueue :=
  match JsMap.get (deadLetterQueue q) jobId with
  | None => (false, q)
  | Some job =>
      (true,
       withStores q (JsMap.set (jobs q) jobId (markRetried job))
         (JsMap.delete (deadLetterQueue q) jobId) (processingSet q))
  end.

Definition clearCompleted (q : MemoryQueue) : Z * MemoryQueue :=
  let kept := filter (fun kv : string * Job => status (snd kv) ≠ completed) (jobs q) in
  (JsMap.size (jobs q) - JsMap.size kept,
   withStores q kept (deadLetterQueue q) (processingSet q)).

(** *** Vocabulary of the claims *)

(** The handler calls made on the job [jobId], in a list of effects. *)
Definition invocations (jobId : string) (effects : list Effect) : list Job :=
  omap (fun e => match e with
                 | Invoked j => if decide (id j = jobId) then Some j else None
                 | Emitted _ => None
                 end) effects.

(** Every entry is stored under the id of its job, and no key occurs
    twice in the two stores taken together. *)
Definition wellKeyed (q : MemoryQueue) : Prop :=
  (∀ k j, (k, j) ∈ jobs q ++ deadLetterQueue q → id j = k) ∧
  NoDup (JsMap.keys (jobs q) ++ JsMap.keys (deadLetterQueue q)).

(** The weight the comparator gives a job. *)
Definition weight (j : Job) : Z := PRIORITY_WEIGHTS (priority j).

(** [job] is the pending job of greatest priority, and the first of
    these in the insertion order of the job table: every pending job
    stored before it weighs less, none stored after it weighs more. *)
Definition selected (q : MemoryQueue) (job : Job) : Prop :=
  ∃ before after,
    JsMap.values (jobs q) = before ++ job :: after
    ∧ status job = pending
    ∧ Forall (fun j => status j = pending → weight j < weight job) before
    ∧ Forall (fun j => status j = pending → weight j ≤ weight job) after.

(** No job of the active set is dead, and every job of the dead-letter
    set is. *)
Definition deadApart (q : MemoryQueue) : Prop :=
  (∀ k j, (k, j) ∈ jobs q → status j ≠ dead)
  ∧ (∀ k j, (k, j) ∈ deadLetterQueue q → status j = dead).

(** The ways a queue changes: a job is added under a fresh id, a worker
    tick runs, a dead letter is retried, the completed jobs are cleared. *)
Inductive step : MemoryQueue → MemoryQueue → Prop :=
  | step_add q uuid now ty d prio maxAtt :
      uuid ∉ JsMap.keys (jobs q) ++ JsMap.keys (deadLetterQueue q) →
      step q (snd (add q uuid now ty d prio maxAtt))
  | step_tick q t : step q (fst (processNext q t))
  | step_retry q jobId : step q (snd (retryDeadLetter q jobId))
  | step_clear q : step q (snd (clearCompleted q)).


(** Where a job enqueued with three attempts stands after its handler
    has been called [a] times and has failed each time: pending in the
    active set with [a] attempts on record, or, after the third call,
    dead in the dead-letter set. *)
Definition tracked (q : MemoryQueue) (uuid : string) (a : Z) : Prop :=
  (0 ≤ a < 3
   ∧ JsMap.get (deadLetterQueue q) uuid = None
   ∧ ∃ j, JsMap.get (jobs q) uuid = Some j
          ∧ status j = pending ∧ attempts j = a ∧ maxAttempts j = 3)
  ∨ (a = 3
     ∧ JsMap.get (jobs q) uuid = None
     ∧ ∃ j, JsMap.get (deadLetterQueue q) uuid = Some j
            ∧ status j = dead ∧ attempts j = 3 ∧ maxAttempts j = 3).

(** The handler rejects whenever it is called on the job [uuid]. *)
Definition failsOn (q : MemoryQueue) (uuid : string) : Prop :=
  ∀ j, id j = uuid → ∃ e, handler q j = Rejected e.

(** The job is the only one that can be taken: no worker is busy, there
    is room for one, and no other job of the active set is pending. *)
Definition alone (q : MemoryQueue) (uuid : string) : Prop :=
  processingSet q = ∅
  ∧ 1 ≤ opt_concurrency (options q)
  ∧ ∀ k j, (k, j) ∈ jobs q → k ≠ uuid → status j ≠ pending.

(** *** Vocabulary of the further properties *)

(** The jobs handed to the handler, in order. *)
Definition invoked (effects : list Effect) : list Job :=
  omap (fun e => match e with
                 | Invoked j => Some j
                 | Emitted _ => None
                 end) effects.

(** The ids of the completion events and of the dead-letter events. *)
Definition completedEvents (effects : list Effect) : list string :=
  omap (fun e => match e with
                 | Emitted (JobCompleted _ jobId _) => Some jobId
                 | _ => None
                 end) effects.

Definition deadEvents (effects : list Effect) : list string :=
  omap (fun e => match e with
                 | Emitted (JobDead _ jobId _ _) => Some jobId
                 | _ => None
                 end) effects.

(** The most handler calls one life of a job can see: the test
    [attempts >= maxAttempts] comes after the first call. *)
Definition attemptsBound (j : Job) : Z := Z.max 1 (maxAttempts j).

(** The attempts on record are within the budget: a pending job has
    calls left, a completed one has used at least one, a dead one has used
    them all. *)
Definition attemptsKept (q : MemoryQueue) : Prop :=
  (∀ k j, (k, j) ∈ jobs q →
     (status j = pending ∧ 0 ≤ attempts j < attemptsBound j)
     ∨ (status j = completed ∧ 1 ≤ attempts j ≤ attemptsBound j))
  ∧ (∀ k j, (k, j) ∈ deadLetterQueue q →
       status j = dead ∧ attempts j = attemptsBound j).

(** A tick finds nothing to do: the workers are all busy, or no job is
    pending. *)
Definition idle (q : MemoryQueue) : Prop :=
  opt_concurrency (options q) ≤ Z.of_nat (size (processingSet q))
  ∨ Forall (fun j => status j ≠ pending) (JsMap.values (jobs q)).

(** The handler resolves whatever job it is given. *)
Definition neverFails (q : MemoryQueue) : Prop :=
  ∀ j, ∃ r, handler q j = Resolved r.

End WithTypes.
Arguments MemoryQueue : clear implicits.
Arguments Effect : clear implicits.

End Queue.

(** ** Sample data for the examples *)

Module Samples.
Import Json Js Mcp.



(** A connected session whose transport refuses the connection. *)
Definition refusedError : JsError :=
  {| message := "connect ECONNREFUSED 10.0.0.5:5432";
     stack := "Error: connect ECONNREFUSED 10.0.0.5:5432 at TCPConnectWrap.afterConnect (node:net:1595:16)" |}.

Definition brokenSession : Session :=
  {| isConnected := true; sendText := fun _ _ => Rejected refusedError |}.

Definition throwingHandler : ToolHandler := fun _ bus => (Rejected refusedError, bus).

Import Breaker.

(** The redis breaker (threshold 3, 10 s, 2 trials) through one cycle. *)
Definition failing (t : Z) : Call (T:=unit) (E:=string) :=
  {| at_ := t; fn_ := FnThrows "ECONNRESET"; settledAt_ := t |}.
Definition succeeding (t : Z) : Call (T:=unit) (E:=string) :=
  {| at_ := t; fn_ := FnReturns tt; settledAt_ := t |}.

Import RateLimit.

(** A caller with neither an API key nor a forwarded address. *)
Definition anonymous : Request := {| apiKey := None; xForwardedFor := None |}.

Import Queue.

(** Queues of text payloads whose handlers resolve to nothing. *)
Definition okHandler : QueueJob string unit -> Settled unit :=
  fun _ => Resolved tt.
Definition failingHandler : QueueJob string unit -> Settled unit :=
  fun _ => Rejected {| message := "socket closed"; stack := "" |}.

Definition oneWorker : RawOptions :=
  {| raw_maxAttempts := None; raw_retryDelayMs := None;
     raw_concurrency := Some 1; raw_pollIntervalMs := None |}.

Definition tick (n : Z) : Tick := {| startedAt := n; settledAt := n + 1 |}.

Definition outgoingFailing : MemoryQueue string unit :=
  create "outgoing" failingHandler oneWorker.
Definition outgoing : MemoryQueue string unit :=
  create "outgoing" okHandler oneWorker.

(** Two low and two high jobs, enqueued alternately. *)
Definition mixed : MemoryQueue string unit :=
  let q1 := snd (add outgoing "a" 1 "text" "first" (Some low) None) in
  let q2 := snd (add q1 "b" 2 "text" "second" (Some high) None) in
  let q3 := snd (add q2 "c" 3 "text" "third" (Some low) None) in
  snd (add q3 "d" 4 "text" "fourth" (Some high) None).

(** [n] jobs, alternately high and low, enqueued under the ids job-0, job-1
    and so on. *)
Fixpoint enqueueAlternating (n : nat) (q : MemoryQueue string unit)
    : MemoryQueue string unit :=
  match n with
  | O => q
  | S m =>
      let q' := enqueueAlternating m q in
      snd (add q' ("job-" +:+ pretty m) (Z.of_nat m) "text" "hello"
             (Some (if Nat.even m then high else low)) None)
  end.

(** The jobs the handler was called on, in order, by id and priority. *)
Definition calledOn (effects : list (Effect string unit)) : list (string * JobPriority) :=
  omap (fun e => match e with
                 | Invoked j => Some (id j, priority j)
                 | Emitted _ => None
                 end) effects.

(** A job that has failed its three attempts, on the queue whose handler
    always rejects. *)
Definition deadLettered : MemoryQueue string unit :=
  fst (processNext
         (fst (processNext
                 (fst (processNext
                         (snd (add outgoingFailing "job-1" 0 "text" "hello" None None))
                         (tick 1)))
                 (tick 2)))
         (tick 3)).

End Samples.

(** ** The message queues built on the in-memory queue *)

Module MessageQueue.
Import Js.

Inductive MessageType : Type := type_text | type_media.
Inductive MediaType : Type := image | video | audio | document.

Record Content : Type :=
  { text : option string;
    mediaType : option MediaType;
    mediaBuffer : option string;
    caption : option string;
    filename : option string;
    mimetype : option string }.

Record OutgoingMessageJob : Type :=
  { sessionId : string;
    to : string;
    type : MessageType;
    content : Content;
    quotedMessageId : option string }.

(** The options object handed to [sendMedia]. *)
Record MediaOptions : Type :=
  { o_caption : option string;
    o_filename : option string;
    o_mimetype : option string }.

(** What the outgoing handler resolves to. *)
Record Delivery : Type := { messageId : string }.

(** A string in a condition: undefined and the empty string are falsy. *)
Definition truthy (s : option string) : bool :=
  match s with
  | Some s => negb (String.eqb s "")
  | None => false
  end.

Section Outgoing.
Context {Buffer : Type}.

(** [Buffer.from(s, "base64")]. *)
Variable Buffer_from : string -> Buffer.

(** The stack trace the engine attaches to [new Error(message)]. *)
Variable captureStack : string -> string.

(** A session as the handler uses it. *)
Record Session : Type :=
  { isConnected : bool;
    sendText : string -> string -> Settled Mcp.MessageResult;
    sendMedia : string -> MediaType -> Buffer -> MediaOptions
                -> Settled Mcp.MessageResult }.

Definition newError (msg : string) : JsError :=
  {| message := msg; stack := captureStack msg |}.

Definition delivered (r : Settled Mcp.MessageResult) : Settled Delivery :=
  match r with
  | Resolved result => Resolved {| messageId := Mcp.messageId result |}
  | Rejected e => Rejected e
  end.

Definition handleOutgoingMessage (getSession : string -> option Session)
    (job : Queue.QueueJob OutgoingMessageJob Delivery) : Settled Delivery :=
  let d := Queue.data job in
  match getSession (sessionId d) with
  | None => Rejected (newError ("Session " +:+ sessionId d +:+ " not found"))
  | Some session =>
      if negb (isConnected session)
      then Rejected (newError ("Session " +:+ sessionId d +:+ " not connected"))
      else
        match type d, text (content d) with
        | type_text, Some txt =>
            if truthy (Some txt)
            then delivered (sendText session (to d) txt)
            else Rejected (newError "Invalid message type or missing content")
        | type_text, None =>
            Rejected (newError "Invalid message type or missing content")
        | type_media, _ =>
            match mediaType (content d), mediaBuffer (content d) with
            | Some mt, Some buf =>
                if truthy (Some buf)
                then delivered
                       (sendMedia session (to d) mt (Buffer_from buf)
                          {| o_caption := caption (content d);
                             o_filename := filename (content d);
                             o_mimetype := mimetype (content d) |})
                else Rejected (newError "Invalid message type or missing content")
            | _, _ => Rejected (newError "Invalid message type or missing content")
            end
        end
  end.



End Outgoing.

Section Incoming.
Context {D : Type}.

Abbreviation IncomingHandler := (Queue.QueueJob D unit -> Settled unit).

(** [handleIncomingMessage] over the registered handlers: what it settles
    to, and the handlers it has called, in order. *)
Fixpoint handleIncomingMessage (incomingHandlers : list IncomingHandler)
    (job : Queue.QueueJob D unit) : Settled unit * list IncomingHandler :=
  match incomingHandlers with
  | [] => (Resolved tt, [])
  | handler :: rest =>
      match handler job with
      | Resolved _ =>
          let '(r, called) := handleIncomingMessage rest job in
          (r, handler :: called)
      | Rejected e => (Rejected e, [handler])
      end
  end.

Definition registerIncomingHandler (incomingHandlers : list IncomingHandler)
    (handler : IncomingHandler) : list IncomingHandler :=
  incomingHandlers ++ [handler].

Definition incomingQueue (incomingHandlers : list IncomingHandler)
    : Queue.MemoryQueue D unit :=
  Queue.create "incoming-messages"
    (fun job => fst (handleIncomingMessage incomingHandlers job))
    {| Queue.raw_maxAttempts := Some 3; Queue.raw_retryDelayMs := Some 1000;
       Queue.raw_concurrency := Some 20; Queue.raw_pollIntervalMs := None |}.

Definition queueIncomingMessage (q : Queue.MemoryQueue D unit)
    (uuid : string) (now : Z) (d : D) : string * Queue.MemoryQueue D unit :=
  Queue.add q uuid now "process" d None None.

End Incoming.

(** *** Vocabulary of the properties *)



End MessageQueue.

(** ** The REST error handler (adapters/rest, error handling middleware) *)

Module ErrorHandler.
Import Json Js ErrorCodes.

(** The REST [ErrorCodes] table (adapters/rest/types). *)
Definition VALIDATION_ERROR : string := "VALIDATION_ERROR".
Definition NOT_FOUND : string := "NOT_FOUND".
Definition SESSION_NOT_FOUND : string := "SESSION_NOT_FOUND".
Definition SESSION_NOT_CONNECTED : string := "SESSION_NOT_CONNECTED".
Definition SOCKET_ERROR : string := "SOCKET_ERROR".
Definition INTERNAL_ERROR : string := "INTERNAL_ERROR".

(** One issue of a [ZodError]: the path, its members printed, and the
    message. *)
Record ZodIssue : Type := { path : list string; issue : string }.

(** What reaches the handler: an [AppError], a [ZodError], or another
    [Error] with its name. *)
Inductive Thrown : Type :=
  | ThrownApp (e : AppError)
  | ThrownZod (errors : list ZodIssue)
  | ThrownError (name : string) (e : JsError).

Record Detail : Type := { detail_path : string; detail_message : string }.

Record ErrorBody : Type :=
  { error_code : string;
    error_message : string;
    details : option (list Detail) }.

(** [errorResponse(code, message, details)]; [timestamp] is
    [new Date().toISOString()]. *)
Record ApiResponse : Type :=
  { success : bool; error : ErrorBody; meta_timestamp : string }.

Definition errorResponse (timestamp : string) (code message : string)
    (details : option (list Detail)) : ApiResponse :=
  {| success := false;
     error := {| error_code := code; error_message := message; details := details |};
     meta_timestamp := timestamp |}.

Record HttpResponse : Type := { status : Z; body : ApiResponse }.

(** The lines the handler writes to the log. *)
Inductive LogLine : Type :=
  | LogWarn (code message : string) (isTransient : bool)
  | LogError (name message : string) (stack : option string).

(** [path.join(".")]. *)
Definition join (sep : string) (parts : list string) : string :=
  String.concat sep parts.

(** [errorHandler(err, c)]: [NODE_ENV] is [process.env.NODE_ENV]. *)
Definition errorHandler (NODE_ENV : option string) (timestamp : string)
    (err : Thrown) : HttpResponse * list LogLine :=
  match err with
  | ThrownApp e =>
      ({| status := statusCode e;
          body := errorResponse timestamp (code e) (ErrorCodes.message e) None |},
       [LogWarn (code e) (ErrorCodes.message e) (isTransient e)])
  | ThrownZod errors =>
      ({| status := 400;
          body := errorResponse timestamp VALIDATION_ERROR "Validation failed"
                    (Some (map (fun e => {| detail_path := join "." (path e);
                                            detail_message := issue e |}) errors)) |},
       [])
  | ThrownError name e =>
      if includes (Js.message e) "not connected"
      then ({| status := 400;
               body := errorResponse timestamp SESSION_NOT_CONNECTED
                         "Session not connected" None |}, [])
      else if includes (Js.message e) "not found" || includes (Js.message e) "Not found"
      then ({| status := 404;
               body := errorResponse timestamp NOT_FOUND "Resource not found" None |}, [])
      else
        ({| status := 500;
            body := errorResponse timestamp INTERNAL_ERROR
                      "An unexpected error occurred" None |},
         [LogError name (Js.message e)
            (if bool_decide (NODE_ENV = Some "production") then None
             else Some (stack e))])
  end.

(** The three answers the handler has for an error that is neither an
    [AppError] nor a [ZodError]. *)
Definition sanitized : list (Z * string * string) :=
  [ (400, SESSION_NOT_CONNECTED, "Session not connected");
    (404, NOT_FOUND, "Resource not found");
    (500, INTERNAL_ERROR, "An unexpected error occurred") ].

Definition answer (resp : HttpResponse) : Z * string * string :=
  (status resp, error_code (error (body resp)), error_message (error (body resp))).

End ErrorHandler.

(** ** Authentication in front of the rate limiter *)

Module Auth.

Inductive Role : Type := viewer | operator | admin.

Record ApiKeyInfo : Type :=
  { id : string;
    name : string;
    role : Role;
    sessionIds : list string;
    rateLimit : Z;
    active : bool }.

(** The permission matrix. *)
Definition PERMISSIONS (r : Role) : list (string * bool) :=
  match r with
  | viewer =>
      [ ("sessions:read", true); ("messages:read", true); ("contacts:read", true);
        ("groups:read", true); ("presence:read", true) ]
  | operator =>
      [ ("sessions:read", true); ("messages:read", true); ("messages:write", true);
        ("contacts:read", true); ("contacts:write", true); ("groups:read", true);
        ("groups:write", true); ("presence:read", true); ("presence:write", true) ]
  | admin =>
      [ ("sessions:read", true); ("sessions:write", true); ("sessions:delete", true);
        ("messages:read", true); ("messages:write", true); ("messages:delete", true);
        ("contacts:read", true); ("contacts:write", true); ("groups:read", true);
        ("groups:write", true); ("groups:delete", true); ("presence:read", true);
        ("presence:write", true); ("admin:read", true); ("admin:write", true) ]
  end.

(** The names every object literal answers to besides its own members:
    the members of [Object.prototype], none of them null or undefined. *)
Definition inherited : list string :=
  [ "constructor"; "hasOwnProperty"; "isPrototypeOf"; "propertyIsEnumerable";
    "toLocaleString"; "toString"; "valueOf"; "__proto__";
    "__defineGetter__"; "__defineSetter__"; "__lookupGetter__"; "__lookupSetter__" ].

(** [PERMISSIONS[role]?.[permission] ?? false], as a condition reads it. *)
Definition hasPermission (r : Role) (permission : string) : bool :=
  match JsMap.get (PERMISSIONS r) permission with
  | Some granted => granted
  | None => bool_decide (permission ∈ inherited)
  end.

Definition canAccessSession (keyInfo : ApiKeyInfo) (sessionId : string) : bool :=
  if decide (length (sessionIds keyInfo) = 0%nat) then true
  else bool_decide (sessionId ∈ sessionIds keyInfo).

(** How a middleware ends: by calling [next()], with a JSON error
    response, or by throwing what an awaited call rejected with. *)
Inductive Outcome : Type :=
  | Next
  | Json (status : Z) (code message : string)
  | Throws (e : Js.JsError).

(** A header or a path parameter in a condition: undefined and the empty
    string are falsy. *)
Definition present (s : option string) : option string :=
  match s with
  | Some s => if String.eqb s "" then None else Some s
  | None => None
  end.

(** [authMiddleware]: [header] is the X-API-Key header, [validateKey]
    what the awaited call of the key service settles to; the second
    component is the key stored in the request context. *)
Definition authMiddleware (NODE_ENV : option string)
    (validateKey : string -> Js.Settled (option ApiKeyInfo)) (header : option string)
    : Outcome * option ApiKeyInfo :=
  match present header with
  | None =>
      if bool_decide (NODE_ENV = Some "development") then (Next, None)
      else (Json 401 "UNAUTHORIZED" "API key required. Use X-API-Key header.", None)
  | Some apiKey =>
      match validateKey apiKey with
      | Js.Rejected e => (Throws e, None)
      | Js.Resolved None => (Json 401 "UNAUTHORIZED" "Invalid or expired API key", None)
      | Js.Resolved (Some keyInfo) => (Next, Some keyInfo)
      end
  end.

Definition requirePermission (permission : string) (NODE_ENV : option string)
    (keyInfo : option ApiKeyInfo) : Outcome :=
  match keyInfo with
  | None =>
      if bool_decide (NODE_ENV = Some "development") then Next
      else Json 401 "UNAUTHORIZED" "Authentication required"
  | Some k =>
      if negb (hasPermission (role k) permission)
      then Json 403 "FORBIDDEN" ("Permission '" +:+ permission +:+ "' required")
      else Next
  end.

Definition requireSessionAccess (sessionId : option string)
    (NODE_ENV : option string) (keyInfo : option ApiKeyInfo) : Outcome :=
  match keyInfo with
  | None =>
      if bool_decide (NODE_ENV = Some "development") then Next
      else Json 401 "UNAUTHORIZED" "Authentication required"
  | Some k =>
      match present sessionId with
      | Some s =>
          if negb (canAccessSession k s)
          then Json 403 "FORBIDDEN" "No access to this session"
          else Next
      | None => Next
      end
  end.

(** The start of the v1 router: [authMiddleware], then [rateLimiter()].
    A request is refused by the first, or fails in it, or gets as far as
    the second. *)
Inductive V1Outcome : Type :=
  | Refused (status : Z) (code message : string)
  | Failed (e : Js.JsError)
  | Limited (resp : RateLimit.Response).

Definition v1 (NODE_ENV : option string)
    (validateKey : string -> Js.Settled (option ApiKeyInfo))
    (store : gmap string RateLimit.RateLimitEntry)
    (header xForwardedFor : option string) (now : Z)
    : V1Outcome * gmap string RateLimit.RateLimitEntry :=
  match authMiddleware NODE_ENV validateKey header with
  | (Json st c m, _) => (Refused st c m, store)
  | (Throws e, _) => (Failed e, store)
  | (Next, keyInfo) =>
      let request :=
        {| RateLimit.apiKey :=
             (fun k => {| RateLimit.id := id k; RateLimit.rateLimit := rateLimit k |})
               <$> keyInfo;
           RateLimit.xForwardedFor := xForwardedFor |} in
      let '(resp, store') := RateLimit.rateLimiter RateLimit.restOptions store request now in
      (Limited resp, store')
  end.

End Auth.

(** * Properties *)

(** ** Tool-call interface *)

Module McpProofs.
Import Json Js Mcp Samples.

Lemma denylist_disjoint_allowlist :
  Forall (fun d => d ∉ MCP_ALLOWLIST) MCP_DENYLIST.
Proof.
  apply (bool_decide_unpack _). vm_compute. exact I.
Qed.



Lemma callTool_no_handler (c : McpTestClient) (name : string) (a : JsonObject)
    (bus : list DomainEvent) :
  toolHandlers c !! name = None →
  callTool c name a bus =
    {| returned := errorResult "Tool not found" "TOOL_NOT_FOUND";
       client := pushHistory c name a (errorResult "Tool not found" "TOOL_NOT_FOUND");
       emitted := bus;
       handlerInvoked := false |}.
Proof. intros H. unfold callTool. by rewrite H. Qed.




(** *** Handler errors *)

Lemma callTool_rejected (c : McpTestClient) (name : string) (a : JsonObject)
    (bus bus' : list DomainEvent) (h : ToolHandler) (err : JsError) :
  toolHandlers c !! name = Some h →
  h a bus = (Rejected err, bus') →
  returned (callTool c name a bus) = errorResult (message err) "INTERNAL_ERROR".
Proof. intros Hh Hr. unfold callTool. by rewrite Hh, Hr. Qed.

Lemma send_text_message_rejected (getSession : string -> option Session)
    (sessionId to txt : string) (s : Session) (err : JsError) :
  getSession sessionId = Some s →
  isConnected s = true →
  sendText s to txt = Rejected err →
  send_text_message getSession sessionId to txt
    = errorResult (message err) "SEND_FAILED".
Proof.
  intros Hs Hc Hr. unfold send_text_message. by rewrite Hs, Hc, Hr.
Qed.

(** C2, evaluated.  When [sendText] rejects, the [send_text_message] tool
    answers with the raw message of the exception under the code
    SEND_FAILED, which is not a member of the error code taxonomy; and when
    a registered handler rejects, [callTool] answers with the raw message
    under INTERNAL_ERROR.  The stack is not copied in either case. *)
Theorem handler_error_message_forwarded :
  let viaTool :=
    send_text_message (fun _ => Some brokenSession) "main" "123@s.whatsapp.net" "hi" in
  let viaClient :=
    returned (callTool (registerTool "send_text_message" throwingHandler new)
                "send_text_message" [] []) in
  viaTool = errorResult "connect ECONNREFUSED 10.0.0.5:5432" "SEND_FAILED"
  ∧ Forall (fun i => includes (text i) (message refusedError) = true) (content viaTool)
  ∧ ("SEND_FAILED" ∉ ErrorCodes.ErrorCode)
  ∧ viaClient = errorResult "connect ECONNREFUSED 10.0.0.5:5432" "INTERNAL_ERROR"
  ∧ Forall (fun i => includes (text i) (message refusedError) = true) (content viaClient)
  ∧ Forall (fun i => includes (text i) (stack refusedError) = false)
      (content viaTool ++ content viaClient).
Proof.
  cbv zeta.
  assert (returned (callTool (registerTool "send_text_message" throwingHandler new)
                      "send_text_message" [] [])
          = errorResult "connect ECONNREFUSED 10.0.0.5:5432" "INTERNAL_ERROR") as Hc.
  { apply (callTool_rejected _ _ _ _ [] throwingHandler refusedError).
    - unfold registerTool. cbn [toolHandlers]. apply lookup_insert_eq.
    - reflexivity. }
  rewrite Hc.
  repeat split.
  - repeat constructor.
  - apply (bool_decide_unpack _). vm_compute. exact I.
  - repeat constructor.
  - repeat constructor.
Qed.

End McpProofs.

(** ** Circuit breaker *)

Module BreakerProofs.
Import ErrorCodes Breaker Samples.

Section WithTypes.
Context {T E : Type}.

Lemma transitionTo_state (b : CircuitBreaker) (s : CircuitState) :
  state (transitionTo b s) = s.
Proof. by destruct s. Qed.

Lemma transitionTo_options (b : CircuitBreaker) (s : CircuitState) :
  options (transitionTo b s) = options b.
Proof. by destruct s. Qed.

Lemma transitionTo_logged (b : CircuitBreaker) (s : CircuitState) :
  logged (transitionTo b s)
    = logged b ++ [ {| breaker := name (options b); from := state b; to := s |} ].
Proof. by destruct s. Qed.

Lemma onSuccess_options (b : CircuitBreaker) : options (onSuccess b) = options b.
Proof.
  unfold onSuccess. destruct (state b); try reflexivity.
  case (_ <=? _); rewrite ?transitionTo_options; reflexivity.
Qed.

Lemma onFailure_options (b : CircuitBreaker) (now : Z) :
  options (onFailure b now) = options b.
Proof.
  unfold onFailure. cbn [state].
  destruct (state b); try (case (_ <=? _));
    rewrite ?transitionTo_options; reflexivity.
Qed.

Lemma execute_options (b : CircuitBreaker) (now : Z) (fn : FnOutcome T E) (t : Z) :
  options (after (execute b now fn t)) = options b.
Proof.
  unfold execute, runFn.
  destruct (state b), fn; cbn [after];
    rewrite ?onSuccess_options, ?onFailure_options; try reflexivity;
    case (_ <=? _); cbn [after];
    rewrite ?onSuccess_options, ?onFailure_options, ?transitionTo_options;
    reflexivity.
Qed.







Lemma open_rejects (b : CircuitBreaker) (now : Z) (fn : FnOutcome T E) (t : Z) :
  state b = OPEN →
  now - lastFailureTime b < resetTimeout (options b) →
  execute b now fn t =
    {| outcome := ThrewCircuitOpen (circuitOpen (name (options b)));
       after := b; fnInvoked := false |}.
Proof.
  intros Hs Hlt. unfold execute. rewrite Hs.
  by rewrite (proj2 (Z.leb_gt _ _)) by lia.
Qed.

Lemma open_probes (b : CircuitBreaker) (now : Z) (fn : FnOutcome T E) (t : Z) :
  state b = OPEN →
  resetTimeout (options b) ≤ now - lastFailureTime b →
  execute b now fn t = runFn (transitionTo b HALF_OPEN) fn t.
Proof.
  intros Hs Hle. unfold execute. rewrite Hs.
  by rewrite (proj2 (Z.leb_le _ _)) by lia.
Qed.




End WithTypes.


(** The redis breaker through a whole cycle: three failures open it, a call
    five seconds later is refused without running the function, a call ten
    seconds after the last failure is let through in HALF_OPEN, and the
    second success in a row closes it with both counters at 0. *)
Example redis_cycle :
  let opened := executeAll redis [failing 100; failing 200; failing 300] in
  let refused := execute (T:=unit) (E:=string) opened 5300 (FnReturns tt) 5300 in
  let probing := executeAll opened [succeeding 10300] in
  let closed := executeAll probing [succeeding 10400] in
  state opened = OPEN
  ∧ outcome refused = ThrewCircuitOpen (circuitOpen "redis")
  ∧ fnInvoked refused = false
  ∧ state probing = HALF_OPEN
  ∧ state closed = CLOSED
  ∧ failures closed = 0 ∧ successes closed = 0.
Proof. cbv zeta. repeat split; reflexivity. Qed.



End BreakerProofs.

(** ** Rate limiter *)

Module RateLimitProofs.
Import RateLimit Samples.

Section OneCaller.
Variable o : Options.
Variable r : Request.

Local Abbreviation ident := (identifierOf r).
Local Abbreviation L := (limitOf o r).
Local Abbreviation W := (windowOf o).
Local Abbreviation B := (burstLimit (configOf o)).
Local Abbreviation Wb := (burstWindowMs (configOf o)).

Lemma rateLimiter_store (store : gmap string RateLimitEntry) (now : Z) :
  snd (rateLimiter o store r now) = <[ident := entryAfter o r store now]> store.
Proof.
  unfold rateLimiter, entryAfter.
  repeat case (_ <? _); reflexivity.
Qed.

Lemma rateLimiter_lookup (store : gmap string RateLimitEntry) (now : Z) :
  snd (rateLimiter o store r now) !! ident = Some (entryAfter o r store now).
Proof. rewrite rateLimiter_store. apply lookup_insert_eq. Qed.

(** The three ways the middleware ends, read off the counted entry. *)
Lemma rateLimiter_burst (store : gmap string RateLimitEntry) (now : Z) :
  B < burstCount (entryAfter o r store now) →
  reply (fst (rateLimiter o store r now))
    = Status429 None "Too many requests. Slow down."
  ∧ Retry_After (headers (fst (rateLimiter o store r now))) = Some 1.
Proof.
  unfold entryAfter, rateLimiter. intros H.
  rewrite (proj2 (Z.ltb_lt _ _)) by exact H. by split.
Qed.

Lemma rateLimiter_window (store : gmap string RateLimitEntry) (now : Z) :
  burstCount (entryAfter o r store now) ≤ B →
  L < count (entryAfter o r store now) →
  reply (fst (rateLimiter o store r now))
    = Status429 None "Rate limit exceeded. Please try again later."
  ∧ Retry_After (headers (fst (rateLimiter o store r now)))
    = Some (ceilSeconds (resetAt (entryAfter o r store now) - now)).
Proof.
  unfold entryAfter, rateLimiter. intros Hb Hc.
  rewrite (proj2 (Z.ltb_ge _ _)) by exact Hb.
  rewrite (proj2 (Z.ltb_lt _ _)) by exact Hc. by split.
Qed.


Lemma rateLimiter_next (store : gmap string RateLimitEntry) (now : Z) :
  burstCount (entryAfter o r store now) ≤ B →
  count (entryAfter o r store now) ≤ L →
  reply (fst (rateLimiter o store r now)) = Next.
Proof.
  unfold entryAfter, rateLimiter. intros Hb Hc.
  rewrite (proj2 (Z.ltb_ge _ _)) by exact Hb.
  by rewrite (proj2 (Z.ltb_ge _ _)) by exact Hc.
Qed.

(** The entry a request is counted against. *)
Lemma currentEntry_over (found : option RateLimitEntry) (now : Z) :
  match found with Some e => resetAt e < now | None => True end →
  currentEntry o found now
    = {| count := 0; resetAt := now + W; burstCount := 0; lastBurstReset := now |}.
Proof.
  intros H. unfold currentEntry.
  destruct found as [e|].
  - rewrite (proj2 (Z.ltb_lt _ _)) by exact H. cbn [lastBurstReset count resetAt].
    case (_ <=? _); reflexivity.
  - cbn [lastBurstReset count resetAt]. case (_ <=? _); reflexivity.
Qed.

Lemma currentEntry_live (e : RateLimitEntry) (now : Z) :
  now ≤ resetAt e →
  currentEntry o (Some e) now
    = if Wb <=? now - lastBurstReset e
      then {| count := count e; resetAt := resetAt e;
              burstCount := 0; lastBurstReset := now |}
      else e.
Proof.
  intros H. unfold currentEntry.
  by rewrite (proj2 (Z.ltb_ge _ _)) by exact H.
Qed.

Lemma entryAfter_live_count (store : gmap string RateLimitEntry) (e : RateLimitEntry)
    (now : Z) :
  store !! ident = Some e → now ≤ resetAt e →
  count (entryAfter o r store now) = count e + 1
  ∧ resetAt (entryAfter o r store now) = resetAt e.
Proof.
  intros He Hl. unfold entryAfter. rewrite He, currentEntry_live by exact Hl.
  case (_ <=? _); by split.
Qed.

Lemma serve_cons (store : gmap string RateLimitEntry) (t : Z) (ts : list Z) :
  serve o store r (t :: ts)
    = (fst (rateLimiter o store r t)
         :: fst (serve o (snd (rateLimiter o store r t)) r ts),
       snd (serve o (snd (rateLimiter o store r t)) r ts)).
Proof.
  cbn [serve]. destruct (rateLimiter o store r t) as [resp s1].
  cbn [fst snd]. by destruct (serve o s1 r ts).
Qed.




Lemma entryAfter_over (store : gmap string RateLimitEntry) (now : Z) :
  windowOver store ident now →
  entryAfter o r store now
    = {| count := 1; resetAt := now + W; burstCount := 1; lastBurstReset := now |}.
Proof.
  unfold windowOver, entryAfter. intros H.
  by rewrite currentEntry_over by exact H.
Qed.

Lemma window_over_admitted (store : gmap string RateLimitEntry) (now : Z) :
  windowOver store ident now → 1 ≤ L → 1 ≤ B →
  admitted (fst (rateLimiter o store r now)).
Proof.
  intros H HL HB. apply rateLimiter_next; rewrite entryAfter_over by exact H;
    cbn [burstCount count]; lia.
Qed.

Lemma over_limit_rejected (store : gmap string RateLimitEntry) (now : Z) :
  L < count (entryAfter o r store now) →
  rejected (fst (rateLimiter o store r now))
  ∧ (burstCount (entryAfter o r store now) ≤ B →
     Retry_After (headers (fst (rateLimiter o store r now)))
       = Some (ceilSeconds (resetAt (entryAfter o r store now) - now)))
  ∧ (B < burstCount (entryAfter o r store now) →
     Retry_After (headers (fst (rateLimiter o store r now))) = Some 1).
Proof.
  intros Hc. split; [|split].
  - destruct (Z.lt_ge_cases B (burstCount (entryAfter o r store now))) as [Hb|Hb].
    + eexists _, _. apply rateLimiter_burst, Hb.
    + eexists _, _. apply rateLimiter_window; [exact Hb | exact Hc].
  - intros Hb. apply rateLimiter_window; [exact Hb | exact Hc].
  - intros Hb. apply rateLimiter_burst, Hb.
Qed.

Lemma entryAfter_opens (store : gmap string RateLimitEntry) (now : Z) :
  opensBurstWindow o r store now →
  burstCount (entryAfter o r store now) = 1
  ∧ lastBurstReset (entryAfter o r store now) = now.
Proof.
  intros [H | (e & He & Hl & Hb)].
  - by rewrite entryAfter_over by exact H.
  - unfold entryAfter. rewrite He, currentEntry_live by exact Hl.
    by rewrite (proj2 (Z.leb_le _ _)) by exact Hb.
Qed.


(** C8, amended.  While the sustained window lasts, a request leaves its
    reset time alone and adds one to its counter, whether or not the burst
    window is over; the end of the burst window restarts the burst
    counter and the burst window only.  A request that finds the sustained
    window over replaces the whole entry: the burst counter and the start
    of the burst window are reset with it, whether or not the burst
    window was over. *)
Theorem window_resets (store : gmap string RateLimitEntry) (e : RateLimitEntry)
    (now : Z) :
  store !! ident = Some e →
  ∃ e', snd (rateLimiter o store r now) !! ident = Some e'
    ∧ (now ≤ resetAt e →
       count e' = count e + 1 ∧ resetAt e' = resetAt e
       ∧ (Wb ≤ now - lastBurstReset e →
          burstCount e' = 1 ∧ lastBurstReset e' = now)
       ∧ (now - lastBurstReset e < Wb →
          burstCount e' = burstCount e + 1
          ∧ lastBurstReset e' = lastBurstReset e))
    ∧ (resetAt e < now →
       e' = {| count := 1; resetAt := now + W;
               burstCount := 1; lastBurstReset := now |}).
Proof.
  intros He. exists (entryAfter o r store now).
  split; [apply rateLimiter_lookup|]. split.
  - intros Hl. unfold entryAfter. rewrite He, currentEntry_live by exact Hl.
    destruct (Z.leb_spec Wb (now - lastBurstReset e)); cbn; repeat split; lia.
  - intros Hov. apply entryAfter_over. unfold windowOver. by rewrite He.
Qed.

(** C10. Every call adds one to both counters of the entry the request
    is counted against, and the entry is stored with both increments
    whether the request is admitted, rejected for the burst limit or
    rejected for the sustained limit; the next call starts from the stored
    counters.  So rejected requests use up the sustained quota: under the
    agent limits, of 30 requests in one millisecond 5 are admitted and 25
    rejected, and a request one second later is rejected against the
    sustained limit of 30. *)
Theorem increments_survive_rejection (store : gmap string RateLimitEntry) (now : Z) :
  let base := currentEntry o (store !! ident) now in
  let resp := fst (rateLimiter o store r now) in
  let store' := snd (rateLimiter o store r now) in
  store' !! ident
    = Some {| count := count base + 1; resetAt := resetAt base;
              burstCount := burstCount base + 1;
              lastBurstReset := lastBurstReset base |}
  ∧ (rejected resp ↔ B < burstCount base + 1 ∨ L < count base + 1)
  ∧ (∀ later, later ≤ resetAt base → later - lastBurstReset base < Wb →
       currentEntry o (store' !! ident) later = increment base)
  ∧ (let anon := {| apiKey := None; xForwardedFor := None |} in
     let resps := fst (serve mcpOptions ∅ anon (replicate 30 0 ++ [1000])) in
     length (filter (fun x => isAdmitted x = true) (take 30 resps)) = 5%nat
     ∧ reply <$> last resps
       = Some (Status429 None "Rate limit exceeded. Please try again later.")).
Proof.
  cbv zeta. split; [|split; [|split]].
  - rewrite rateLimiter_lookup. reflexivity.
  - fold (increment (currentEntry o (store !! ident) now)).
    change (burstCount (currentEntry o (store !! ident) now) + 1)
      with (burstCount (entryAfter o r store now)).
    change (count (currentEntry o (store !! ident) now) + 1)
      with (count (entryAfter o r store now)).
    split.
    + intros (code & msg & Hmsg).
      destruct (Z.lt_ge_cases B (burstCount (entryAfter o r store now))) as [Hb|Hb];
        [by left|].
      destruct (Z.lt_ge_cases L (count (entryAfter o r store now))) as [Hc|Hc];
        [by right|].
      rewrite (rateLimiter_next store now Hb Hc) in Hmsg. discriminate.
    + intros [Hb|Hc].
      * eexists _, _. apply rateLimiter_burst, Hb.
      * apply over_limit_rejected, Hc.
  - intros later Hl Hb. rewrite rateLimiter_lookup.
    unfold entryAfter. rewrite currentEntry_live by exact Hl.
    cbn [increment lastBurstReset].
    by rewrite (proj2 (Z.leb_gt _ _)) by exact Hb.
  - split; vm_compute; reflexivity.
Qed.

End OneCaller.


Lemma window_resets_witness :
  ∃ e',
    snd (rateLimiter mcpOptions
           {[ "anonymous" := {| count := 6; resetAt := 60000;
                                burstCount := 5; lastBurstReset := 59500 |} ]}
           anonymous 60001) !! "anonymous" = Some e'
    ∧ e' = {| count := 1; resetAt := 120001; burstCount := 1; lastBurstReset := 60001 |}.
Proof.
  destruct (window_resets mcpOptions anonymous
              {[ "anonymous" := {| count := 6; resetAt := 60000;
                                   burstCount := 5; lastBurstReset := 59500 |} ]}
              {| count := 6; resetAt := 60000; burstCount := 5; lastBurstReset := 59500 |}
              60001) as (e' & Hlook & _ & Hover).
  - vm_compute. reflexivity.
  - exists e'. split; [exact Hlook|]. apply Hover. vm_compute. reflexivity.
Defined.

(** The scenario of the specification: ten requests of one caller within a
    second under a burst limit of 5; the first five are admitted and the
    requests 6 to 10 are rejected with Retry-After 1. *)
Example ten_in_a_second :
  let resps := fst (serve mcpOptions ∅ anonymous (seqZ 0 10)) in
  isAdmitted <$> resps = replicate 5 true ++ replicate 5 false
  ∧ (Retry_After ∘ headers) <$> drop 5 resps = replicate 5 (Some 1).
Proof. cbv zeta. split; vm_compute; reflexivity. Qed.


(** C8, as stated, fails.  A caller opens its sustained window at 0 and a
    burst window at 59500 with five requests; at 60001 the sustained window
    is over and the burst window is not, and the request of that moment
    finds the burst counter back at 1 and the burst window restarted. *)
Lemma sustained_reset_restarts_burst_window :
  let before := snd (serve mcpOptions ∅ anonymous (0 :: replicate 5 59500)) in
  let after := snd (rateLimiter mcpOptions before anonymous 60001) in
  before !! "anonymous"
    = Some {| count := 6; resetAt := 60000; burstCount := 5; lastBurstReset := 59500 |}
  ∧ 60001 - 59500 < burstWindowMs MCP
  ∧ after !! "anonymous"
    = Some {| count := 1; resetAt := 120001; burstCount := 1; lastBurstReset := 60001 |}.
Proof. cbv zeta. repeat split; vm_compute; reflexivity. Qed.

End RateLimitProofs.

(** ** Job queue *)

Module JsMapFacts.
Import JsMap.

Section Facts.
Context {V : Type}.
Implicit Types (m : list (string * V)) (k : string) (v : V).

Lemma get_set_eq m k v : get (set m k v) k = Some v.
Proof.
  induction m as [|[k' v'] m IH]; cbn.
  - by rewrite decide_True.
  - destruct (decide (k' = k)); cbn; [by rewrite decide_True | by rewrite decide_False].
Qed.

Lemma get_set_ne m k k' v : k ≠ k' → get (set m k v) k' = get m k'.
Proof.
  intros Hne. induction m as [|[k0 v0] m IH]; cbn.
  - by rewrite decide_False.
  - destruct (decide (k0 = k)) as [->|]; cbn.
    + by rewrite !decide_False.
    + destruct (decide (k0 = k')); [reflexivity | exact IH].
Qed.

Lemma get_delete_eq m k : get (delete m k) k = None.
Proof.
  unfold delete. induction m as [|[k' v'] m IH]; [reflexivity|].
  rewrite filter_cons. cbn [fst]. destruct (decide (k' ≠ k)); [|exact IH].
  cbn. by rewrite decide_False.
Qed.

Lemma get_delete_ne m k k' : k ≠ k' → get (delete m k) k' = get m k'.
Proof.
  intros Hne. unfold delete. induction m as [|[k0 v0] m IH]; [reflexivity|].
  rewrite filter_cons. cbn [fst]. destruct (decide (k0 ≠ k)) as [Hk|Hk].
  - cbn. destruct (decide (k0 = k')); [reflexivity | exact IH].
  - apply dec_stable in Hk. subst k0. cbn. by rewrite decide_False.
Qed.

Lemma get_update_eq m k f : get (update m k f) k = f <$> get m k.
Proof.
  induction m as [|[k' v'] m IH]; [reflexivity|]. cbn.
  destruct (decide (k' = k)); cbn; [by rewrite decide_True | by rewrite decide_False].
Qed.

Lemma get_update_ne m k k' f : k ≠ k' → get (update m k f) k' = get m k'.
Proof.
  intros Hne. induction m as [|[k0 v0] m IH]; [reflexivity|]. cbn.
  destruct (decide (k0 = k)) as [->|]; cbn.
  - by rewrite !decide_False.
  - destruct (decide (k0 = k')); [reflexivity | exact IH].
Qed.

Lemma keys_update m k f : keys (update m k f) = keys m.
Proof.
  unfold keys. induction m as [|[k' v'] m IH]; [reflexivity|]. cbn.
  destruct (decide (k' = k)); cbn; [reflexivity | by rewrite IH].
Qed.

Lemma get_None m k : get m k = None ↔ k ∉ keys m.
Proof.
  unfold keys. induction m as [|[k' v'] m IH]; cbn.
  - split; [intros _; apply not_elem_of_nil | reflexivity].
  - rewrite not_elem_of_cons. destruct (decide (k' = k)) as [->|Hne].
    + split; [discriminate | intros [? _]; congruence].
    + rewrite IH. split; [intros ?; split; congruence | intros [_ ?]; assumption].
Qed.

Lemma get_Some_elem m k v : get m k = Some v → (k, v) ∈ m.
Proof.
  induction m as [|[k' v'] m IH]; cbn; [discriminate|].
  destruct (decide (k' = k)) as [->|Hne].
  - intros [= ->]. left.
  - intros H. right. by apply IH.
Qed.

Lemma elem_get m k v : NoDup (keys m) → (k, v) ∈ m → get m k = Some v.
Proof.
  unfold keys. induction m as [|[k' v'] m IH]; cbn; intros Hnd Hin.
  - by apply elem_of_nil in Hin.
  - apply NoDup_cons in Hnd as [Hk Hnd].
    apply elem_of_cons in Hin as [[= -> ->]|Hin].
    + by rewrite decide_True.
    + destruct (decide (k' = k)) as [->|Hne]; [|by apply IH].
      exfalso. apply Hk. apply (list_elem_of_fmap_2 fst) in Hin. exact Hin.
Qed.

Lemma keys_set_old m k v : k ∈ keys m → keys (set m k v) = keys m.
Proof.
  unfold keys. induction m as [|[k' v'] m IH]; cbn; intros Hin.
  - by apply elem_of_nil in Hin.
  - destruct (decide (k' = k)) as [->|Hne]; cbn; [reflexivity|].
    apply elem_of_cons in Hin as [->|Hin]; [done|]. by rewrite IH.
Qed.

Lemma keys_set_new m k v : k ∉ keys m → keys (set m k v) = keys m ++ [k].
Proof.
  unfold keys. induction m as [|[k' v'] m IH]; cbn; intros Hin; [reflexivity|].
  apply not_elem_of_cons in Hin as [Hne Hin].
  rewrite decide_False by congruence. cbn. by rewrite IH.
Qed.

Lemma keys_delete m k : keys (delete m k) = filter (fun k' => k' ≠ k) (keys m).
Proof.
  unfold keys, delete. induction m as [|[k' v'] m IH]; [reflexivity|].
  cbn [map fst]. rewrite !filter_cons. cbn [fst].
  destruct (decide (k' ≠ k)); cbn; by rewrite IH.
Qed.

Lemma elem_of_set m k v k' v' :
  (k', v') ∈ set m k v → (k', v') ∈ m ∨ (k' = k ∧ v' = v).
Proof.
  induction m as [|[k0 v0] m IH]; cbn.
  - intros H. apply list_elem_of_singleton in H as [= -> ->]. by right.
  - destruct (decide (k0 = k)) as [->|Hne].
    + intros H. apply elem_of_cons in H as [[= -> ->]|H]; [by right|].
      left. by right.
    + intros H. apply elem_of_cons in H as [[= -> ->]|H]; [left; left|].
      destruct (IH H) as [?|?]; [left; by right | by right].
Qed.

Lemma elem_of_update m k f k' v' :
  (k', v') ∈ update m k f →
  (k', v') ∈ m ∨ (k' = k ∧ ∃ v, (k, v) ∈ m ∧ v' = f v).
Proof.
  induction m as [|[k0 v0] m IH]; cbn.
  - intros H. by apply elem_of_nil in H.
  - destruct (decide (k0 = k)) as [->|Hne].
    + intros H. apply elem_of_cons in H as [[= -> ->]|H].
      * right. split; [reflexivity|]. exists v0. split; [left | reflexivity].
      * left. by right.
    + intros H. apply elem_of_cons in H as [[= -> ->]|H]; [left; left|].
      destruct (IH H) as [?|(-> & v & Hv & ->)]; [left; by right|].
      right. split; [reflexivity|]. exists v. split; [by right | reflexivity].
Qed.

Lemma elem_of_delete m k k' v' :
  (k', v') ∈ delete m k ↔ k' ≠ k ∧ (k', v') ∈ m.
Proof. unfold delete. by rewrite list_elem_of_filter. Qed.

End Facts.
End JsMapFacts.

Module JsArrayFacts.
Import JsArray.

Section Facts.
Context {A : Type}.
Variable compareFn : A -> A -> Z.

Lemma insertBy_perm (x : A) (l : list A) : insertBy compareFn x l ≡ₚ x :: l.
Proof.
  induction l as [|y l IH]; cbn; [reflexivity|].
  case (_ <=? _); [reflexivity|]. rewrite IH. apply Permutation_swap.
Qed.

(** [sort] rearranges, and loses nothing. *)
Lemma sort_perm (l : list A) : sort compareFn l ≡ₚ l.
Proof.
  induction l as [|x l IH]; cbn; [reflexivity|].
  by rewrite insertBy_perm, IH.
Qed.

Lemma sort_nil (l : list A) : sort compareFn l = [] → l = [].
Proof.
  intros H. apply Permutation_nil_r. rewrite <- H. symmetry. apply sort_perm.
Qed.

(** For a comparator that orders by decreasing weight, the first element
    of the sorted array is the first element of greatest weight. *)
Lemma sort_head (w : A -> Z) (l : list A) (j : A) (rest : list A) :
  (∀ a b, compareFn a b = w b - w a) →
  sort compareFn l = j :: rest →
  ∃ l1 l2, l = l1 ++ j :: l2
           ∧ Forall (fun x => w x < w j) l1
           ∧ Forall (fun x => w x ≤ w j) l2.
Proof.
  intros Hcmp. revert j rest.
  induction l as [|x l IH]; intros j rest Hs; [discriminate|].
  cbn [sort] in Hs.
  destruct (sort compareFn l) as [|y s] eqn:Hsl.
  - apply sort_nil in Hsl. subst l. cbn in Hs. injection Hs as <- <-.
    exists [], []. repeat split; constructor.
  - destruct (IH y s eq_refl) as (l1 & l2 & -> & H1 & H2).
    cbn [insertBy] in Hs. rewrite Hcmp in Hs.
    destruct (Z.leb_spec (w y - w x) 0) as [Hle|Hgt].
    + injection Hs as <- <-. exists [], (l1 ++ y :: l2).
      split; [reflexivity|]. split; [constructor|].
      apply Forall_app. split; [|constructor].
      * eapply Forall_impl; [exact H1|]. cbn. intros; lia.
      * lia.
      * eapply Forall_impl; [exact H2|]. cbn. intros; lia.
    + injection Hs as <- <-. exists (x :: l1), l2.
      split; [reflexivity|]. split; [|exact H2].
      constructor; [lia | exact H1].
Qed.
End Facts.

Lemma filter_split {A : Type} (P : A → Prop) `{∀ x, Decision (P x)} (l : list A) :
  ∀ l1 x l2, filter P l = l1 ++ x :: l2 →
    ∃ v1 v2, l = v1 ++ x :: v2 ∧ filter P v1 = l1 ∧ filter P v2 = l2 ∧ P x.
Proof.
  induction l as [|a l IH]; intros l1 x l2 Hf.
  - by destruct l1.
  - rewrite filter_cons in Hf. destruct (decide (P a)) as [Ha|Ha].
    + destruct l1 as [|b l1]; cbn in Hf; injection Hf as -> Hf.
      * exists [], l. by repeat split.
      * destruct (IH _ _ _ Hf) as (v1 & v2 & -> & H1 & H2 & Hx).
        exists (b :: v1), v2. repeat split; try done.
        rewrite filter_cons. by rewrite decide_True, H1.
    + destruct (IH _ _ _ Hf) as (v1 & v2 & -> & H1 & H2 & Hx).
      exists (a :: v1), v2. repeat split; try done.
      rewrite filter_cons. by rewrite decide_False.
Qed.

Lemma Forall_of_filter {A : Type} (P Q : A → Prop) `{∀ x, Decision (P x)} (l : list A) :
  Forall Q (filter P l) → Forall (fun x => P x → Q x) l.
Proof.
  rewrite !Forall_forall. intros Hq x Hx Hp. apply Hq.
  apply list_elem_of_filter. by split.
Qed.
End JsArrayFacts.

Module QueueProofs.
Import Js JsMapFacts JsArrayFacts Queue Samples.

Section WithTypes.
Context {T R : Type}.
Implicit Types (q : MemoryQueue T R) (j job : QueueJob T R) (t : Tick).

Lemma update_update (m : list (string * QueueJob T R)) (k : string)
    (a b : QueueJob T R) :
  JsMap.update (JsMap.update m k (fun _ => a)) k (fun _ => b)
    = JsMap.update m k (fun _ => b).
Proof.
  induction m as [|[k' v] m IH]; [reflexivity|]. cbn.
  destruct (decide (k' = k)); cbn; [by rewrite decide_True|].
  by rewrite decide_False, IH.
Qed.

Lemma delete_update (m : list (string * QueueJob T R)) (k : string)
    (a : QueueJob T R) :
  JsMap.delete (JsMap.update m k (fun _ => a)) k = JsMap.delete m k.
Proof.
  unfold JsMap.delete. induction m as [|[k' v] m IH]; [reflexivity|]. cbn.
  destruct (decide (k' = k)) as [->|Hne].
  - rewrite !filter_cons. cbn [fst]. by rewrite !decide_False by (intros H; by apply H).
  - rewrite !filter_cons. cbn [fst]. by rewrite IH.
Qed.

(** What [takeNext] picks. *)
Lemma takeNext_Some q now job1 q1 :
  takeNext q now = Some (job1, q1) →
  ∃ job, selected q job
         ∧ Z.of_nat (size (processingSet q)) < opt_concurrency (options q)
         ∧ job1 = markProcessing now job
         ∧ q1 = withStores q (JsMap.update (jobs q) (id job) (fun _ => job1))
                  (deadLetterQueue q) ({[ id job ]} ∪ processingSet q).
Proof.
  unfold takeNext.
  destruct (Z.leb_spec (opt_concurrency (options q)) (Z.of_nat (size (processingSet q))));
    [discriminate|].
  destruct (pendingJobs q) as [|job rest] eqn:Hp; [discriminate|].
  intros [= <- <-]. exists job. split; [|by repeat split].
  unfold pendingJobs in Hp.
  apply (sort_head byPriority weight) in Hp as (l1 & l2 & Hf & H1 & H2);
    [|reflexivity].
  apply filter_split in Hf as (v1 & v2 & Hv & <- & <- & Hst).
  exists v1, v2. repeat split; [exact Hv | exact Hst | |].
  - by apply Forall_of_filter in H1.
  - by apply Forall_of_filter in H2.
Qed.

Lemma takeNext_None q now :
  takeNext q now = None →
  opt_concurrency (options q) ≤ Z.of_nat (size (processingSet q))
  ∨ ∀ j, j ∈ JsMap.values (jobs q) → status j ≠ pending.
Proof.
  unfold takeNext.
  destruct (Z.leb_spec (opt_concurrency (options q)) (Z.of_nat (size (processingSet q))));
    [by left|].
  destruct (pendingJobs q) as [|job rest] eqn:Hp; [|discriminate].
  intros _. right. intros j Hj Hst.
  unfold pendingJobs in Hp. apply sort_nil in Hp.
  assert (j ∈ filter (fun j => status j = pending) (JsMap.values (jobs q))) as Hin
    by (apply list_elem_of_filter; by split).
  rewrite Hp in Hin. by apply elem_of_nil in Hin.
Qed.

(** One worker tick, case by case. *)
Lemma processNext_cases q t :
  (takeNext q (startedAt t) = None ∧ processNext q t = (q, []))
  ∨ ∃ job,
      selected q job
      ∧ Z.of_nat (size (processingSet q)) < opt_concurrency (options q)
      ∧ let job1 := markProcessing (startedAt t) job in
        let p' := ({[ id job ]} ∪ processingSet q) ∖ {[ id job ]} in
        match handler q job1 with
        | Resolved r =>
            processNext q t =
              (withStores q
                 (JsMap.update (jobs q) (id job) (fun _ => markCompleted (settledAt t) r job1))
                 (deadLetterQueue q) p',
               [Invoked job1; Emitted (JobCompleted (name q) (id job) (type job))])
        | Rejected e =>
            if maxAttempts job <=? attempts job + 1
            then processNext q t =
                   (withStores q (JsMap.delete (jobs q) (id job))
                      (JsMap.set (deadLetterQueue q) (id job) (markFailed (message e) dead job1))
                      p',
                    [Invoked job1;
                     Emitted (JobDead (name q) (id job) (type job) (message e))])
            else processNext q t =
                   (withStores q
                      (JsMap.update (jobs q) (id job)
                         (fun _ => markFailed (message e) pending job1))
                      (deadLetterQueue q) p',
                    [Invoked job1])
        end.
Proof.
  unfold processNext.
  destruct (takeNext q (startedAt t)) as [[job1 q1]|] eqn:Ht; [|by left].
  right. apply takeNext_Some in Ht as (job & Hsel & Hc & -> & ->).
  exists job. split; [exact Hsel|]. split; [exact Hc|]. cbv zeta.
  unfold settle.
  cbn [handler withStores jobs deadLetterQueue processingSet name
       markProcessing id type maxAttempts attempts].
  destruct (handler q (markProcessing (startedAt t) job)) as [r|e].
  - cbn [markProcessing id]. by rewrite update_update.
  - destruct (Z.leb_spec (maxAttempts job) (attempts job + 1)).
    + by rewrite delete_update.
    + by rewrite update_update.
Qed.

(** *** Keys *)

Lemma get_Some_keys (m : list (string * QueueJob T R)) (k : string) j :
  JsMap.get m k = Some j → k ∈ JsMap.keys m.
Proof.
  intros H. destruct (decide (k ∈ JsMap.keys m)) as [|Hn]; [done|].
  apply get_None in Hn. congruence.
Qed.

Lemma wellKeyed_lookup q job :
  wellKeyed q → job ∈ JsMap.values (jobs q) →
  JsMap.get (jobs q) (id job) = Some job.
Proof.
  intros [Hk Hnd] Hin. unfold JsMap.values in Hin.
  apply list_elem_of_fmap in Hin as ([k j] & -> & Hin). cbn [snd].
  assert (id j = k) as -> by (apply Hk, elem_of_app; by left).
  apply elem_get; [|exact Hin]. by apply NoDup_app in Hnd as [? _].
Qed.

Lemma selected_in q job : selected q job → job ∈ JsMap.values (jobs q).
Proof.
  intros (v1 & v2 & -> & _). apply elem_of_app. right. left.
Qed.

Lemma selected_lookup q job :
  wellKeyed q → selected q job → JsMap.get (jobs q) (id job) = Some job.
Proof. intros Hw Hs. by apply wellKeyed_lookup, selected_in. Qed.

Lemma wellKeyed_apart q k :
  wellKeyed q → k ∈ JsMap.keys (jobs q) → k ∉ JsMap.keys (deadLetterQueue q).
Proof.
  intros [_ Hnd] Hin. apply NoDup_app in Hnd as (_ & Hd & _). by apply Hd.
Qed.

Lemma wellKeyed_update q k j' (p : gset string) :
  wellKeyed q → id j' = k →
  wellKeyed (withStores q (JsMap.update (jobs q) k (fun _ => j'))
               (deadLetterQueue q) p).
Proof.
  intros [Hk Hnd] Hid. split; cbn [withStores jobs deadLetterQueue].
  - intros k0 j0 Hin. apply elem_of_app in Hin as [Hin|Hin].
    + apply elem_of_update in Hin as [Hin | (-> & v & _ & ->)]; [|exact Hid].
      apply Hk, elem_of_app. by left.
    + apply Hk, elem_of_app. by right.
  - by rewrite keys_update.
Qed.

Lemma filter_out_perm (ks : list string) (k : string) :
  NoDup ks → k ∈ ks → filter (fun k' => k' ≠ k) ks ++ [k] ≡ₚ ks.
Proof.
  induction ks as [|a ks IH]; intros Hnd Hin; [by apply elem_of_nil in Hin|].
  apply NoDup_cons in Hnd as [Ha Hnd]. rewrite filter_cons.
  destruct (decide (a ≠ k)) as [Hne|He].
  - apply elem_of_cons in Hin as [->|Hin]; [done|].
    cbn. by rewrite IH.
  - apply dec_stable in He. subst a.
    assert (filter (fun k' => k' ≠ k) ks = ks) as ->.
    { clear IH Hin Hnd. induction ks as [|b ks IH]; [reflexivity|].
      apply not_elem_of_cons in Ha as [Hb Ha].
      rewrite filter_cons, decide_True by congruence. by rewrite IH. }
    symmetry. apply Permutation_cons_append.
Qed.

(** Moving the entry [k] from one store to the end of the other keeps
    the keys of the two stores, as a collection. *)
Lemma keys_moved (from to : list (string * QueueJob T R)) (k : string) j' :
  NoDup (JsMap.keys from ++ JsMap.keys to) → k ∈ JsMap.keys from →
  JsMap.keys (JsMap.delete from k) ++ JsMap.keys (JsMap.set to k j')
    ≡ₚ JsMap.keys from ++ JsMap.keys to.
Proof.
  intros Hnd Hin.
  pose proof Hnd as Hnd'. apply NoDup_app in Hnd' as (Hf & Hd & _).
  rewrite keys_delete, keys_set_new by (by apply Hd).
  rewrite <- (filter_out_perm (JsMap.keys from) k Hf Hin) at 2.
  rewrite <- !app_assoc. apply Permutation_app_head, Permutation_app_comm.
Qed.

Lemma keyed_moved (from to : list (string * QueueJob T R)) (k : string) j' :
  (∀ k0 j0, (k0, j0) ∈ from ++ to → id j0 = k0) → id j' = k →
  ∀ k0 j0, (k0, j0) ∈ JsMap.delete from k ++ JsMap.set to k j' → id j0 = k0.
Proof.
  intros Hk Hid k0 j0 Hin. apply elem_of_app in Hin as [Hin|Hin].
  - apply elem_of_delete in Hin as [_ Hin]. apply Hk, elem_of_app. by left.
  - apply elem_of_set in Hin as [Hin|[-> ->]]; [|exact Hid].
    apply Hk, elem_of_app. by right.
Qed.

Lemma wellKeyed_bury q k j' (p : gset string) :
  wellKeyed q → k ∈ JsMap.keys (jobs q) → id j' = k →
  wellKeyed (withStores q (JsMap.delete (jobs q) k)
               (JsMap.set (deadLetterQueue q) k j') p).
Proof.
  intros [Hk Hnd] Hin Hid. split; cbn [withStores jobs deadLetterQueue].
  - by apply keyed_moved.
  - by rewrite keys_moved.
Qed.

Lemma wellKeyed_revive q k j' (p : gset string) :
  wellKeyed q → k ∈ JsMap.keys (deadLetterQueue q) → id j' = k →
  wellKeyed (withStores q (JsMap.set (jobs q) k j')
               (JsMap.delete (deadLetterQueue q) k) p).
Proof.
  intros [Hk Hnd] Hin Hid. split; cbn [withStores jobs deadLetterQueue].
  - intros k0 j0 H0. eapply (keyed_moved (deadLetterQueue q) (jobs q) k j').
    + intros k1 j1 H1. apply Hk. apply elem_of_app.
      apply elem_of_app in H1 as [?|?]; [by right | by left].
    + exact Hid.
    + apply elem_of_app. apply elem_of_app in H0 as [?|?]; [by right | by left].
  - assert (NoDup (JsMap.keys (deadLetterQueue q) ++ JsMap.keys (jobs q))) as Hnd'.
    { by rewrite (Permutation_app_comm (JsMap.keys (deadLetterQueue q))). }
    rewrite (Permutation_app_comm (JsMap.keys (JsMap.set (jobs q) k j'))).
    by rewrite keys_moved.
Qed.

(** A tick keeps the keys of the two stores taken together: no job is
    lost and none is copied. *)
Lemma processNext_keys q t :
  wellKeyed q →
  wellKeyed (fst (processNext q t))
  ∧ JsMap.keys (jobs (fst (processNext q t)))
      ++ JsMap.keys (deadLetterQueue (fst (processNext q t)))
    ≡ₚ JsMap.keys (jobs q) ++ JsMap.keys (deadLetterQueue q).
Proof.
  intros Hw.
  destruct (processNext_cases q t) as [[_ ->]|(job & Hsel & _ & Hcase)];
    [by split|].
  cbv zeta in Hcase.
  pose proof (selected_lookup q job Hw Hsel) as Hget.
  destruct (handler q (markProcessing (startedAt t) job)) as [r|e].
  - rewrite Hcase. cbn [fst withStores jobs deadLetterQueue].
    split; [by apply wellKeyed_update | by rewrite keys_update].
  - destruct (maxAttempts job <=? attempts job + 1); rewrite Hcase;
      cbn [fst withStores jobs deadLetterQueue].
    + split.
      * apply wellKeyed_bury; [exact Hw | by eapply get_Some_keys | reflexivity].
      * apply keys_moved; [by destruct Hw | by eapply get_Some_keys].
    + split; [by apply wellKeyed_update | by rewrite keys_update].
Qed.

Lemma processNext_deadApart q t :
  wellKeyed q → deadApart q → deadApart (fst (processNext q t)).
Proof.
  intros Hw [Hj Hd].
  destruct (processNext_cases q t) as [[_ ->]|(job & Hsel & _ & Hcase)];
    [by split|].
  cbv zeta in Hcase.
  destruct (handler q (markProcessing (startedAt t) job)) as [r|e].
  - rewrite Hcase. cbn [fst]. split; cbn [withStores jobs deadLetterQueue]; [|exact Hd].
    intros k j Hin. apply elem_of_update in Hin as [Hin | (-> & v & _ & ->)];
      [by eapply Hj | discriminate].
  - destruct (maxAttempts job <=? attempts job + 1); rewrite Hcase; cbn [fst];
      split; cbn [withStores jobs deadLetterQueue].
    + intros k j Hin. apply elem_of_delete in Hin as [_ Hin]. by eapply Hj.
    + intros k j Hin. apply elem_of_set in Hin as [Hin | [-> ->]];
        [by eapply Hd | reflexivity].
    + intros k j Hin. apply elem_of_update in Hin as [Hin | (-> & v & _ & ->)];
        [by eapply Hj | discriminate].
    + exact Hd.
Qed.

(** *** The other operations *)

Lemma create_sound (nm : string) (h : QueueJob T R -> Settled R) (o : RawOptions) :
  wellKeyed (create nm h o) ∧ deadApart (create nm h o).
Proof.
  split; split; cbn.
  - intros k j H. by apply elem_of_nil in H.
  - constructor.
  - intros k j H. by apply elem_of_nil in H.
  - intros k j H. by apply elem_of_nil in H.
Qed.

Lemma add_wellKeyed q (uuid : string) (now : Z) (ty : string) (d : T)
    (prio : option JobPriority) (maxAtt : option Z) :
  wellKeyed q →
  uuid ∉ JsMap.keys (jobs q) ++ JsMap.keys (deadLetterQueue q) →
  wellKeyed (snd (add q uuid now ty d prio maxAtt)).
Proof.
  intros [Hk Hnd] Hfresh.
  apply not_elem_of_app in Hfresh as [Hf1 Hf2].
  unfold add. cbn [snd]. split; cbn [withStores jobs deadLetterQueue].
  - intros k j Hin. apply elem_of_app in Hin as [Hin|Hin].
    + apply elem_of_set in Hin as [Hin|[-> ->]]; [|reflexivity].
      apply Hk, elem_of_app. by left.
    + apply Hk, elem_of_app. by right.
  - rewrite keys_set_new by exact Hf1.
    rewrite <- app_assoc. cbn [app].
    rewrite <- Permutation_middle. apply NoDup_cons. split; [|exact Hnd].
    intros Hin. apply elem_of_app in Hin as [?|?]; [by apply Hf1 | by apply Hf2].
Qed.

Lemma add_sound q (uuid : string) (now : Z) (ty : string) (d : T)
    (prio : option JobPriority) (maxAtt : option Z) :
  wellKeyed q → deadApart q →
  uuid ∉ JsMap.keys (jobs q) ++ JsMap.keys (deadLetterQueue q) →
  wellKeyed (snd (add q uuid now ty d prio maxAtt))
  ∧ deadApart (snd (add q uuid now ty d prio maxAtt)).
Proof.
  intros Hw [Hj Hd] Hfresh. split; [by apply add_wellKeyed|].
  unfold add. cbn [snd]. split; cbn [withStores jobs deadLetterQueue].
  - intros k j Hin. apply elem_of_set in Hin as [Hin|[-> ->]]; [by eapply Hj | discriminate].
  - exact Hd.
Qed.

Lemma retryDeadLetter_sound q (jobId : string) :
  wellKeyed q → deadApart q →
  wellKeyed (snd (retryDeadLetter q jobId))
  ∧ deadApart (snd (retryDeadLetter q jobId)).
Proof.
  intros Hw [Hj Hd]. unfold retryDeadLetter.
  destruct (JsMap.get (deadLetterQueue q) jobId) as [job|] eqn:Hget;
    cbn [snd]; [|split; [exact Hw | by split]].
  split.
  - apply wellKeyed_revive; [exact Hw | by eapply get_Some_keys |].
    cbn [markRetried id]. destruct Hw as [Hk _].
    apply Hk, elem_of_app. right. by apply get_Some_elem.
  - split; cbn [withStores jobs deadLetterQueue].
    + intros k j Hin. apply elem_of_set in Hin as [Hin|[-> ->]];
        [by eapply Hj | discriminate].
    + intros k j Hin. apply elem_of_delete in Hin as [_ Hin]. by eapply Hd.
Qed.

Lemma clearCompleted_sound q :
  wellKeyed q → deadApart q →
  wellKeyed (snd (clearCompleted q)) ∧ deadApart (snd (clearCompleted q)).
Proof.
  intros [Hk Hnd] [Hj Hd]. unfold clearCompleted. cbn [snd].
  split; split; cbn [withStores jobs deadLetterQueue].
  - intros k j Hin. apply Hk. apply elem_of_app.
    apply elem_of_app in Hin as [Hin|Hin]; [left | by right].
    by apply list_elem_of_filter in Hin as [_ Hin].
  - eapply sublist_NoDup; [exact Hnd|].
    apply sublist_app; [|reflexivity].
    unfold JsMap.keys. apply fmap_sublist, sublist_filter.
  - intros k j Hin. apply list_elem_of_filter in Hin as [_ Hin]. by eapply Hj.
  - exact Hd.
Qed.

Lemma reachable_sound (nm : string) (h : QueueJob T R -> Settled R) (o : RawOptions) q :
  rtc step (create nm h o) q → wellKeyed q ∧ deadApart q.
Proof.
  intros Hr.
  refine (rtc_ind_r (fun q => wellKeyed q ∧ deadApart q) _ _ _ q Hr);
    [apply create_sound|].
  intros q1 q2 _ Hs [Hw Hd]. inversion Hs; subst.
  - by apply add_sound.
  - split; [by apply processNext_keys | by apply processNext_deadApart].
  - by apply retryDeadLetter_sound.
  - by apply clearCompleted_sound.
Qed.

Lemma elem_of_update_ne (m : list (string * QueueJob T R)) (k k0 : string) f j0 :
  k0 ≠ k → (k0, j0) ∈ m → (k0, j0) ∈ JsMap.update m k f.
Proof.
  intros Hne. induction m as [|[k' v] m IH]; intros Hin; [by apply elem_of_nil in Hin|].
  cbn. apply elem_of_cons in Hin as [[= <- <-]|Hin].
  - rewrite decide_False by done. left.
  - destruct (decide (k' = k)); right; [exact Hin | by apply IH].
Qed.

Lemma processNext_keeps_completed q t (k : string) j :
  wellKeyed q → (k, j) ∈ jobs q → status j = completed →
  (k, j) ∈ jobs (fst (processNext q t)).
Proof.
  intros Hw Hin Hst.
  destruct (processNext_cases q t) as [[_ ->]|(job & Hsel & _ & Hcase)]; [done|].
  cbv zeta in Hcase.
  assert (k ≠ id job) as Hne.
  { intros ->. pose proof (selected_lookup q job Hw Hsel) as Hget.
    destruct Hw as [_ Hnd]. apply NoDup_app in Hnd as [Hnd _].
    rewrite (elem_get _ _ _ Hnd Hin) in Hget. injection Hget as ->.
    destruct Hsel as (_ & _ & _ & Hp & _). congruence. }
  destruct (handler q (markProcessing (startedAt t) job)) as [r|e].
  - rewrite Hcase. cbn [fst withStores jobs]. by apply elem_of_update_ne.
  - destruct (maxAttempts job <=? attempts job + 1); rewrite Hcase;
      cbn [fst withStores jobs].
    + by apply elem_of_delete.
    + by apply elem_of_update_ne.
Qed.

(** C9, amended.  In every state a queue reaches from its creation, all
    jobs are stored under their own ids and no id occurs twice in the
    active set and the dead-letter set taken together, no job of the
    active set is dead and every job of the dead-letter set is.  A worker
    step keeps the ids of the two sets taken together, so a job that dies
    moves to the dead-letter set and none is dropped; and it leaves every
    completed job in the active set, where it stays until
    [clearCompleted] removes exactly the completed jobs. *)
Theorem active_set_lifecycle (nm : string) (h : QueueJob T R -> Settled R)
    (o : RawOptions) q :
  rtc step (create nm h o) q →
  (wellKeyed q ∧ deadApart q)
  ∧ (∀ t,
      JsMap.keys (jobs (fst (processNext q t)))
        ++ JsMap.keys (deadLetterQueue (fst (processNext q t)))
      ≡ₚ JsMap.keys (jobs q) ++ JsMap.keys (deadLetterQueue q))
  ∧ (∀ t k j, (k, j) ∈ jobs q → status j = completed →
              (k, j) ∈ jobs (fst (processNext q t)))
  ∧ jobs (snd (clearCompleted q))
      = filter (fun kv => status (snd kv) ≠ completed) (jobs q)
  ∧ deadLetterQueue (snd (clearCompleted q)) = deadLetterQueue q.
Proof.
  intros Hr. destruct (reachable_sound nm h o q Hr) as [Hw Hd].
  split; [by split|]. split; [|split; [|by split]].
  - intros t. by apply processNext_keys.
  - intros t k j. by apply processNext_keeps_completed.
Qed.

(** *** Runs of worker ticks *)

Lemma run_cons q t (rest : list Tick) :
  run q (t :: rest)
    = (fst (run (fst (processNext q t)) rest),
       snd (processNext q t) ++ snd (run (fst (processNext q t)) rest)).
Proof.
  cbn [run]. destruct (processNext q t) as [q1 e1]. cbn [fst snd].
  by destruct (run q1 rest).
Qed.

Lemma processNext_fixed q t :
  handler (fst (processNext q t)) = handler q
  ∧ options (fst (processNext q t)) = options q
  ∧ name (fst (processNext q t)) = name q.
Proof.
  destruct (processNext_cases q t) as [[_ ->]|(job & _ & _ & Hcase)]; [done|].
  cbv zeta in Hcase.
  destruct (handler q (markProcessing (startedAt t) job)) as [r|e].
  - by rewrite Hcase.
  - destruct (maxAttempts job <=? attempts job + 1); by rewrite Hcase.
Qed.






(** *** The attempts of one job *)

Lemma invocations_app (uuid : string) (e1 e2 : list (Effect T R)) :
  invocations uuid (e1 ++ e2) = invocations uuid e1 ++ invocations uuid e2.
Proof. unfold invocations. apply omap_app. Qed.

Lemma invocations_Invoked (uuid : string) j (e : list (Effect T R)) :
  invocations uuid (Invoked j :: e)
    = if decide (id j = uuid) then j :: invocations uuid e else invocations uuid e.
Proof. unfold invocations. cbn. by destruct (decide (id j = uuid)). Qed.

Lemma invocations_Emitted (uuid : string) (ev : QueueEvent) (e : list (Effect T R)) :
  invocations uuid (Emitted ev :: e) = invocations uuid e.
Proof. reflexivity. Qed.

Lemma invocations_nil (uuid : string) : invocations (T:=T) (R:=R) uuid [] = [].
Proof. reflexivity. Qed.

Lemma tracked_tick q t (uuid : string) (a : Z) :
  wellKeyed q → failsOn q uuid → tracked q uuid a →
  tracked (fst (processNext q t)) uuid
    (a + Z.of_nat (length (invocations uuid (snd (processNext q t))))).
Proof.
  intros Hw Hfail Htr.
  destruct (processNext_cases q t) as [[_ ->]|(job & Hsel & _ & Hcase)].
  { cbn. by rewrite Z.add_0_r. }
  cbv zeta in Hcase.
  pose proof (selected_lookup q job Hw Hsel) as Hget.
  destruct (decide (id job = uuid)) as [Heq|Hne].
  - destruct Htr as [(Ha & Hdl & j & Hj & Hst & Hat & Hmax)
                    |(_ & Hnone & _)]; [|congruence].
    rewrite Heq in Hget. rewrite Hget in Hj. injection Hj as <-.
    destruct (Hfail (markProcessing (startedAt t) job)) as [e He]; [exact Heq|].
    rewrite He, Hmax, Hat in Hcase.
    destruct (Z.leb_spec 3 (a + 1)); rewrite Hcase; cbn [fst snd];
      rewrite invocations_Invoked, ?invocations_Emitted, invocations_nil;
      cbn [markProcessing id];
      rewrite decide_True by exact Heq; cbn [length withStores jobs deadLetterQueue].
    + right. cbn [withStores jobs deadLetterQueue].
      split; [lia|]. rewrite Heq. split; [apply get_delete_eq|].
      rewrite get_set_eq. eexists. split; [reflexivity|].
      cbn [markFailed markProcessing status attempts maxAttempts]. repeat split; first [reflexivity | lia].
    + left. cbn [withStores jobs deadLetterQueue].
      split; [lia|]. split; [exact Hdl|].
      rewrite Heq, get_update_eq, Hget. eexists. split; [reflexivity|].
      cbn [markFailed markProcessing status attempts maxAttempts]. repeat split; first [reflexivity | lia].
  - assert (length (invocations uuid (snd (processNext q t))) = 0%nat
            ∧ JsMap.get (jobs (fst (processNext q t))) uuid = JsMap.get (jobs q) uuid
            ∧ JsMap.get (deadLetterQueue (fst (processNext q t))) uuid
              = JsMap.get (deadLetterQueue q) uuid) as (-> & Hj' & Hd').
    { destruct (handler q (markProcessing (startedAt t) job)) as [r|e].
      - rewrite Hcase. cbn [fst snd withStores jobs deadLetterQueue].
        rewrite invocations_Invoked, ?invocations_Emitted, invocations_nil.
        cbn [markProcessing id]. rewrite decide_False by exact Hne.
        by rewrite get_update_ne by exact Hne.
      - destruct (maxAttempts job <=? attempts job + 1); rewrite Hcase;
          cbn [fst snd withStores jobs deadLetterQueue];
          rewrite invocations_Invoked, ?invocations_Emitted, invocations_nil;
          cbn [markProcessing id];
          rewrite decide_False by exact Hne.
        + by rewrite get_delete_ne, get_set_ne by exact Hne.
        + by rewrite get_update_ne by exact Hne. }
    cbn. rewrite Z.add_0_r. unfold tracked. by rewrite Hj', Hd'.
Qed.

Lemma tracked_run (uuid : string) (ticks : list Tick) :
  ∀ q a, wellKeyed q → failsOn q uuid → tracked q uuid a →
         tracked (fst (run q ticks)) uuid
           (a + Z.of_nat (length (invocations uuid (snd (run q ticks)))))
         ∧ wellKeyed (fst (run q ticks)).
Proof.
  induction ticks as [|t rest IH]; intros q a Hw Hf Htr.
  - cbn. by rewrite Z.add_0_r.
  - rewrite run_cons. cbn [fst snd].
    rewrite invocations_app, length_app, Nat2Z.inj_add, Z.add_assoc.
    apply IH.
    + by apply processNext_keys.
    + intros j Hj. destruct (processNext_fixed q t) as [-> _]. by apply Hf.
    + by apply tracked_tick.
Qed.

Lemma tracked_bound q (uuid : string) (a : Z) : tracked q uuid a → 0 ≤ a ≤ 3.
Proof. intros [(? & _)|(-> & _)]; lia. Qed.

Lemma alone_tick q t (uuid : string) (a : Z) :
  wellKeyed q → failsOn q uuid → tracked q uuid a → alone q uuid →
  alone (fst (processNext q t)) uuid
  ∧ (a < 3 → length (invocations uuid (snd (processNext q t))) = 1%nat).
Proof.
  intros Hw Hfail Htr (Hp & Hc & Hothers).
  destruct (processNext_cases q t) as [[Hnone ->]|(job & Hsel & _ & Hcase)].
  { split; [done|]. intros Ha. exfalso.
    destruct Htr as [(_ & _ & j & Hj & Hst & _)|(? & _)]; [|lia].
    apply takeNext_None in Hnone as [Hbusy|Hnopending].
    - rewrite Hp, size_empty in Hbusy. cbn in Hbusy. lia.
    - apply (Hnopending j); [|exact Hst].
      apply get_Some_elem in Hj. unfold JsMap.values.
      by apply (list_elem_of_fmap_2 snd) in Hj. }
  cbv zeta in Hcase.
  pose proof (selected_lookup q job Hw Hsel) as Hget.
  assert (id job = uuid) as Heq.
  { destruct (decide (id job = uuid)) as [|Hne]; [done|]. exfalso.
    apply (Hothers (id job) job); [by apply get_Some_elem | exact Hne|].
    by destruct Hsel as (_ & _ & _ & ? & _). }
  destruct (Hfail (markProcessing (startedAt t) job)) as [e He]; [exact Heq|].
  rewrite He in Hcase.
  assert (({[id job]} ∪ processingSet q) ∖ {[id job]} = (∅ : gset string)) as Hp'
    by (by rewrite Hp, union_empty_r_L, difference_diag_L).
  destruct (maxAttempts job <=? attempts job + 1); rewrite Hcase;
    cbn [fst snd withStores jobs processingSet options];
    (split; [split; [exact Hp'|]; split; [exact Hc|] |]).
  - intros k j Hin Hk. apply elem_of_delete in Hin as [_ Hin]. by eapply Hothers.
  - intros _. rewrite invocations_Invoked, ?invocations_Emitted, invocations_nil.
    cbn [markProcessing id]. by rewrite decide_True by exact Heq.
  - intros k j Hin Hk. apply elem_of_update in Hin as [Hin|(-> & _)];
      [by eapply Hothers | congruence].
  - intros _. rewrite invocations_Invoked, ?invocations_Emitted, invocations_nil.
    cbn [markProcessing id]. by rewrite decide_True by exact Heq.
Qed.

Lemma alone_run (uuid : string) (ticks : list Tick) :
  ∀ q a, wellKeyed q → failsOn q uuid → tracked q uuid a → alone q uuid →
         Z.of_nat (length (invocations uuid (snd (run q ticks))))
         = Z.min (3 - a) (Z.of_nat (length ticks)).
Proof.
  induction ticks as [|t rest IH]; intros q a Hw Hf Htr Hal.
  - pose proof (tracked_bound q uuid a Htr). cbn. lia.
  - rewrite run_cons. cbn [snd].
    rewrite invocations_app, length_app, Nat2Z.inj_add.
    pose proof (tracked_tick q t uuid a Hw Hf Htr) as Htr'.
    destruct (alone_tick q t uuid a Hw Hf Htr Hal) as [Hal' Hone].
    rewrite (IH _ _ (proj1 (processNext_keys q t Hw))
               ltac:(intros j Hj; destruct (processNext_fixed q t) as [-> _]; by apply Hf)
               Htr' Hal').
    pose proof (tracked_bound _ _ _ Htr) as Hb.
    pose proof (tracked_bound _ _ _ Htr') as Hb'.
    rewrite length_cons, Nat2Z.inj_succ.
    destruct (decide (a < 3)) as [Ha|Ha]; [rewrite (Hone Ha) in *; lia | lia].
Qed.

Lemma alone_kept (uuid : string) (ticks : list Tick) :
  ∀ q a, wellKeyed q → failsOn q uuid → tracked q uuid a → alone q uuid →
         alone (fst (run q ticks)) uuid.
Proof.
  induction ticks as [|t rest IH]; intros q a Hw Hf Htr Hal; [exact Hal|].
  rewrite run_cons. cbn [fst].
  apply (IH _ (a + Z.of_nat (length (invocations uuid (snd (processNext q t)))))).
  - by apply processNext_keys.
  - intros j Hj. destruct (processNext_fixed q t) as [-> _]. by apply Hf.
  - by apply tracked_tick.
  - by apply (alone_tick q t uuid a).
Qed.

Lemma run_fixed (ticks : list Tick) :
  ∀ q, handler (fst (run q ticks)) = handler q
       ∧ options (fst (run q ticks)) = options q.
Proof.
  induction ticks as [|t rest IH]; intros q; [done|].
  rewrite run_cons. cbn [fst]. destruct (IH (fst (processNext q t))) as [-> ->].
  by destruct (processNext_fixed q t) as (-> & -> & _).
Qed.

Lemma add_tracked q (uuid : string) (now : Z) (ty : string) (d : T)
    (prio : option JobPriority) :
  uuid ∉ JsMap.keys (jobs q) ++ JsMap.keys (deadLetterQueue q) →
  tracked (snd (add q uuid now ty d prio (Some 3))) uuid 0.
Proof.
  intros Hfresh. apply not_elem_of_app in Hfresh as [_ Hf2].
  left. unfold add. cbn [snd withStores jobs deadLetterQueue].
  split; [lia|]. split; [by apply get_None|].
  rewrite get_set_eq. eexists. by split.
Qed.

Lemma retryDeadLetter_dead q (uuid : string) j :
  JsMap.get (deadLetterQueue q) uuid = Some j →
  fst (retryDeadLetter q uuid) = true
  ∧ JsMap.get (jobs (snd (retryDeadLetter q uuid))) uuid = Some (markRetried j)
  ∧ JsMap.get (deadLetterQueue (snd (retryDeadLetter q uuid))) uuid = None.
Proof.
  intros Hget. unfold retryDeadLetter. rewrite Hget.
  cbn [fst snd withStores jobs deadLetterQueue].
  by rewrite get_set_eq, get_delete_eq.
Qed.

(** C5. A job is enqueued under a fresh id with [maxAttempts] 3 and its
    handler fails whenever it is called on it.  Then, after any number of
    worker ticks, whatever else the queue holds: the handler has been
    called on the job at most 3 times; as long as it has been called
    fewer than 3 times the job is pending in the active set with that
    many attempts; once it has been called 3 times the job is dead, it is
    in the dead-letter set and no longer in the active set, and
    [retryDeadLetter] on its id answers true and puts it back into the
    active set, pending, with 0 attempts and no error, and out of the
    dead-letter set.  When no other job is pending and a worker is free,
    every tick calls the handler on the job until the third call, so
    after 3 ticks or more it has been called exactly 3 times; and after
    the retry the next tick calls the handler on it again. *)
Theorem retry_budget q0 (uuid : string) (now : Z) (ty : string) (d : T)
    (prio : option JobPriority) (ticks : list Tick) :
  wellKeyed q0 →
  uuid ∉ JsMap.keys (jobs q0) ++ JsMap.keys (deadLetterQueue q0) →
  failsOn q0 uuid →
  let q1 := snd (add q0 uuid now ty d prio (Some 3)) in
  let qn := fst (run q1 ticks) in
  let n := Z.of_nat (length (invocations uuid (snd (run q1 ticks)))) in
  n ≤ 3
  ∧ (n < 3 →
     ∃ j, JsMap.get (jobs qn) uuid = Some j
          ∧ status j = pending ∧ attempts j = n
          ∧ JsMap.get (deadLetterQueue qn) uuid = None)
  ∧ (n = 3 →
     JsMap.get (jobs qn) uuid = None
     ∧ ∃ j, JsMap.get (deadLetterQueue qn) uuid = Some j
            ∧ status j = dead ∧ attempts j = 3
            ∧ fst (retryDeadLetter qn uuid) = true
            ∧ JsMap.get (jobs (snd (retryDeadLetter qn uuid))) uuid
              = Some (markRetried j)
            ∧ status (markRetried j) = pending
            ∧ attempts (markRetried j) = 0
            ∧ error (markRetried j) = None
            ∧ JsMap.get (deadLetterQueue (snd (retryDeadLetter qn uuid))) uuid = None)
  ∧ (processingSet q0 = ∅ →
     1 ≤ opt_concurrency (options q0) →
     (∀ k j, (k, j) ∈ jobs q0 → status j ≠ pending) →
     n = Z.min 3 (Z.of_nat (length ticks))
     ∧ (n = 3 → ∀ t,
          length (invocations uuid
                    (snd (processNext (snd (retryDeadLetter qn uuid)) t))) = 1%nat)).
Proof.
  intros Hw Hfresh Hfail q1 qn n.
  assert (wellKeyed q1) as Hw1 by (by apply add_wellKeyed).
  assert (failsOn q1 uuid) as Hfail1 by exact Hfail.
  pose proof (add_tracked q0 uuid now ty d prio Hfresh) as Htr1.
  destruct (tracked_run uuid ticks q1 0 Hw1 Hfail1 Htr1) as [Htr Hwn].
  fold qn in Htr, Hwn. rewrite Z.add_0_l in Htr. fold n in Htr.
  pose proof (tracked_bound _ _ _ Htr) as Hb.
  split; [lia|]. split; [|split].
  - intros Hlt. destruct Htr as [(_ & Hdl & j & Hj & Hst & Hat & _)|(? & _)]; [|lia].
    exists j. by repeat split.
  - intros H3. destruct Htr as [(? & _)|(_ & Hnone & j & Hj & Hst & Hat & _)]; [lia|].
    split; [exact Hnone|]. exists j.
    destruct (retryDeadLetter_dead qn uuid j Hj) as (Hok & Hback & Hgone).
    by repeat split.
  - intros Hp Hc Hothers.
    assert (alone q1 uuid) as Hal1.
    { split; [exact Hp|]. split; [exact Hc|].
      intros k j Hin Hk. unfold q1, add in Hin. cbn [snd withStores jobs] in Hin.
      apply elem_of_set in Hin as [Hin|[-> _]]; [by eapply Hothers | done]. }
    split.
    + unfold n. rewrite (alone_run uuid ticks q1 0 Hw1 Hfail1 Htr1 Hal1). lia.
    + intros H3 t.
      destruct Htr as [(? & _)|(_ & Hnone & j & Hj & Hst & Hat & Hmax)]; [lia|].
      destruct (retryDeadLetter_dead qn uuid j Hj) as (_ & Hback & Hgone).
      assert (wellKeyed (snd (retryDeadLetter qn uuid))) as Hwr.
      { unfold retryDeadLetter. rewrite Hj. cbn [snd].
        apply wellKeyed_revive; [exact Hwn | by eapply get_Some_keys|].
        cbn [markRetried id]. destruct Hwn as [Hk _].
        apply Hk, elem_of_app. right. by apply get_Some_elem. }
      pose proof (alone_kept uuid ticks q1 0 Hw1 Hfail1 Htr1 Hal1) as Haln.
      fold qn in Haln.
      destruct (run_fixed ticks q1) as [Hh Ho]. fold qn in Hh, Ho.
      apply (alone_tick _ t uuid 0 Hwr).
      * intros j' Hj'. unfold retryDeadLetter. rewrite Hj. cbn [snd withStores handler].
        rewrite Hh. by apply Hfail1.
      * left. split; [lia|]. split; [exact Hgone|].
        exists (markRetried j). by repeat split.
      * destruct Haln as (Hpn & Hcn & Hon).
        unfold retryDeadLetter. rewrite Hj. cbn [snd withStores processingSet options jobs].
        split; [exact Hpn|]. split; [exact Hcn|].
        intros k j' Hin Hk.
        apply elem_of_set in Hin as [Hin|[-> _]]; [by eapply Hon | done].
      * lia.
Qed.

End WithTypes.

(** *** The queue on concrete jobs: text payloads, handlers without a result *)

Lemma retry_budget_witness :
  let q1 := snd (add outgoingFailing "job-1" 0 "text" "hello" None (Some 3)) in
  Z.of_nat (length (invocations "job-1"
                      (snd (run q1 [tick 100; tick 200; tick 300; tick 400])))) = 3.
Proof.
  cbv zeta.
  assert (wellKeyed outgoingFailing) as Hw by apply create_sound.
  assert ("job-1" ∉ JsMap.keys (jobs outgoingFailing)
                    ++ JsMap.keys (deadLetterQueue outgoingFailing)) as Hfresh.
  { cbn. apply not_elem_of_nil. }
  assert (failsOn outgoingFailing "job-1") as Hfail.
  { intros j _. eexists. reflexivity. }
  destruct (retry_budget outgoingFailing "job-1" 0 "text" "hello" None
              [tick 100; tick 200; tick 300; tick 400] Hw Hfresh Hfail)
    as (_ & _ & _ & Hlive).
  destruct Hlive as [Hn _].
  - reflexivity.
  - cbn. lia.
  - intros k j Hin. cbn in Hin. by apply elem_of_nil in Hin.
  - exact Hn.
Defined.

Lemma mixed_reachable : rtc step outgoing mixed.
Proof.
  unfold mixed. cbv zeta.
  eapply rtc_r; [eapply rtc_r; [eapply rtc_r; [eapply rtc_once|]|]|];
    apply step_add; apply (bool_decide_unpack _); vm_compute; exact I.
Defined.


Lemma active_set_lifecycle_witness :
  let q := fst (processNext mixed (tick 10)) in
  wellKeyed q ∧ deadApart q.
Proof.
  cbv zeta.
  apply (active_set_lifecycle "outgoing" okHandler oneWorker
           (fst (processNext mixed (tick 10)))).
  eapply rtc_r; [apply mixed_reachable | apply step_tick].
Defined.

(** C9, as stated, fails: after the worker step that completes a job, the
    job is still in the active set, with status "completed", and the
    statistics count it there. *)
Lemma completed_job_stays_active :
  let q := fst (processNext
                  (snd (add outgoing "job-1" 0 "text" "hello" None None)) (tick 10)) in
  (fun kv => (fst kv, status (snd kv))) <$> jobs q = [("job-1", completed)]
  ∧ JsMap.keys (deadLetterQueue q) = []
  ∧ stat_completed (getStats q) = 1.
Proof. cbv zeta. repeat split; vm_compute; reflexivity. Qed.

(** The scenario of the specification: a hundred jobs, alternately high and
    low, one worker, a handler that always succeeds.  The handler is called
    on the fifty high jobs first, in their order of arrival, then on the
    fifty low ones. *)
Example alternating_hundred :
  let effects :=
    snd (run (enqueueAlternating 100 outgoing) (tick <$> seqZ 0 100)) in
  snd <$> calledOn effects = replicate 50 high ++ replicate 50 low
  ∧ take 3 (fst <$> calledOn effects) = ["job-0"; "job-2"; "job-4"]
  ∧ take 3 (drop 50 (fst <$> calledOn effects)) = ["job-1"; "job-3"; "job-5"].
Proof. cbv zeta. repeat split; vm_compute; reflexivity. Qed.

End QueueProofs.

(** ** Tool-call interface: registry and history *)

Module McpClientProofs.
Import Json Js Mcp Samples.

Lemma callTool_history (c : McpTestClient) (nm : string) (a : JsonObject)
    (bus : list DomainEvent) :
  client (callTool c nm a bus)
    = pushHistory c nm a (returned (callTool c nm a bus)).
Proof.
  unfold callTool.
  destruct (toolHandlers c !! nm : option ToolHandler) as [h|]; [|reflexivity].
  destruct (h a bus) as [[r|e] bus']; reflexivity.
Qed.

Lemma callEach_cons (c : McpTestClient) (call : ToolCall) (rest : list ToolCall)
    (bus : list DomainEvent) :
  callEach c (call :: rest) bus
    = let o := callTool c (name call) (arguments call) bus in
      (returned o :: fst (fst (callEach (client o) rest (emitted o))),
       snd (fst (callEach (client o) rest (emitted o))),
       snd (callEach (client o) rest (emitted o))).
Proof.
  cbn [callEach]. cbv zeta.
  destruct (callEach _ rest _) as [[results c'] bus']. reflexivity.
Qed.

Lemma callTool_registry (c1 c2 : McpTestClient) (nm : string) (a : JsonObject)
    (bus : list DomainEvent) :
  toolHandlers c1 = toolHandlers c2 →
  returned (callTool c1 nm a bus) = returned (callTool c2 nm a bus)
  ∧ emitted (callTool c1 nm a bus) = emitted (callTool c2 nm a bus)
  ∧ handlerInvoked (callTool c1 nm a bus) = handlerInvoked (callTool c2 nm a bus)
  ∧ toolHandlers (client (callTool c1 nm a bus))
    = toolHandlers (client (callTool c2 nm a bus)).
Proof.
  intros Heq. rewrite !callTool_history. cbn [pushHistory toolHandlers].
  unfold callTool. rewrite Heq.
  destruct (toolHandlers c2 !! nm : option ToolHandler) as [hd|]; [|done].
  destruct (hd a bus) as [[r|e] bus']; done.
Qed.

Lemma callEach_registry (calls : list ToolCall) :
  ∀ c1 c2 bus,
    toolHandlers c1 = toolHandlers c2 →
    fst (fst (callEach c1 calls bus)) = fst (fst (callEach c2 calls bus))
    ∧ snd (callEach c1 calls bus) = snd (callEach c2 calls bus).
Proof.
  induction calls as [|call rest IH]; intros c1 c2 bus Heq; [done|].
  rewrite !callEach_cons. cbv zeta. cbn [fst snd].
  destruct (callTool_registry c1 c2 (name call) (arguments call) bus Heq)
    as (Hr & He & _ & Hc).
  rewrite Hr, He.
  destruct (IH _ _ (emitted (callTool c2 (name call) (arguments call) bus)) Hc)
    as [IH1 IH2].
  by rewrite IH1, IH2.
Qed.

(** X1.  Every call of a script, found or not, failed or not, adds exactly
    one entry to the history: the name and the arguments as given and the
    very result the caller received, in call order; the registry is not
    touched.  The results depend on the registry only: clearing the history
    first changes none of them, and leaves exactly the entries of the
    script. *)
Theorem callEach_history (c : McpTestClient) (calls : list ToolCall)
    (bus : list DomainEvent) :
  let results := fst (fst (callEach c calls bus)) in
  let c' := snd (fst (callEach c calls bus)) in
  let cleared := callEach (clearHistory c) calls bus in
  length results = length calls
  ∧ getCallHistory c' = getCallHistory c ++ zip_with entryOf calls results
  ∧ toolHandlers c' = toolHandlers c
  ∧ fst (fst cleared) = results
  ∧ getCallHistory (snd (fst cleared)) = zip_with entryOf calls results.
Proof.
  cbv zeta.
  assert (Hmain : ∀ calls c bus,
    length (fst (fst (callEach c calls bus))) = length calls
    ∧ callHistory (snd (fst (callEach c calls bus)))
      = callHistory c ++ zip_with entryOf calls (fst (fst (callEach c calls bus)))
    ∧ toolHandlers (snd (fst (callEach c calls bus))) = toolHandlers c).
  { clear. induction calls as [|call rest IH]; intros c bus.
    - cbn. by rewrite app_nil_r.
    - rewrite callEach_cons. cbv zeta. cbn [fst snd length zip_with].
      destruct (IH (client (callTool c (name call) (arguments call) bus))
                   (emitted (callTool c (name call) (arguments call) bus)))
        as (Hl & Hh & Ht).
      rewrite Hl, Hh, Ht, callTool_history. cbn [pushHistory callHistory toolHandlers].
      rewrite <- app_assoc. done. }
  destruct (Hmain calls c bus) as (Hl & Hh & Ht).
  destruct (callEach_registry calls (clearHistory c) c bus eq_refl) as [Hr _].
  destruct (Hmain calls (clearHistory c) bus) as (_ & Hh' & _).
  unfold getCallHistory, clearHistory in *. cbn [callHistory app] in Hh'.
  rewrite Hh', Hr. done.
Qed.

Lemma registerEach_cons (x : string) (names : list string)
    (mk : string -> ToolHandler) (c : McpTestClient) :
  registerEach (x :: names) mk c = registerEach names mk (registerTool x (mk x) c).
Proof. reflexivity. Qed.

Lemma registerEach_lookup (names : list string) (mk : string -> ToolHandler) :
  ∀ c n,
    (toolHandlers (registerEach names mk c) !! n : option ToolHandler)
      = if decide (n ∈ names) then Some (mk n) else toolHandlers c !! n.
Proof.
  induction names as [|x rest IH]; intros c n.
  - cbn. rewrite decide_False; [done|]. apply not_elem_of_nil.
  - rewrite registerEach_cons, IH. cbn [registerTool toolHandlers].
    destruct (decide (n ∈ rest)) as [Hin|Hout].
    + rewrite decide_True; [done|]. by right.
    + destruct (decide (n = x)) as [->|Hne].
      * rewrite decide_True by left. by rewrite lookup_insert_eq.
      * rewrite decide_False.
        -- by rewrite lookup_insert_ne.
        -- intros [?|?]%elem_of_cons; done.
Qed.

Lemma registerEach_history (names : list string) (mk : string -> ToolHandler) :
  ∀ c, callHistory (registerEach names mk c) = callHistory c.
Proof.
  induction names as [|x rest IH]; intros c; [done|].
  by rewrite registerEach_cons, IH.
Qed.

(** What a call of a registered tool comes to. *)
Lemma callTool_registered (c : McpTestClient) (nm : string) (h : ToolHandler)
    (a : JsonObject) (bus : list DomainEvent) :
  (toolHandlers c !! nm : option ToolHandler) = Some h →
  handlerInvoked (callTool c nm a bus) = true
  ∧ emitted (callTool c nm a bus) = snd (h a bus)
  ∧ returned (callTool c nm a bus)
    = match fst (h a bus) with
      | Resolved r => r
      | Rejected e => errorResult (message e) "INTERNAL_ERROR"
      end.
Proof.
  intros Hh. unfold callTool. rewrite Hh.
  destruct (h a bus) as [[r|e] bus']; done.
Qed.

(** X2.  Registration and lookup round trip: after [registerTool name h]
    the client has the tool, a call of it runs [h] on the arguments and the
    bus as given and returns what [h] resolves to (or the INTERNAL_ERROR
    result made from the message of its rejection); every other name
    answers as before; registering a name again replaces its handler; the
    history is not touched. *)
Theorem registerTool_round_trip (c : McpTestClient) (nm : string) (h : ToolHandler) :
  let c' := registerTool nm h c in
  hasToolOf c' nm = true
  ∧ (∀ a bus,
       handlerInvoked (callTool c' nm a bus) = true
       ∧ emitted (callTool c' nm a bus) = snd (h a bus)
       ∧ returned (callTool c' nm a bus)
         = match fst (h a bus) with
           | Resolved r => r
           | Rejected e => errorResult (message e) "INTERNAL_ERROR"
           end)
  ∧ (∀ other a bus, other ≠ nm →
       hasToolOf c' other = hasToolOf c other
       ∧ returned (callTool c' other a bus) = returned (callTool c other a bus)
       ∧ emitted (callTool c' other a bus) = emitted (callTool c other a bus)
       ∧ handlerInvoked (callTool c' other a bus)
         = handlerInvoked (callTool c other a bus))
  ∧ (∀ h0, registerTool nm h (registerTool nm h0 c) = c')
  ∧ getCallHistory c' = getCallHistory c.
Proof.
  cbv zeta. repeat split.
  - unfold hasToolOf, registerTool. cbn [toolHandlers].
    apply bool_decide_eq_true. rewrite lookup_insert_eq. by eexists.
  - apply (callTool_registered _ nm h). cbn. by rewrite lookup_insert_eq.
  - apply (callTool_registered _ nm h). cbn. by rewrite lookup_insert_eq.
  - apply (callTool_registered _ nm h). cbn. by rewrite lookup_insert_eq.
  - unfold hasToolOf, registerTool. cbn [toolHandlers].
    by rewrite lookup_insert_ne.
  - unfold callTool, registerTool. cbn [toolHandlers].
    rewrite lookup_insert_ne by done.
    destruct (toolHandlers c !! other : option ToolHandler) as [hd|]; [|done].
    destruct (hd a bus) as [[r|e] bus']; done.
  - unfold callTool, registerTool. cbn [toolHandlers].
    rewrite lookup_insert_ne by done.
    destruct (toolHandlers c !! other : option ToolHandler) as [hd|]; [|done].
    destruct (hd a bus) as [[r|e] bus']; done.
  - unfold callTool, registerTool. cbn [toolHandlers].
    rewrite lookup_insert_ne by done.
    destruct (toolHandlers c !! other : option ToolHandler) as [hd|]; [|done].
    destruct (hd a bus) as [[r|e] bus']; done.
  - intros h0. unfold registerTool. cbn [toolHandlers callHistory].
    by rewrite insert_insert_eq.
Qed.

(** X3.  The set-up [names.forEach(registerTool)]: afterwards a name is
    registered exactly when it is one of [names] or was registered before.
    Run on a new client with the allowlist, it registers allowlisted names
    only and none of the denylist, whatever handlers it is given; every
    allowlisted name then reaches its own handler, and every denylisted
    name gets the TOOL_NOT_FOUND result without a handler being called or
    an event reaching the bus. *)
Theorem registerEach_allowlist (mk : string -> ToolHandler) :
  (∀ names c n,
     hasToolOf (registerEach names mk c) n = true
     ↔ n ∈ names ∨ hasToolOf c n = true)
  ∧ only_allowlisted (registerEach MCP_ALLOWLIST mk new)
  ∧ (∀ n a bus, n ∈ MCP_ALLOWLIST →
       let o := callTool (registerEach MCP_ALLOWLIST mk new) n a bus in
       handlerInvoked o = true ∧ emitted o = snd (mk n a bus)
       ∧ returned o = match fst (mk n a bus) with
                      | Resolved r => r
                      | Rejected e => errorResult (message e) "INTERNAL_ERROR"
                      end)
  ∧ (∀ d a bus, d ∈ MCP_DENYLIST →
       let o := callTool (registerEach MCP_ALLOWLIST mk new) d a bus in
       hasToolOf (registerEach MCP_ALLOWLIST mk new) d = false
       ∧ returned o = errorResult "Tool not found" "TOOL_NOT_FOUND"
       ∧ handlerInvoked o = false ∧ emitted o = bus).
Proof.
  assert (Hdom : ∀ n, is_Some (toolHandlers (registerEach MCP_ALLOWLIST mk new) !! n)
                      ↔ n ∈ MCP_ALLOWLIST).
  { intros n.
    pose proof (registerEach_lookup MCP_ALLOWLIST mk new n) as Hl.
    cbv beta in Hl.
    destruct (decide (n ∈ MCP_ALLOWLIST)) as [Hin|Hout].
    - split; [done|]. intros _. rewrite Hl. by eexists.
    - split; [|done]. intros [h Hh]. rewrite Hl in Hh. cbn in Hh.
      by rewrite lookup_empty in Hh. }
  repeat split.
  - unfold hasToolOf. rewrite !bool_decide_eq_true.
    pose proof (registerEach_lookup names mk c n) as Hl. cbv beta in Hl.
    intros [h Hh]. rewrite Hl in Hh.
    destruct (decide (n ∈ names)); [by left|]. right. by eexists.
  - unfold hasToolOf. rewrite !bool_decide_eq_true.
    pose proof (registerEach_lookup names mk c n) as Hl. cbv beta in Hl.
    intros [Hin|Hc]; rewrite Hl.
    + rewrite decide_True by done. by eexists.
    + destruct (decide (n ∈ names)); [by eexists | done].
  - unfold only_allowlisted. intros n Hn.
    apply elem_of_dom in Hn. apply Hdom in Hn. by apply elem_of_list_to_set.
  - apply (callTool_registered _ n (mk n)).
    rewrite (registerEach_lookup MCP_ALLOWLIST mk new n). by rewrite decide_True.
  - apply (callTool_registered _ n (mk n)).
    rewrite (registerEach_lookup MCP_ALLOWLIST mk new n). by rewrite decide_True.
  - apply (callTool_registered _ n (mk n)).
    rewrite (registerEach_lookup MCP_ALLOWLIST mk new n). by rewrite decide_True.
  - unfold hasToolOf. apply bool_decide_eq_false. rewrite Hdom.
    intros Hin. pose proof McpProofs.denylist_disjoint_allowlist as Hall.
    rewrite Forall_forall in Hall. exact (Hall d H Hin).
  - rewrite McpProofs.callTool_no_handler; [done|].
    destruct (toolHandlers _ !! d) eqn:Hl; [|done].
    exfalso. assert (d ∈ MCP_ALLOWLIST) as Hin by (apply Hdom; by eexists).
    pose proof McpProofs.denylist_disjoint_allowlist as Hall.
    rewrite Forall_forall in Hall. exact (Hall d H Hin).
  - rewrite McpProofs.callTool_no_handler; [done|].
    destruct (toolHandlers _ !! d) eqn:Hl; [|done].
    exfalso. assert (d ∈ MCP_ALLOWLIST) as Hin by (apply Hdom; by eexists).
    pose proof McpProofs.denylist_disjoint_allowlist as Hall.
    rewrite Forall_forall in Hall. exact (Hall d H Hin).
  - rewrite McpProofs.callTool_no_handler; [done|].
    destruct (toolHandlers _ !! d) eqn:Hl; [|done].
    exfalso. assert (d ∈ MCP_ALLOWLIST) as Hin by (apply Hdom; by eexists).
    pose proof McpProofs.denylist_disjoint_allowlist as Hall.
    rewrite Forall_forall in Hall. exact (Hall d H Hin).
Qed.

End McpClientProofs.

(** ** Circuit breaker: invariants, log and scripts *)

Module BreakerLifeProofs.
Import ErrorCodes Breaker Samples BreakerProofs.

Section WithTypes.
Context {T E : Type}.
Implicit Types (b : CircuitBreaker) (c : Call (T:=T) (E:=E))
  (calls : list (Call (T:=T) (E:=E))) (fn : FnOutcome T E).

Lemma transitionTo_lastFailureTime b (s : CircuitState) :
  lastFailureTime (transitionTo b s) = lastFailureTime b.
Proof. by destruct s. Qed.

Lemma executeAll_cons b c calls :
  executeAll b (c :: calls)
    = executeAll (after (execute b (at_ c) (fn_ c) (settledAt_ c))) calls.
Proof. reflexivity. Qed.

Lemma sound_create (o : CircuitBreakerOptions) :
  1 ≤ failureThreshold o → sound (create o).
Proof. intros Ht. unfold sound, create. cbn. repeat split; (lia || done). Qed.

Lemma sound_execute b (now : Z) fn (t : Z) :
  1 ≤ failureThreshold (options b) → 1 ≤ halfOpenRequests (options b) →
  sound b → sound (after (execute b now fn t)).
Proof.
  intros Ht Hh (Hf & Hs & Hc & Hho & Hop).
  unfold execute, runFn, onSuccess, onFailure, sound.
  destruct (state b) eqn:Hst; destruct fn as [v|e];
    cbn [transitionTo state failures successes options lastFailureTime logged after];
    repeat match goal with
    | |- context [?x <=? ?y] => destruct (Z.leb_spec x y)
    end;
    cbn [transitionTo state failures successes options lastFailureTime logged after];
    try rewrite Hst;
    cbn [transitionTo state failures successes options lastFailureTime logged after];
    repeat split; intros; try discriminate; try lia;
    try (destruct Hc as [? ?]; [reflexivity|]; lia);
    try (destruct Hho as [? ?]; [reflexivity|]; lia);
    try (specialize (Hop eq_refl); lia).
Qed.

Lemma sound_reset b : 1 ≤ failureThreshold (options b) → sound (reset b).
Proof.
  intros Ht. unfold sound, reset, transitionTo. cbn.
  repeat split; intros; try discriminate; lia.
Qed.

Lemma apply_options b (op : Op T E) : options (apply b op) = options b.
Proof.
  destruct op as [c|]; cbn [apply].
  - apply execute_options.
  - apply transitionTo_options.
Qed.

Lemma applyAll_sound (ops : list (Op T E)) :
  ∀ b, 1 ≤ failureThreshold (options b) → 1 ≤ halfOpenRequests (options b) →
       sound b →
       sound (applyAll b ops) ∧ options (applyAll b ops) = options b.
Proof.
  induction ops as [|op rest IH]; intros b Ht Hh Hb; [done|].
  unfold applyAll in *. cbn [foldl].
  assert (Ho := apply_options b op).
  destruct (IH (apply b op)) as [IH1 IH2]; try (rewrite Ho; assumption).
  - destruct op as [c|]; cbn [apply].
    + by apply sound_execute.
    + by apply sound_reset.
  - split; [exact IH1|]. by rewrite IH2.
Qed.

Lemma execute_gate b (now : Z) fn (t : Z) :
  execute b now fn t
    = match gate b now with
      | Some b' => runFn b' fn t
      | None => {| outcome := ThrewCircuitOpen (circuitOpen (name (options b)));
                   after := b; fnInvoked := false |}
      end.
Proof.
  unfold execute, gate. destruct (state b); try reflexivity.
  by destruct (_ <=? _).
Qed.

(** A call with no other in between is its gate followed by its
    settling. *)
Lemma execute_parts b c :
  after (execute b (at_ c) (fn_ c) (settledAt_ c)) = parts b (partsOf b c).
Proof.
  rewrite execute_gate. unfold partsOf, parts.
  destruct (gate b (at_ c)) as [b'|] eqn:Hg; cbn [foldl part]; rewrite Hg.
  - unfold runFn. by destruct (fn_ c).
  - reflexivity.
Qed.

Lemma parts_app b (ps1 ps2 : list Part) :
  parts b (ps1 ++ ps2) = parts (parts b ps1) ps2.
Proof. unfold parts. apply foldl_app. Qed.

Lemma applyAll_parts (ops : list (Op T E)) :
  ∀ b, ∃ ps, applyAll b ops = parts b ps.
Proof.
  induction ops as [|op rest IH]; intros b; [by exists []|].
  unfold applyAll in *. cbn [foldl].
  destruct (IH (apply b op)) as [ps Hps]. rewrite Hps.
  destruct op as [c|]; cbn [apply].
  - exists (partsOf b c ++ ps). by rewrite parts_app, execute_parts.
  - exists (Resets :: ps). reflexivity.
Qed.

Lemma part_options b (p : Part) : options (part b p) = options b.
Proof.
  destruct p as [now| |t|]; cbn [part].
  - unfold gate. destruct (state b); try reflexivity.
    destruct (_ <=? _); [apply transitionTo_options | reflexivity].
  - apply onSuccess_options.
  - apply onFailure_options.
  - apply transitionTo_options.
Qed.

Lemma steady_part b (p : Part) :
  1 ≤ failureThreshold (options b) → 1 ≤ halfOpenRequests (options b) →
  steady b → steady (part b p).
Proof.
  intros Ht Hh (Hf & Hs & Hc & Hho).
  destruct p as [now| |t|]; unfold part, gate, reset, onSuccess, onFailure, steady;
    destruct (state b) eqn:Hst;
    cbn [transitionTo state failures successes options lastFailureTime logged];
    repeat match goal with
    | |- context [?x <=? ?y] => destruct (Z.leb_spec x y)
    end;
    cbn [transitionTo state failures successes options lastFailureTime logged];
    rewrite ?Hst;
    repeat split; intros; try discriminate; try lia;
    try (destruct Hc as [? ?]; [reflexivity|]; lia);
    try (specialize (Hho eq_refl); lia).
Qed.

Lemma parts_steady (ps : list Part) :
  ∀ b, 1 ≤ failureThreshold (options b) → 1 ≤ halfOpenRequests (options b) →
       steady b → steady (parts b ps) ∧ options (parts b ps) = options b.
Proof.
  induction ps as [|p rest IH]; intros b Ht Hh Hb; [done|].
  unfold parts in *. cbn [foldl].
  assert (Ho := part_options b p).
  destruct (IH (part b p)) as [IH1 IH2]; try (rewrite Ho; assumption).
  - by apply steady_part.
  - split; [exact IH1|]. by rewrite IH2.
Qed.

Lemma failing_rounds (n : nat) :
  ∀ b, state b = CLOSED →
       failures b + Z.of_nat n < failureThreshold (options b) →
       state (parts b (concat (replicate n [Enters 0; Fails 0]))) = CLOSED
       ∧ failures (parts b (concat (replicate n [Enters 0; Fails 0])))
         = failures b + Z.of_nat n
       ∧ options (parts b (concat (replicate n [Enters 0; Fails 0]))) = options b.
Proof.
  induction n as [|n IH]; intros b Hst Hlt.
  - cbn. repeat split; (done || lia).
  - cbn [replicate concat]. rewrite parts_app.
    set (b1 := parts b [Enters 0; Fails 0]).
    assert (H1 : state b1 = CLOSED ∧ failures b1 = failures b + 1
                 ∧ options b1 = options b).
    { unfold b1, parts. cbn [foldl part]. unfold gate, onFailure. rewrite Hst.
      cbn [state failures options].
      destruct (Z.leb_spec (failureThreshold (options b)) (failures b + 1)); [lia|].
      rewrite ?Hst. by cbn. }
    destruct H1 as (Hs1 & Hf1 & Ho1).
    destruct (IH b1 Hs1) as (IHs & IHf & IHo); [rewrite Hf1, Ho1; lia|].
    rewrite IHs, IHf, IHo, Hf1, Ho1. repeat split; (done || lia).
Qed.

(** X4.  What [getStats] shows of a breaker created with a threshold and
    a trial quota of at least one.  However the parts of calls (entering
    the gate, settling with a success or with a failure) and resets are
    interleaved, calls overlapping or not: the counters are never negative,
    a closed breaker shows fewer failures than the threshold and no trial
    successes, and a half-open one fewer trial successes than the quota.
    When every call settles before the next enters, an open or half-open
    breaker moreover shows at least one failure.  That does not hold when
    calls overlap: after [failureThreshold - 1] failures, two calls that both
    enter, the first failing and the second succeeding, leave the breaker
    open with no failure on record. *)
Theorem breaker_invariants (o : CircuitBreakerOptions) :
  1 ≤ failureThreshold o →
  1 ≤ halfOpenRequests o →
  (∀ ps : list Part,
     let s := getStats (parts (create o) ps) in
     stats_name s = name o
     ∧ 0 ≤ stats_failures s ∧ 0 ≤ stats_successes s
     ∧ (stats_state s = CLOSED →
          stats_failures s < failureThreshold o ∧ stats_successes s = 0)
     ∧ (stats_state s = HALF_OPEN → stats_successes s < halfOpenRequests o))
  ∧ (∀ ops : list (Op T E),
       let s := getStats (applyAll (create o) ops) in
       (∃ ps, applyAll (create o) ops = parts (create o) ps)
       ∧ (stats_state s = HALF_OPEN → 1 ≤ stats_failures s)
       ∧ (stats_state s = OPEN → 1 ≤ stats_failures s))
  ∧ (let s := getStats (parts (create o)
                          (failThenOverlap (Z.to_nat (failureThreshold o - 1)))) in
     stats_state s = OPEN ∧ stats_failures s = 0).
Proof.
  intros Ht Hh. split; [|split].
  - intros ps.
    assert (Hst : steady (create o))
      by (unfold steady, create; cbn; repeat split; (lia || done)).
    destruct (parts_steady ps (create o) Ht Hh Hst) as [(Hf & Hs & Hc & Hho) Ho].
    cbv zeta. unfold getStats.
    cbn [stats_name stats_state stats_failures stats_successes].
    rewrite Ho in *. cbn [create options] in *. done.
  - intros ops.
    destruct (applyAll_sound ops (create o) Ht Hh (sound_create o Ht))
      as [(_ & _ & _ & Hho & Hop) _].
    cbv zeta. unfold getStats. cbn [stats_state stats_failures].
    split; [apply applyAll_parts|]. split; [intros H; by apply Hho | exact Hop].
  - cbv zeta. unfold failThenOverlap. rewrite parts_app.
    destruct (failing_rounds (Z.to_nat (failureThreshold o - 1)) (create o) eq_refl)
      as (Hs & Hf & Ho); [cbn; lia|].
    set (b := parts (create o) _) in *.
    cbn [create failures options] in Hf, Ho.
    assert (Hg : gate b 0 = Some b) by (unfold gate; by rewrite Hs).
    unfold getStats, parts. cbn [foldl part stats_state stats_failures].
    rewrite Hg. cbv beta iota. rewrite Hg. cbv beta iota.
    assert (Hopen : state (onFailure b 0) = OPEN).
    { unfold onFailure. cbn [state failures options]. rewrite Hs, Ho, Hf.
      destruct (Z.leb_spec (failureThreshold o)
                  (0 + Z.of_nat (Z.to_nat (failureThreshold o - 1)) + 1)); [|lia].
      reflexivity. }
    unfold onSuccess. rewrite Hopen. cbn [state failures]. done.
Qed.

Lemma replay_app (l1 l2 : list StateChange) :
  ∀ s s', replay s l1 = Some s' → replay s (l1 ++ l2) = replay s' l2.
Proof.
  induction l1 as [|line rest IH]; intros s s' H.
  - cbn in *. by injection H as ->.
  - cbn [replay app] in *. destruct (decide (from line = s)); [|done].
    by apply IH.
Qed.

Lemma execute_log b (now : Z) fn (t : Z) :
  ∃ new, logged (after (execute b now fn t)) = logged b ++ new
    ∧ replay (state b) new = Some (state (after (execute b now fn t)))
    ∧ Forall (fun line => (from line, to line) ∈ executeTransitions
                          ∧ breaker line = name (options b)) new.
Proof.
  unfold execute, runFn, onSuccess, onFailure.
  destruct (state b) eqn:Hst; destruct fn as [v|e];
    cbn [transitionTo state failures successes options lastFailureTime logged after];
    repeat match goal with
    | |- context [?x <=? ?y] => destruct (Z.leb_spec x y)
    end;
    cbn [transitionTo state failures successes options lastFailureTime logged after];
    try rewrite Hst;
    rewrite <- ?app_assoc; cbn [app];
    try (exists []; rewrite app_nil_r; cbn; by repeat split);
    (eexists; split; [reflexivity|]; split; [reflexivity|]);
    repeat constructor; apply (bool_decide_unpack _); vm_compute; exact I.
Qed.

Lemma executeAll_grows b calls :
  ∃ new, logged (executeAll b calls) = logged b ++ new.
Proof.
  revert b. induction calls as [|c rest IH]; intros b.
  - exists []. cbn. by rewrite app_nil_r.
  - rewrite executeAll_cons.
    destruct (execute_log b (at_ c) (fn_ c) (settledAt_ c)) as (n1 & H1 & _).
    destruct (IH (after (execute b (at_ c) (fn_ c) (settledAt_ c)))) as (n2 & H2).
    exists (n1 ++ n2). by rewrite H2, H1, app_assoc.
Qed.

Lemma part_log b (p : Part) :
  ∃ new, logged (part b p) = logged b ++ new
    ∧ replay (state b) new = Some (state (part b p))
    ∧ Forall (fun line => breaker line = name (options b)) new
    ∧ (p ≠ Resets →
       Forall (fun line => (from line, to line) ∈ overlapTransitions) new).
Proof.
  destruct p as [now| |t|]; unfold part, gate, reset, onSuccess, onFailure;
    destruct (state b) eqn:Hst;
    cbn [transitionTo state failures successes options lastFailureTime logged];
    repeat match goal with
    | |- context [?x <=? ?y] => destruct (Z.leb_spec x y)
    end;
    cbn [transitionTo state failures successes options lastFailureTime logged];
    rewrite ?Hst;
    try (exists []; rewrite app_nil_r; cbn; by repeat split);
    (eexists; split; [reflexivity|]; split; [cbn; by rewrite decide_True|]);
    (split; [by repeat constructor|]);
    intros Hne; try done;
    repeat constructor; apply (bool_decide_unpack _); vm_compute; exact I.
Qed.

Lemma parts_log (ps : list Part) :
  ∀ b, ∃ new, logged (parts b ps) = logged b ++ new
    ∧ replay (state b) new = Some (state (parts b ps))
    ∧ Forall (fun line => breaker line = name (options b)) new
    ∧ (Resets ∉ ps →
       Forall (fun line => (from line, to line) ∈ overlapTransitions) new).
Proof.
  induction ps as [|p rest IH]; intros b.
  - exists []. cbn. rewrite app_nil_r. by repeat split.
  - unfold parts in *. cbn [foldl].
    destruct (part_log b p) as (n1 & H1 & R1 & N1 & F1).
    destruct (IH (part b p)) as (n2 & H2 & R2 & N2 & F2).
    exists (n1 ++ n2). split; [|split; [|split]].
    + by rewrite H2, H1, app_assoc.
    + by rewrite (replay_app _ _ _ _ R1).
    + apply Forall_app. split; [exact N1|]. by rewrite part_options in N2.
    + intros Hno. apply not_elem_of_cons in Hno as [Hp Hrest].
      apply Forall_app. split; [apply F1; congruence | by apply F2].
Qed.

(** X5.  The log is a faithful record, whether calls overlap or not: the
    lines that any interleaving of the parts of calls (entering the gate,
    settling with a success or a failure) and of resets adds start in the
    state the breaker had, each leaves the state the one before entered,
    the last enters the state the breaker ends in, and every line carries
    the breaker's name.  Without resets the lines are among five state
    changes: closed to open, open to half-open, half-open to open,
    half-open to closed, and open to open, which a failure logs when it
    settles on a breaker another call has opened meanwhile.  When every
    call settles before the next enters, only the first four occur. *)
Theorem log_replays b :
  (∀ ps : list Part,
     ∃ new,
       logged (parts b ps) = logged b ++ new
       ∧ replay (getState b) new = Some (getState (parts b ps))
       ∧ Forall (fun line => breaker line = name (options b)) new
       ∧ (Resets ∉ ps →
          Forall (fun line => (from line, to line) ∈ overlapTransitions) new))
  ∧ (∀ calls,
       (∃ ps, (Resets ∉ ps) ∧ executeAll b calls = parts b ps)
       ∧ ∃ new,
           logged (executeAll b calls) = logged b ++ new
           ∧ replay (getState b) new = Some (getState (executeAll b calls))
           ∧ Forall (fun line => (from line, to line) ∈ executeTransitions
                                 ∧ breaker line = name (options b)) new)
  ∧ (∃ ps, (Resets ∉ ps)
           ∧ ∃ line, line ∈ logged (parts redis ps)
                     ∧ from line = OPEN ∧ to line = OPEN).
Proof.
  unfold getState. split; [|split].
  - intros ps. apply parts_log.
  - intros calls. split.
    + revert b. induction calls as [|c rest IH]; intros b.
      * exists []. split; [apply not_elem_of_nil | reflexivity].
      * rewrite executeAll_cons.
        destruct (IH (after (execute b (at_ c) (fn_ c) (settledAt_ c))))
          as (ps & Hno & Hps).
        exists (partsOf b c ++ ps). split.
        -- intros Hin. apply elem_of_app in Hin as [Hin|Hin]; [|done].
           unfold partsOf in Hin.
           destruct (gate b (at_ c)); destruct (fn_ c);
             repeat (apply elem_of_cons in Hin as [Hin|Hin]; [discriminate|]);
             by apply elem_of_nil in Hin.
        -- by rewrite parts_app, <- execute_parts.
    + revert b. induction calls as [|c rest IH]; intros b.
      * exists []. cbn. rewrite app_nil_r. by repeat split.
      * rewrite executeAll_cons.
        destruct (execute_log b (at_ c) (fn_ c) (settledAt_ c)) as (n1 & H1 & R1 & F1).
        destruct (IH (after (execute b (at_ c) (fn_ c) (settledAt_ c))))
          as (n2 & H2 & R2 & F2).
        exists (n1 ++ n2). split; [|split].
        -- by rewrite H2, H1, app_assoc.
        -- by rewrite (replay_app _ _ _ _ R1).
        -- apply Forall_app. split; [exact F1|].
           by rewrite execute_options in F2.
  - exists [Enters 1; Fails 1; Enters 2; Fails 2; Enters 3; Enters 3; Fails 4; Fails 5].
    split.
    + intros Hin.
      repeat (apply elem_of_cons in Hin as [Hin|Hin]; [discriminate|]).
      by apply elem_of_nil in Hin.
    + exists {| breaker := "redis"; from := OPEN; to := OPEN |}.
      split; [|done]. vm_compute. right. left.
Qed.

(** X6.  The breaker is transparent when it lets a call through: the
    caller gets the function's own value or the function's own error.  The
    only error it adds is the circuit-open error, raised without calling the
    function and without touching the breaker, and only while the breaker
    is open and the reset timeout has not elapsed. *)
Theorem execute_transparent b (now : Z) fn (t : Z) :
  let r := execute b now fn t in
  (fnInvoked r = true →
     outcome r = match fn with
                 | FnReturns v => Returned v
                 | FnThrows e => Rethrown e
                 end)
  ∧ (fnInvoked r = false →
       outcome r = ThrewCircuitOpen (circuitOpen (name (options b)))
       ∧ after r = b
       ∧ getState b = OPEN
       ∧ now - lastFailureTime b < resetTimeout (options b))
  ∧ (getState b ≠ OPEN → fnInvoked r = true).
Proof.
  cbv zeta. unfold execute, runFn, getState.
  destruct (state b) eqn:Hst;
    repeat match goal with
    | |- context [?x <=? ?y] => destruct (Z.leb_spec x y)
    end;
    destruct fn as [v|e]; cbn [fnInvoked outcome after];
    repeat split; intros; try done; try lia.
Qed.

Lemma longestFailureRun_ge calls : ∀ cur, cur ≤ longestFailureRun cur calls.
Proof.
  induction calls as [|c rest IH]; intros cur; cbn [longestFailureRun]; [lia|].
  destruct (fn_ c); [lia|]. specialize (IH (cur + 1)). lia.
Qed.

Lemma closed_step b c :
  state b = CLOSED →
  let b' := after (execute b (at_ c) (fn_ c) (settledAt_ c)) in
  options b' = options b
  ∧ match fn_ c with
    | FnReturns _ => state b' = CLOSED ∧ failures b' = 0 ∧ logged b' = logged b
    | FnThrows _ =>
        failures b' = failures b + 1
        ∧ if failureThreshold (options b) <=? failures b + 1
          then state b' = OPEN
               ∧ logged b' = logged b ++ [ {| breaker := name (options b);
                                              from := CLOSED; to := OPEN |} ]
          else state b' = CLOSED ∧ logged b' = logged b
    end.
Proof.
  intros Hst. cbv zeta. split; [apply execute_options|].
  unfold execute, runFn, onSuccess, onFailure. rewrite Hst.
  destruct (fn_ c) as [v|e]; cbn [after state failures options].
  - rewrite ?Hst. done.
  - rewrite ?Hst.
    destruct (Z.leb_spec (failureThreshold (options b)) (failures b + 1));
      cbn [transitionTo state failures logged options]; rewrite ?Hst; done.
Qed.

(** X7.  A success in the closed state starts the count of failures
    afresh, so only consecutive failures open the breaker.  For a closed
    breaker below its threshold: if the script never reaches a run of
    [failureThreshold] failures in a row (counting the failures already on
    record into the first run), the breaker stays closed and logs nothing;
    if it does, the breaker opens, and the first line it logs is the change
    from closed to open. *)
Theorem opens_on_consecutive_failures b calls :
  state b = CLOSED →
  0 ≤ failures b < failureThreshold (options b) →
  (longestFailureRun (failures b) calls < failureThreshold (options b) →
     getState (executeAll b calls) = CLOSED
     ∧ logged (executeAll b calls) = logged b
     ∧ failures (executeAll b calls) ≤ longestFailureRun (failures b) calls)
  ∧ (failureThreshold (options b) ≤ longestFailureRun (failures b) calls →
     ∃ more,
       logged (executeAll b calls)
         = logged b ++ {| breaker := name (options b); from := CLOSED; to := OPEN |}
                       :: more).
Proof.
  unfold getState. revert b.
  induction calls as [|c rest IH]; intros b Hst Hf.
  - cbn [longestFailureRun executeAll]. split; [intros _; repeat split; (done || lia)|].
    intros; lia.
  - rewrite executeAll_cons. cbn [longestFailureRun].
    destruct (closed_step b c Hst) as [Ho Hstep]. cbv zeta in Ho, Hstep.
    set (b1 := after (execute b (at_ c) (fn_ c) (settledAt_ c))) in *.
    destruct (fn_ c) as [v|e].
    + destruct Hstep as (Hs1 & Hf1 & Hl1).
      destruct (IH b1) as [IHa IHb]; [done | rewrite Hf1, Ho; lia |].
      rewrite Ho, Hf1, Hl1 in *. split.
      * intros Hlt. destruct IHa as (? & ? & ?); [lia|]. repeat split; (done || lia).
      * intros Hge. apply IHb. lia.
    + destruct Hstep as [Hf1 Hstep].
      pose proof (longestFailureRun_ge rest (failures b + 1)) as Hmono.
      destruct (Z.leb_spec (failureThreshold (options b)) (failures b + 1)) as [Hopen|Hbelow].
      * destruct Hstep as [Hs1 Hl1]. split; [intros; lia|]. intros _.
        destruct (executeAll_grows b1 rest) as (new & Hnew).
        exists new. rewrite Hnew, Hl1, <- app_assoc. done.
      * destruct Hstep as [Hs1 Hl1].
        destruct (IH b1) as [IHa IHb]; [done | rewrite Hf1, Ho; lia |].
        rewrite Ho, Hf1, Hl1 in *. split; [exact IHa | exact IHb].
Qed.

(** X8.  While a breaker is open and the reset timeout has not elapsed,
    calls change nothing at all: however many arrive, none reaches the
    function, none is counted, and the time of the last failure stands, so
    rejected calls do not put off the moment the breaker tries again. *)
Theorem open_period b calls :
  state b = OPEN →
  Forall (fun c => at_ c - lastFailureTime b < resetTimeout (options b)) calls →
  executeAll b calls = b
  ∧ getStats (executeAll b calls) = getStats b
  ∧ Forall (fun c =>
              let r := execute b (at_ c) (fn_ c) (settledAt_ c) in
              fnInvoked r = false
              ∧ outcome r = ThrewCircuitOpen (circuitOpen (name (options b)))) calls.
Proof.
  intros Hst Hall.
  assert (Hsame : executeAll b calls = b).
  { induction Hall as [|c rest Hc Hrest IH]; [done|].
    rewrite executeAll_cons, open_rejects by done. exact IH. }
  rewrite Hsame. repeat split.
  eapply Forall_impl; [exact Hall|]. cbn. intros c Hc.
  by rewrite open_rejects.
Qed.

Lemma half_open_closes calls :
  ∀ b, state b = HALF_OPEN → Forall succeeds calls → calls ≠ [] →
       successes b + Z.of_nat (length calls) = halfOpenRequests (options b) →
       executeAll b calls
         = {| state := CLOSED; failures := 0; successes := 0;
              lastFailureTime := lastFailureTime b; options := options b;
              logged := logged b ++ [ {| breaker := name (options b);
                                         from := HALF_OPEN; to := CLOSED |} ] |}.
Proof.
  induction calls as [|c rest IH]; intros b Hst Hall Hne Hlen; [done|].
  apply Forall_cons in Hall as [[v Hv] Hrest].
  rewrite executeAll_cons, Hv.
  unfold execute, runFn, onSuccess. rewrite Hst. cbn [after successes options].
  destruct rest as [|c2 rest].
  - cbn [length] in Hlen.
    destruct (Z.leb_spec (halfOpenRequests (options b)) (successes b + 1)); [|lia].
    cbn [executeAll transitionTo state lastFailureTime options logged]. by rewrite ?Hst.
  - cbn [length] in Hlen.
    destruct (Z.leb_spec (halfOpenRequests (options b)) (successes b + 1)); [lia|].
    rewrite IH; cbn [state successes options lastFailureTime logged length];
      try done; lia.
Qed.

(** X9.  A full recovery: an open breaker whose reset timeout has elapsed
    lets the next call through as the first trial, and a script of exactly
    [halfOpenRequests] successful calls closes it.  The breaker ends closed
    with both counters at zero; the log gains exactly two lines, open to
    half-open and half-open to closed.  The later trials are let through
    whatever the clock says. *)
Theorem recovery_cycle b c calls :
  state b = OPEN →
  resetTimeout (options b) ≤ at_ c - lastFailureTime b →
  Forall succeeds (c :: calls) →
  Z.of_nat (length (c :: calls)) = halfOpenRequests (options b) →
  let b' := executeAll b (c :: calls) in
  getStats b' = {| stats_name := name (options b); stats_state := CLOSED;
                   stats_failures := 0; stats_successes := 0 |}
  ∧ logged b'
    = logged b ++ [ {| breaker := name (options b); from := OPEN; to := HALF_OPEN |};
                    {| breaker := name (options b); from := HALF_OPEN; to := CLOSED |} ]
  ∧ lastFailureTime b' = lastFailureTime b.
Proof.
  intros Hst Htime Hall Hlen. cbv zeta.
  assert (Hstep : executeAll b (c :: calls)
                  = executeAll (transitionTo b HALF_OPEN) (c :: calls)).
  { rewrite !executeAll_cons. f_equal. f_equal.
    rewrite open_probes by done.
    unfold execute. by rewrite transitionTo_state. }
  rewrite Hstep, half_open_closes; try done.
  unfold getStats.
  cbn [state failures successes options logged lastFailureTime
       stats_name stats_state stats_failures stats_successes].
  rewrite transitionTo_options, transitionTo_logged, transitionTo_lastFailureTime, Hst.
  rewrite <- app_assoc. done.
Qed.

End WithTypes.

Lemma breaker_invariants_witness :
  let s := getStats (parts redis
                       [Enters 100; Enters 101; Fails 102; Fails 103; Enters 104;
                        Resets; Fails 105; Enters 106; Succeeds]) in
  stats_state s = CLOSED ∧ stats_failures s = 0 ∧ stats_failures s < 3.
Proof.
  assert (H1 : 1 ≤ failureThreshold (options redis)) by (cbn; lia).
  assert (H2 : 1 ≤ halfOpenRequests (options redis)) by (cbn; lia).
  pose proof (proj1 (breaker_invariants (T:=unit) (E:=string) (options redis) H1 H2)
                [Enters 100; Enters 101; Fails 102; Fails 103; Enters 104;
                 Resets; Fails 105; Enters 106; Succeeds])
    as (_ & _ & _ & Hc & _).
  cbv zeta. split; [reflexivity|]. split; [reflexivity|].
  exact (proj1 (Hc eq_refl)).
Defined.

Lemma opens_on_consecutive_failures_witness :
  getState (executeAll redis
              [failing 100; failing 200; succeeding 300; failing 400; failing 500])
    = CLOSED.
Proof.
  refine (proj1 (proj1 (opens_on_consecutive_failures redis
            [failing 100; failing 200; succeeding 300; failing 400; failing 500]
            eq_refl _) _)).
  - cbn. lia.
  - vm_compute. reflexivity.
Defined.

Lemma open_period_witness :
  let opened := executeAll redis [failing 100; failing 200; failing 300] in
  executeAll opened [succeeding 400; failing 5000; succeeding 10299] = opened.
Proof.
  refine (proj1 (open_period
            (executeAll redis [failing 100; failing 200; failing 300])
            [succeeding 400; failing 5000; succeeding 10299] eq_refl _)).
  apply (bool_decide_unpack _). vm_compute. exact I.
Defined.

Lemma recovery_cycle_witness :
  let opened := executeAll redis [failing 100; failing 200; failing 300] in
  stats_state (getStats (executeAll opened [succeeding 10300; succeeding 10301]))
    = CLOSED.
Proof.
  assert (H1 : resetTimeout (options (executeAll redis
                  [failing 100; failing 200; failing 300]))
               ≤ at_ (succeeding 10300)
                 - lastFailureTime (executeAll redis
                     [failing 100; failing 200; failing 300]))
    by (vm_compute; discriminate).
  assert (H2 : Forall succeeds [succeeding 10300; succeeding 10301])
    by (repeat constructor; by eexists).
  pose proof (recovery_cycle
                (executeAll redis [failing 100; failing 200; failing 300])
                (succeeding 10300) [succeeding 10301] eq_refl H1 H2 eq_refl)
    as (Hs & _).
  cbv zeta in *. by rewrite Hs.
Defined.

End BreakerLifeProofs.

(** ** Rate limiter: quotas, isolation and the sweep *)

Module RateLimitMoreProofs.
Import RateLimit Samples RateLimitProofs.

Lemma ceilSeconds_covers (ms : Z) :
  ms ≤ 1000 * ceilSeconds ms ∧ 1000 * ceilSeconds ms < ms + 1000.
Proof. unfold ceilSeconds. Z.div_mod_to_equations. lia. Qed.

Section OneCaller.
Variable o : Options.
Variable r : Request.

Local Abbreviation ident := (identifierOf r).
Local Abbreviation L := (limitOf o r).
Local Abbreviation W := (windowOf o).
Local Abbreviation B := (burstLimit (configOf o)).
Local Abbreviation Wb := (burstWindowMs (configOf o)).

Implicit Types (store : gmap string RateLimitEntry) (e : RateLimitEntry).

(** The response is made from the entry the request is counted against,
    and from nothing else in the store. *)
Lemma rateLimiter_response store1 store2 (now : Z) :
  entryAfter o r store1 now = entryAfter o r store2 now →
  fst (rateLimiter o store1 r now) = fst (rateLimiter o store2 r now).
Proof.
  unfold entryAfter, rateLimiter. cbv zeta. intros ->.
  repeat match goal with
  | |- context [?x <? ?y] => destruct (Z.ltb_spec x y)
  end; reflexivity.
Qed.

Lemma admitted_within store (now : Z) :
  isAdmitted (fst (rateLimiter o store r now)) = true →
  count (entryAfter o r store now) ≤ L
  ∧ burstCount (entryAfter o r store now) ≤ B.
Proof.
  unfold entryAfter, rateLimiter, isAdmitted. cbv zeta.
  repeat match goal with
  | |- context [?x <? ?y] => destruct (Z.ltb_spec x y)
  end; cbn [fst reply]; intros; (done || lia).
Qed.

Lemma isAdmitted_admitted (resp : Response) :
  isAdmitted resp = true ↔ admitted resp.
Proof. unfold isAdmitted, admitted. destruct (reply resp); split; done. Qed.

Lemma admittedCount_cons (resp : Response) (resps : list Response) :
  admittedCount (resp :: resps)
    = (if isAdmitted resp then 1 else 0) + admittedCount resps.
Proof.
  unfold admittedCount. rewrite filter_cons.
  destruct (isAdmitted resp).
  - rewrite decide_True by done. cbn [length]. lia.
  - rewrite decide_False by done. lia.
Qed.

Lemma admittedCount_nonneg (resps : list Response) : 0 ≤ admittedCount resps.
Proof. unfold admittedCount. lia. Qed.

Lemma entryAfter_live_burst store e (now : Z) :
  store !! ident = Some e → now ≤ resetAt e → now - lastBurstReset e < Wb →
  entryAfter o r store now = increment e.
Proof.
  intros He Hlive Hb. unfold entryAfter. rewrite He, currentEntry_live by done.
  destruct (Z.leb_spec Wb (now - lastBurstReset e)); [lia | done].
Qed.

Lemma window_quota_from (ts : list Z) :
  ∀ store e,
    store !! ident = Some e →
    (∀ u, u ∈ ts → u ≤ resetAt e) →
    admittedCount (fst (serve o store r ts)) ≤ Z.max 0 (L - count e).
Proof.
  induction ts as [|t rest IH]; intros store e He Hts.
  - cbn. unfold admittedCount. cbn. lia.
  - rewrite serve_cons. cbn [fst]. rewrite admittedCount_cons.
    assert (Ht : t ≤ resetAt e) by (apply Hts; left).
    destruct (entryAfter_live_count o r store e t He Ht) as [Hc Hr].
    specialize (IH (snd (rateLimiter o store r t)) (entryAfter o r store t)
                  (rateLimiter_lookup o r store t)).
    rewrite Hr, Hc in IH.
    assert (Hrest : ∀ u, u ∈ rest → u ≤ resetAt e) by (intros u Hu; apply Hts; by right).
    specialize (IH Hrest).
    destruct (isAdmitted (fst (rateLimiter o store r t))) eqn:Ha; [|lia].
    apply admitted_within in Ha as [Ha _]. lia.
Qed.

Lemma burst_quota_from (ts : list Z) :
  ∀ store e,
    store !! ident = Some e →
    (∀ u, u ∈ ts → u ≤ resetAt e ∧ u - lastBurstReset e < Wb) →
    admittedCount (fst (serve o store r ts)) ≤ Z.max 0 (B - burstCount e).
Proof.
  induction ts as [|t rest IH]; intros store e He Hts.
  - cbn. unfold admittedCount. cbn. lia.
  - rewrite serve_cons. cbn [fst]. rewrite admittedCount_cons.
    destruct (Hts t) as [Ht Hb]; [left|].
    pose proof (entryAfter_live_burst store e t He Ht Hb) as Hentry.
    specialize (IH (snd (rateLimiter o store r t)) (entryAfter o r store t)
                  (rateLimiter_lookup o r store t)).
    rewrite Hentry in IH. cbn [increment resetAt lastBurstReset burstCount] in IH.
    assert (Hrest : ∀ u, u ∈ rest → u ≤ resetAt e ∧ u - lastBurstReset e < Wb)
      by (intros u Hu; apply Hts; by right).
    specialize (IH Hrest).
    destruct (isAdmitted (fst (rateLimiter o store r t))) eqn:Ha; [|lia].
    apply admitted_within in Ha as [_ Ha]. rewrite Hentry in Ha.
    cbn [increment burstCount] in Ha. lia.
Qed.

(** X10.  The quota is never exceeded.  Of the requests a caller sends in
    one sustained window (from a request that opens the window up to its
    reset time, in any number) at most [limit] are let through.  Of the
    requests it sends in one burst window that lies inside one sustained
    window (from a request that opens the burst window, all less than
    [burstWindowMs] later and none after the reset time of the sustained
    window) at most [burstLimit] are let through.  A burst window that
    runs across the reset of the sustained window is not bound in this way,
    the new entry starting the burst count afresh. *)
Theorem window_quota store (t1 : Z) (rest : list Z) :
  (windowOver store ident t1 →
   (∀ u, u ∈ rest → u ≤ t1 + W) →
   admittedCount (fst (serve o store r (t1 :: rest))) ≤ Z.max 0 L)
  ∧ (opensBurstWindow o r store t1 →
     (∀ u, u ∈ rest → u - t1 < Wb ∧ u ≤ resetAt (entryAfter o r store t1)) →
     admittedCount (fst (serve o store r (t1 :: rest))) ≤ Z.max 0 B).
Proof.
  split.
  - intros Hover Hrest.
    rewrite serve_cons. cbn [fst]. rewrite admittedCount_cons.
    pose proof (entryAfter_over o r store t1 Hover) as Hentry.
    pose proof (window_quota_from rest (snd (rateLimiter o store r t1))
                  (entryAfter o r store t1) (rateLimiter_lookup o r store t1)) as Hq.
    rewrite Hentry in Hq. cbn [resetAt count] in Hq. specialize (Hq Hrest).
    destruct (isAdmitted (fst (rateLimiter o store r t1))) eqn:Ha; [|lia].
    apply admitted_within in Ha as [Ha _]. rewrite Hentry in Ha. cbn in Ha. lia.
  - intros Hopens Hrest.
    rewrite serve_cons. cbn [fst]. rewrite admittedCount_cons.
    destruct (entryAfter_opens o r store t1 Hopens) as [Hbc Hlb].
    pose proof (burst_quota_from rest (snd (rateLimiter o store r t1))
                  (entryAfter o r store t1) (rateLimiter_lookup o r store t1)) as Hq.
    rewrite Hbc, Hlb in Hq.
    assert (Hrest' : ∀ u, u ∈ rest →
              u ≤ resetAt (entryAfter o r store t1) ∧ u - t1 < Wb)
      by (intros u Hu; destruct (Hrest u Hu); done).
    specialize (Hq Hrest').
    destruct (isAdmitted (fst (rateLimiter o store r t1))) eqn:Ha; [|lia].
    apply admitted_within in Ha as [_ Ha]. lia.
Qed.

(** X11.  Callers do not see each other.  A request changes the entry of
    its own identifier only; the response is made from that entry alone; so
    a request of another caller in between, whatever its outcome, changes
    nothing about the response this caller gets. *)
Theorem callers_isolated store (now : Z) :
  (∀ other, other ≠ ident →
     snd (rateLimiter o store r now) !! other = store !! other)
  ∧ (∀ store2, store2 !! ident = store !! ident →
       fst (rateLimiter o store2 r now) = fst (rateLimiter o store r now))
  ∧ (∀ o2 r2 now2, identifierOf r2 ≠ ident →
       fst (rateLimiter o (snd (rateLimiter o2 store r2 now2)) r now)
         = fst (rateLimiter o store r now)
       ∧ snd (rateLimiter o (snd (rateLimiter o2 store r2 now2)) r now) !! ident
         = snd (rateLimiter o store r now) !! ident).
Proof.
  split; [|split].
  - intros other Hne. rewrite rateLimiter_store. by rewrite lookup_insert_ne.
  - intros store2 Heq. apply rateLimiter_response. unfold entryAfter. by rewrite Heq.
  - intros o2 r2 now2 Hne.
    assert (Heq : snd (rateLimiter o2 store r2 now2) !! ident = store !! ident).
    { rewrite rateLimiter_store. by rewrite lookup_insert_ne. }
    split.
    + apply rateLimiter_response. unfold entryAfter. by rewrite Heq.
    + rewrite !rateLimiter_lookup. unfold entryAfter. by rewrite Heq.
Qed.

Lemma cleanup_lookup store (swept : Z) (k : string) :
  cleanup store swept !! k
    = match store !! k with
      | Some e => if decide (resetAt e < swept) then None else Some e
      | None => None
      end.
Proof.
  unfold cleanup. rewrite map_lookup_filter.
  destruct (store !! k) as [e|]; [|done]. cbn.
  destruct (decide (resetAt e < swept)).
  - rewrite option_guard_False; [done|]. cbn. tauto.
  - by rewrite option_guard_True.
Qed.

(** X12.  The periodic sweep is invisible.  It removes exactly the entries
    whose window was over when it ran, and a request that arrives at or
    after the sweep gets the same response and leaves the same entry as it
    would have without it. *)
Theorem cleanup_unobservable store (swept now : Z) :
  swept ≤ now →
  (∀ k, cleanup store swept !! k
        = match store !! k with
          | Some e => if decide (resetAt e < swept) then None else Some e
          | None => None
          end)
  ∧ fst (rateLimiter o (cleanup store swept) r now) = fst (rateLimiter o store r now)
  ∧ snd (rateLimiter o (cleanup store swept) r now) !! ident
    = snd (rateLimiter o store r now) !! ident.
Proof.
  intros Hle.
  assert (Heq : entryAfter o r (cleanup store swept) now = entryAfter o r store now).
  { unfold entryAfter. rewrite cleanup_lookup.
    destruct (store !! ident) as [e|]; [|done].
    destruct (decide (resetAt e < swept)); [|done].
    rewrite !currentEntry_over; [done| |done]. cbn. lia. }
  split; [intros k; apply cleanup_lookup|]. split.
  - by apply rateLimiter_response.
  - by rewrite !rateLimiter_lookup, Heq.
Qed.

(** X13.  The retry hint can be trusted, and the counters shown are never
    negative.  The Retry-After header is set exactly on a rejection.  After
    a rejection by the sustained tier, a request made more than Retry-After
    seconds later is let through (the limits being at least one).  After a
    rejection by the burst tier, whose hint is one second, a request made a
    second or more later is not rejected by the burst tier again, provided
    the burst window is no longer than a second and the clock has not run
    backwards. *)
Theorem retry_after_honest store (now : Z) :
  let resp := fst (rateLimiter o store r now) in
  let store' := snd (rateLimiter o store r now) in
  (Retry_After (headers resp) = None ↔ admitted resp)
  ∧ 0 ≤ X_RateLimit_Remaining (headers resp)
  ∧ 0 ≤ X_RateLimit_Burst_Remaining (headers resp)
  ∧ (windowRejected resp → 1 ≤ L → 1 ≤ B →
     ∃ ra, Retry_After (headers resp) = Some ra
           ∧ ∀ later, now + 1000 * ra < later →
                      admitted (fst (rateLimiter o store' r later)))
  ∧ (burstRejected resp → Wb ≤ 1000 → 1 ≤ B →
     (∀ e, store !! ident = Some e → lastBurstReset e ≤ now) →
     Retry_After (headers resp) = Some 1
     ∧ ∀ later, now + 1000 * 1 ≤ later →
                ¬ burstRejected (fst (rateLimiter o store' r later))).
Proof.
  cbv zeta. split; [|split; [|split; [|split]]].
  - unfold rateLimiter, admitted. cbv zeta.
    repeat match goal with
    | |- context [?x <? ?y] => destruct (Z.ltb_spec x y)
    end; cbn; split; done.
  - unfold rateLimiter. cbv zeta.
    repeat match goal with
    | |- context [?x <? ?y] => destruct (Z.ltb_spec x y)
    end; cbn; lia.
  - unfold rateLimiter. cbv zeta.
    repeat match goal with
    | |- context [?x <? ?y] => destruct (Z.ltb_spec x y)
    end; cbn; lia.
  - intros Hrej HL HB.
    exists (ceilSeconds (resetAt (entryAfter o r store now) - now)). split.
    + revert Hrej. unfold windowRejected, entryAfter, rateLimiter. cbv zeta.
      repeat match goal with
      | |- context [?x <? ?y] => destruct (Z.ltb_spec x y)
      end; cbn; intros [code Hrej]; (done || congruence).
    + intros later Hlater. apply window_over_admitted; [|done|done].
      unfold windowOver. rewrite rateLimiter_lookup.
      pose proof (ceilSeconds_covers (resetAt (entryAfter o r store now) - now)).
      lia.
  - intros Hrej Hwb HB Hclock. split.
    + revert Hrej. unfold burstRejected, rateLimiter. cbv zeta.
      repeat match goal with
      | |- context [?x <? ?y] => destruct (Z.ltb_spec x y)
      end; cbn; intros [code Hrej]; (done || congruence).
    + intros later Hlater.
      assert (Hlb : lastBurstReset (entryAfter o r store now) ≤ now).
      { unfold entryAfter, currentEntry. cbv zeta.
        destruct (store !! ident) as [e|] eqn:He.
        - specialize (Hclock e eq_refl).
          repeat match goal with
          | |- context [?x <? ?y] => destruct (Z.ltb_spec x y)
          | |- context [?x <=? ?y] => destruct (Z.leb_spec x y)
          end; cbn; lia.
        - repeat match goal with
          | |- context [?x <=? ?y] => destruct (Z.leb_spec x y)
          end; cbn; lia. }
      assert (Hopens : opensBurstWindow o r (snd (rateLimiter o store r now)) later).
      { unfold opensBurstWindow, windowOver. rewrite rateLimiter_lookup.
        destruct (Z.lt_ge_cases (resetAt (entryAfter o r store now)) later);
          [by left|].
        right. eexists. split; [reflexivity|]. lia. }
      destruct (entryAfter_opens o r _ later Hopens) as [Hbc _].
      unfold burstRejected. intros [code Hagain].
      assert (Hnot : isAdmitted (fst (rateLimiter o (snd (rateLimiter o store r now)) r later)) = false)
        by (unfold isAdmitted; by rewrite Hagain).
      revert Hagain. unfold rateLimiter at 1. cbv zeta.
      fold (entryAfter o r (snd (rateLimiter o store r now)) later).
      rewrite Hbc.
      destruct (Z.ltb_spec B 1); [lia|].
      destruct (L <? _); cbn; intros; congruence.
Qed.

End OneCaller.

(** X14.  Tighter limits never let more through.  Two limiters with the
    same windows keep identical stores under the same traffic, and every
    request the one with the lower limits lets through, the other lets
    through as well; the MCP limiter against the REST limiter is the
    case in point. *)
Theorem stricter_admits_less (o1 o2 : Options) (r : Request)
    (store : gmap string RateLimitEntry) (ts : list Z) :
  windowOf o1 = windowOf o2 →
  burstWindowMs (configOf o1) = burstWindowMs (configOf o2) →
  limitOf o1 r ≤ limitOf o2 r →
  burstLimit (configOf o1) ≤ burstLimit (configOf o2) →
  snd (serve o1 store r ts) = snd (serve o2 store r ts)
  ∧ Forall2 (fun strict loose => isAdmitted strict = true → isAdmitted loose = true)
      (fst (serve o1 store r ts)) (fst (serve o2 store r ts))
  ∧ admittedCount (fst (serve o1 store r ts)) ≤ admittedCount (fst (serve o2 store r ts)).
Proof.
  intros HW HWb HL HB. revert store.
  assert (Hentry : ∀ store now, entryAfter o1 r store now = entryAfter o2 r store now).
  { intros store now. unfold entryAfter, currentEntry. by rewrite HW, HWb. }
  induction ts as [|t rest IH]; intros store.
  - cbn. repeat split; [constructor | done].
  - rewrite !serve_cons. cbn [fst snd].
    assert (Hstore : snd (rateLimiter o1 store r t) = snd (rateLimiter o2 store r t))
      by (by rewrite !rateLimiter_store, Hentry).
    rewrite Hstore.
    destruct (IH (snd (rateLimiter o2 store r t))) as (IH1 & IH2 & IH3).
    assert (Hadm : isAdmitted (fst (rateLimiter o1 store r t)) = true →
                   isAdmitted (fst (rateLimiter o2 store r t)) = true).
    { intros Ha. apply admitted_within in Ha as [Hc Hb]. rewrite Hentry in Hc, Hb.
      apply isAdmitted_admitted. apply rateLimiter_next; lia. }
    split; [exact IH1|]. split; [by constructor|].
    rewrite !admittedCount_cons.
    destruct (isAdmitted (fst (rateLimiter o1 store r t))) eqn:H1.
    + rewrite Hadm by done. lia.
    + destruct (isAdmitted (fst (rateLimiter o2 store r t))); lia.
Qed.

Lemma window_quota_witness :
  admittedCount (fst (serve mcpOptions ∅ anonymous (0 :: (seqZ 1 40))))
    ≤ Z.max 0 (limitOf mcpOptions anonymous).
Proof.
  refine (proj1 (window_quota mcpOptions anonymous ∅ 0 (seqZ 1 40)) _ _).
  - exact I.
  - apply Forall_forall. apply (bool_decide_unpack _). vm_compute. exact I.
Defined.

Lemma cleanup_unobservable_witness :
  let store := snd (serve mcpOptions ∅ anonymous [0; 10; 20]) in
  fst (rateLimiter mcpOptions (cleanup store 60001) anonymous 60500)
    = fst (rateLimiter mcpOptions store anonymous 60500).
Proof.
  cbv zeta.
  refine (proj1 (proj2 (cleanup_unobservable mcpOptions anonymous
                          (snd (serve mcpOptions ∅ anonymous [0; 10; 20]))
                          60001 60500 _))).
  lia.
Defined.

Lemma stricter_admits_less_witness :
  admittedCount (fst (serve mcpOptions ∅ anonymous (seqZ 0 8)))
    ≤ admittedCount (fst (serve restOptions ∅ anonymous (seqZ 0 8))).
Proof.
  refine (proj2 (proj2 (stricter_admits_less mcpOptions restOptions anonymous ∅
                          (seqZ 0 8) eq_refl eq_refl _ _))).
  - vm_compute. discriminate.
  - vm_compute. discriminate.
Defined.

End RateLimitMoreProofs.

(** ** Job queue: bookkeeping, accounting and schedule *)

Module QueueMoreProofs.
Import Js JsMapFacts JsArrayFacts Queue Samples QueueProofs.

Section WithTypes.
Context {T R : Type}.
Implicit Types (q : MemoryQueue T R) (j job : QueueJob T R) (t : Tick)
  (m : list (string * QueueJob T R)).

(** *** Counting jobs by status *)

Lemma values_app m1 m2 : JsMap.values (m1 ++ m2) = JsMap.values m1 ++ JsMap.values m2.
Proof. unfold JsMap.values. apply map_app. Qed.

Lemma keys_app m1 m2 : JsMap.keys (m1 ++ m2) = JsMap.keys m1 ++ JsMap.keys m2.
Proof. unfold JsMap.keys. apply map_app. Qed.

Lemma set_new m (k : string) j : k ∉ JsMap.keys m → JsMap.set m k j = m ++ [(k, j)].
Proof.
  induction m as [|[k' v] m IH]; intros Hk; [done|].
  cbn in *. apply not_elem_of_cons in Hk as [Hne Hk].
  rewrite decide_False by done. by rewrite IH.
Qed.

Lemma update_at m1 m2 (k : string) j f :
  k ∉ JsMap.keys m1 →
  JsMap.update (m1 ++ (k, j) :: m2) k f = m1 ++ (k, f j) :: m2.
Proof.
  induction m1 as [|[k' v] m1 IH]; intros Hk.
  - cbn. by rewrite decide_True.
  - cbn in *. apply not_elem_of_cons in Hk as [Hne Hk].
    rewrite decide_False by done. by rewrite IH.
Qed.

Lemma delete_absent m (k : string) : k ∉ JsMap.keys m → JsMap.delete m k = m.
Proof.
  unfold JsMap.delete.
  induction m as [|[k' v] m IH]; intros Hk; [done|].
  cbn in Hk. apply not_elem_of_cons in Hk as [Hne Hk].
  rewrite filter_cons. cbn [fst]. rewrite decide_True by done. by rewrite IH.
Qed.

Lemma delete_at m1 m2 (k : string) j :
  k ∉ JsMap.keys m1 → k ∉ JsMap.keys m2 →
  JsMap.delete (m1 ++ (k, j) :: m2) k = m1 ++ m2.
Proof.
  intros H1 H2. unfold JsMap.delete. rewrite filter_app, filter_cons. cbn [fst].
  rewrite decide_False by (intros Hne; apply Hne; reflexivity).
  fold (JsMap.delete m1 k). fold (JsMap.delete m2 k).
  by rewrite !delete_absent.
Qed.

(** In a queue whose entries stand under their own ids, the place of a
    job in the table of values is the place of its entry. *)
Lemma split_at_job m j (v1 v2 : list (QueueJob T R)) :
  (∀ k j0, (k, j0) ∈ m → id j0 = k) →
  NoDup (JsMap.keys m) →
  JsMap.values m = v1 ++ j :: v2 →
  ∃ m1 m2, m = m1 ++ (id j, j) :: m2
           ∧ JsMap.values m1 = v1 ∧ JsMap.values m2 = v2
           ∧ (id j ∉ JsMap.keys m1) ∧ (id j ∉ JsMap.keys m2).
Proof.
  intros Hkeyed Hnd Hv. unfold JsMap.values in Hv.
  change (snd <$> m = v1 ++ j :: v2) in Hv.
  apply fmap_app_inv in Hv as (m1 & rest & H1 & Hrest & ->).
  symmetry in Hrest.
  apply fmap_cons_inv in Hrest as ([k j'] & m2 & Hj & H2 & ->).
  cbn in Hj. subst j'. subst v1 v2.
  assert (id j = k) as <- by (apply Hkeyed; apply elem_of_app; right; left).
  exists m1, m2. split; [done|]. split; [done|]. split; [done|].
  rewrite keys_app in Hnd. cbn [JsMap.keys map fst] in Hnd.
  apply NoDup_app in Hnd as (_ & Hdis & Hnd2).
  apply NoDup_cons in Hnd2 as [Hn2 _].
  split; [|exact Hn2].
  intros Hin. apply (Hdis _ Hin). left.
Qed.

Lemma count_app (st : JobStatus) (l1 l2 : list (QueueJob T R)) :
  length (filter (fun j => status j = st) (l1 ++ l2))
    = (length (filter (fun j => status j = st) l1)
       + length (filter (fun j => status j = st) l2))%nat.
Proof. by rewrite filter_app, length_app. Qed.

Lemma count_one (st : JobStatus) j :
  length (filter (fun j => status j = st) [j])
    = if decide (status j = st) then 1%nat else 0%nat.
Proof. rewrite filter_cons. destruct (decide (status j = st)); done. Qed.

Lemma count_cons (st : JobStatus) j (l : list (QueueJob T R)) :
  length (filter (fun j => status j = st) (j :: l))
    = ((if decide (status j = st) then 1 else 0)
       + length (filter (fun j => status j = st) l))%nat.
Proof. rewrite filter_cons. destruct (decide (status j = st)); done. Qed.

(** *** Adding and looking up *)

(** X15.  Adding and looking up round trip: [add] returns the id it drew,
    and [getJob] on that id gives the job as enqueued: pending, no attempts
    made, the priority and attempt budget given or else "normal" and the
    queue's default.  Every other id looks up as before and the dead-letter
    set is not touched; when the id is new the job goes to the end of the
    insertion order and the pending count grows by one. *)
Theorem add_getJob_round_trip q (uuid : string) (now : Z) (ty : string) (d : T)
    (prio : option JobPriority) (maxAtt : option Z) :
  let q' := snd (add q uuid now ty d prio maxAtt) in
  fst (add q uuid now ty d prio maxAtt) = uuid
  ∧ getJob q' uuid
    = Some {| id := uuid; type := ty; data := d;
              priority := default normal prio;
              status := pending; attempts := 0;
              maxAttempts := default (opt_maxAttempts (options q)) maxAtt;
              createdAt := now; processedAt := None; completedAt := None;
              error := None; result := None |}
  ∧ (∀ k, k ≠ uuid → getJob q' k = getJob q k)
  ∧ getDeadLetterJobs q' = getDeadLetterJobs q
  ∧ (uuid ∉ JsMap.keys (jobs q) →
     JsMap.keys (jobs q') = JsMap.keys (jobs q) ++ [uuid]
     ∧ stat_pending (getStats q') = stat_pending (getStats q) + 1
     ∧ stat_completed (getStats q') = stat_completed (getStats q)).
Proof.
  cbv zeta. unfold add, getJob, getDeadLetterJobs, getStats, countStatus.
  cbn [fst snd withStores jobs deadLetterQueue stat_pending stat_completed].
  split; [done|]. split; [by rewrite get_set_eq|].
  split; [intros k Hk; by rewrite get_set_ne|]. split; [done|].
  intros Hnew. rewrite keys_set_new by done. split; [done|].
  rewrite set_new by done. rewrite values_app, !count_app.
  cbn [JsMap.values map snd]. rewrite !count_one. cbn [status].
  rewrite decide_True by done. rewrite decide_False by done. lia.
Qed.

(** *** The attempts on record *)

Lemma attemptsKept_create (nm : string) (h : QueueJob T R -> Settled R) (o : RawOptions) :
  attemptsKept (create nm h o).
Proof. split; cbn; intros k j H; by apply elem_of_nil in H. Qed.

Lemma selected_elem q job : selected q job → ∃ k, (k, job) ∈ jobs q.
Proof.
  intros Hsel. apply selected_in in Hsel. unfold JsMap.values in Hsel.
  apply list_elem_of_fmap in Hsel as ([k j'] & -> & Hin). by exists k.
Qed.

Lemma selected_pending q job : selected q job → status job = pending.
Proof. by intros (? & ? & _ & ? & _). Qed.

Lemma attemptsKept_step q q' : attemptsKept q → step q q' → attemptsKept q'.
Proof.
  intros [Hj Hd] Hs. inversion Hs; subst.
  - (* add *)
    split; cbn [add snd withStores jobs deadLetterQueue]; [|exact Hd].
    intros k j Hin. apply elem_of_set in Hin as [Hin | [-> ->]]; [by eapply Hj|].
    left. unfold attemptsBound. cbn. split; [done | lia].
  - (* tick *)
    destruct (processNext_cases q t) as [[_ ->]|(job & Hsel & _ & Hcase)];
      [by split|].
    cbv zeta in Hcase.
    destruct (selected_elem q job Hsel) as [kj Hin0].
    pose proof (selected_pending q job Hsel) as Hpend.
    destruct (Hj _ _ Hin0) as [[_ Hb]|[Hc _]]; [|congruence].
    unfold attemptsBound in *.
    destruct (handler q (markProcessing (startedAt t) job)) as [r|e].
    + rewrite Hcase. cbn [fst]. split; cbn [withStores jobs deadLetterQueue]; [|exact Hd].
      intros k j Hin. apply elem_of_update in Hin as [Hin | (-> & v & _ & ->)];
        [by eapply Hj|].
      right. unfold attemptsBound. cbn. split; [done | lia].
    + destruct (Z.leb_spec (maxAttempts job) (attempts job + 1)); rewrite Hcase;
        cbn [fst]; split; cbn [withStores jobs deadLetterQueue].
      * intros k j Hin. apply elem_of_delete in Hin as [_ Hin]. by eapply Hj.
      * intros k j Hin. apply elem_of_set in Hin as [Hin | [-> ->]]; [by eapply Hd|].
        unfold attemptsBound. cbn. split; [done | lia].
      * intros k j Hin. apply elem_of_update in Hin as [Hin | (-> & v & _ & ->)];
          [by eapply Hj|].
        left. unfold attemptsBound. cbn. split; [done | lia].
      * exact Hd.
  - (* retry *)
    unfold retryDeadLetter.
    destruct (JsMap.get (deadLetterQueue q) jobId) as [job|] eqn:Hg; [|by split].
    apply get_Some_elem in Hg. destruct (Hd _ _ Hg) as [_ Ha].
    split; cbn [snd withStores jobs deadLetterQueue].
    + intros k j Hin. apply elem_of_set in Hin as [Hin | [-> ->]]; [by eapply Hj|].
      left. unfold attemptsBound. cbn. split; [done | lia].
    + intros k j Hin. apply elem_of_delete in Hin as [_ Hin]. by eapply Hd.
  - (* clear *)
    split; cbn [clearCompleted snd withStores jobs deadLetterQueue]; [|exact Hd].
    intros k j Hin. apply list_elem_of_filter in Hin as [_ Hin]. by eapply Hj.
Qed.

Lemma reachable_attemptsKept (nm : string) (h : QueueJob T R -> Settled R)
    (o : RawOptions) q :
  rtc step (create nm h o) q → attemptsKept q.
Proof.
  intros Hr.
  refine (rtc_ind_r (fun q => attemptsKept q) _ _ _ q Hr);
    [apply attemptsKept_create|].
  intros q1 q2 _ Hs Hk. by eapply attemptsKept_step.
Qed.

(** X16.  The attempt budget is kept: however a queue has been used
    (jobs added, ticks run, dead letters retried, completed jobs cleared),
    no job has had more handler calls in its present life than its budget
    [max 1 maxAttempts]; a pending job has calls left; a completed job has
    used at least one; a job is in the dead-letter set exactly when it has
    used them all and failed each time, and it has the status dead. *)
Theorem attempts_within_budget (nm : string) (h : QueueJob T R -> Settled R)
    (o : RawOptions) q :
  rtc step (create nm h o) q →
  (∀ k j, getJob q k = Some j →
     0 ≤ attempts j ≤ attemptsBound j
     ∧ (status j = pending → attempts j < attemptsBound j)
     ∧ (status j = completed → 1 ≤ attempts j)
     ∧ (status j = dead → attempts j = attemptsBound j))
  ∧ (∀ j, j ∈ getDeadLetterJobs q →
       status j = dead ∧ attempts j = attemptsBound j).
Proof.
  intros Hr. destruct (reachable_attemptsKept nm h o q Hr) as [Hj Hd].
  split.
  - intros k j Hg. unfold getJob in Hg.
    destruct (JsMap.get (jobs q) k) as [j'|] eqn:Hgj.
    + injection Hg as ->. apply get_Some_elem in Hgj.
      destruct (Hj _ _ Hgj) as [[Hs Hb]|[Hs Hb]]; rewrite Hs;
        repeat split; intros; try discriminate; lia.
    + apply get_Some_elem in Hg. destruct (Hd _ _ Hg) as [Hs Ha].
      rewrite Hs. unfold attemptsBound in *.
      repeat split; intros; try discriminate; lia.
  - intros j Hin. unfold getDeadLetterJobs, JsMap.values in Hin.
    apply list_elem_of_fmap in Hin as ([k j'] & -> & Hin). by eapply Hd.
Qed.

Lemma count_statuses (l : list (QueueJob T R)) :
  Forall (fun j => status j = pending ∨ status j = completed) l →
  (length (filter (fun j => status j = pending) l)
    + length (filter (fun j => status j = completed) l) = length l)%nat
  ∧ length (filter (fun j => status j = processing) l) = 0%nat
  ∧ length (filter (fun j => status j = failed) l) = 0%nat.
Proof.
  induction 1 as [|j l Hj _ IH]; [done|].
  rewrite !count_cons. cbn [length].
  destruct IH as (IH1 & IH2 & IH3).
  destruct Hj as [Hs|Hs]; rewrite Hs; repeat case_decide; try congruence; lia.
Qed.

(** X17.  The statistics add up: between worker ticks of a queue, however
    it has been used, every job of the active set is counted as pending or
    as completed, so these two counts sum to the size of the active set;
    no job is ever counted as failed, the status "failed" being never
    assigned; and the dead count is the number of dead-letter jobs. *)
Theorem stats_add_up (nm : string) (h : QueueJob T R -> Settled R)
    (o : RawOptions) q :
  rtc step (create nm h o) q →
  let s := getStats q in
  stat_pending s + stat_processing s + stat_completed s = JsMap.size (jobs q)
  ∧ stat_failed s = 0
  ∧ stat_dead s = Z.of_nat (length (getDeadLetterJobs q))
  ∧ (∀ k j, getJob q k = Some j → status j ≠ failed).
Proof.
  intros Hr. destruct (reachable_attemptsKept nm h o q Hr) as [Hj Hd].
  assert (Hall : Forall (fun j => status j = pending ∨ status j = completed)
                   (JsMap.values (jobs q))).
  { apply Forall_forall. intros j Hin. unfold JsMap.values in Hin.
    apply list_elem_of_fmap in Hin as ([k j'] & -> & Hin).
    destruct (Hj _ _ Hin) as [[? _]|[? _]]; [by left | by right]. }
  destruct (count_statuses _ Hall) as (H1 & H2 & H3).
  cbv zeta. unfold getStats, countStatus, getDeadLetterJobs, JsMap.size.
  cbn [stat_pending stat_processing stat_completed stat_failed stat_dead].
  unfold JsMap.values in *. rewrite length_map in *.
  repeat split; try lia.
  intros k j Hg Hs. unfold getJob in Hg.
  destruct (JsMap.get (jobs q) k) as [j'|] eqn:Hgj.
  - injection Hg as ->. apply get_Some_elem in Hgj.
    destruct (Hj _ _ Hgj) as [[? _]|[? _]]; congruence.
  - apply get_Some_elem in Hg. destruct (Hd _ _ Hg) as [? _]. congruence.
Qed.

(** *** Clearing and reviving *)

Lemma filter_values_kept (st : JobStatus) m :
  st ≠ completed →
  filter (fun j => status j = st)
    (JsMap.values (filter (fun kv : string * QueueJob T R => status (snd kv) ≠ completed) m))
  = filter (fun j => status j = st) (JsMap.values m).
Proof.
  intros Hst. induction m as [|[k j] m IH]; [done|].
  rewrite filter_cons. cbn [snd].
  destruct (decide (status j ≠ completed)) as [Hne|Heq].
  - cbn [JsMap.values map snd]. rewrite !filter_cons.
    unfold JsMap.values in IH. rewrite IH. done.
  - cbn [JsMap.values map snd]. rewrite filter_cons.
    rewrite decide_False; [exact IH|].
    intros Hs. apply Heq. congruence.
Qed.

Lemma filter_values_cleared m :
  filter (fun j => status j = completed)
    (JsMap.values (filter (fun kv : string * QueueJob T R => status (snd kv) ≠ completed) m))
  = [].
Proof.
  induction m as [|[k j] m IH]; [done|].
  rewrite filter_cons. cbn [snd].
  destruct (decide (status j ≠ completed)) as [Hne|Heq]; [|exact IH].
  cbn [JsMap.values map snd]. rewrite filter_cons.
  rewrite decide_False by done. exact IH.
Qed.

Lemma length_cleared m :
  (length m
   = length (filter (fun kv : string * QueueJob T R => status (snd kv) ≠ completed) m)
     + length (filter (fun j => status j = completed) (JsMap.values m)))%nat.
Proof.
  induction m as [|[k j] m IH]; [done|].
  cbn [JsMap.values map snd]. rewrite !filter_cons. cbn [snd].
  unfold JsMap.values in IH.
  destruct (decide (status j = completed)) as [Heq|Hne].
  - rewrite decide_False by (intros H; by apply H). cbn [length]. lia.
  - rewrite decide_True by done. cbn [length]. lia.
Qed.

Lemma get_filter_Some (P : string * QueueJob T R → Prop) `{∀ x, Decision (P x)}
    m (k : string) j :
  JsMap.get m k = Some j → P (k, j) → JsMap.get (filter P m) k = Some j.
Proof.
  induction m as [|[k' v] m IH]; [done|]. cbn [JsMap.get].
  destruct (decide (k' = k)) as [->|Hne].
  - intros [= ->] HP. rewrite filter_cons, decide_True by done.
    cbn. by rewrite decide_True.
  - intros Hg HP. rewrite filter_cons.
    destruct (decide (P (k', v))); [|by apply IH].
    cbn. rewrite decide_False by done. by apply IH.
Qed.

Lemma get_filter_None (P : string * QueueJob T R → Prop) `{∀ x, Decision (P x)}
    m (k : string) :
  JsMap.get m k = None → JsMap.get (filter P m) k = None.
Proof.
  rewrite !get_None. intros Hk Hin. apply Hk.
  unfold JsMap.keys in *. apply list_elem_of_fmap in Hin as (kv & -> & Hin).
  apply list_elem_of_filter in Hin as [_ Hin]. by apply list_elem_of_fmap_2.
Qed.

(** X18.  [clearCompleted] returns the number of completed jobs, which is
    the completed count of the statistics before the call; afterwards that
    count is zero and the pending, processing, failed and dead counts are
    as before.  Every job that was not completed is still found by
    [getJob], unchanged.  Clearing twice removes nothing more. *)
Theorem clearCompleted_counts q :
  let q' := snd (clearCompleted q) in
  fst (clearCompleted q) = stat_completed (getStats q)
  ∧ getStats q' = {| stat_pending := stat_pending (getStats q);
                     stat_processing := stat_processing (getStats q);
                     stat_completed := 0;
                     stat_failed := stat_failed (getStats q);
                     stat_dead := stat_dead (getStats q) |}
  ∧ (∀ k j, getJob q k = Some j → status j ≠ completed → getJob q' k = Some j)
  ∧ clearCompleted q' = (0, q').
Proof.
  cbv zeta. unfold clearCompleted, getStats, countStatus, getJob, JsMap.size.
  cbn [fst snd withStores jobs deadLetterQueue stat_completed stat_pending
       stat_processing stat_failed stat_dead].
  split; [|split; [|split]].
  - pose proof (length_cleared (jobs q)). lia.
  - rewrite (filter_values_kept pending), (filter_values_kept processing),
      (filter_values_kept failed) by done.
    by rewrite filter_values_cleared.
  - intros k j Hg Hs.
    destruct (JsMap.get (jobs q) k) as [j'|] eqn:Hgj.
    + injection Hg as ->. by rewrite (get_filter_Some _ _ _ _ Hgj).
    + by rewrite (get_filter_None _ _ _ Hgj).
  - rewrite list_filter_filter.
    assert (Hsame : filter (fun x : string * QueueJob T R =>
                              status (snd x) ≠ completed ∧ status (snd x) ≠ completed)
                      (jobs q)
                  = filter (fun kv => status (snd kv) ≠ completed) (jobs q)).
    { apply list_filter_iff. intros x. tauto. }
    rewrite Hsame. f_equal. lia.
Qed.

Lemma size_delete m (k : string) :
  NoDup (JsMap.keys m) → k ∈ JsMap.keys m →
  JsMap.size (JsMap.delete m k) = JsMap.size m - 1.
Proof.
  intros Hnd Hin. unfold JsMap.size.
  assert (Hlen : (length (JsMap.keys (JsMap.delete m k)) + 1 = length (JsMap.keys m))%nat).
  { rewrite keys_delete.
    pose proof (filter_out_perm (JsMap.keys m) k Hnd Hin) as Hp.
    apply Permutation_length in Hp. rewrite length_app in Hp. exact Hp. }
  unfold JsMap.keys in Hlen. rewrite !length_map in Hlen. lia.
Qed.

(** X19.  [retryDeadLetter] refuses what is not a dead letter: an id
    with no dead-letter entry gets the answer false and nothing changes,
    which is the case for the id of every job of the active set, and for a
    second retry of an id just revived.  A dead letter that is retried
    goes to the end of the insertion order of the active set, pending and
    with no attempts on record, and the dead count goes down by one. *)
Theorem retryDeadLetter_refuses q (jobId : string) :
  (JsMap.get (deadLetterQueue q) jobId = None → retryDeadLetter q jobId = (false, q))
  ∧ retryDeadLetter (snd (retryDeadLetter q jobId)) jobId
    = (false, snd (retryDeadLetter q jobId))
  ∧ (wellKeyed q →
     (jobId ∈ JsMap.keys (jobs q) → retryDeadLetter q jobId = (false, q))
     ∧ (∀ j, JsMap.get (deadLetterQueue q) jobId = Some j →
          let q' := snd (retryDeadLetter q jobId) in
          fst (retryDeadLetter q jobId) = true
          ∧ getJob q' jobId = Some (markRetried j)
          ∧ JsMap.keys (jobs q') = JsMap.keys (jobs q) ++ [jobId]
          ∧ stat_dead (getStats q') = stat_dead (getStats q) - 1
          ∧ stat_pending (getStats q') = stat_pending (getStats q) + 1)).
Proof.
  split; [|split].
  - intros Hg. unfold retryDeadLetter. by rewrite Hg.
  - destruct (JsMap.get (deadLetterQueue q) jobId) as [j|] eqn:Hg.
    + destruct (retryDeadLetter_dead q jobId j Hg) as (_ & _ & Hnone).
      unfold retryDeadLetter at 1. by rewrite Hnone.
    + unfold retryDeadLetter. rewrite Hg. cbn [snd]. by rewrite Hg.
  - intros Hw. split.
    + intros Hin. pose proof (wellKeyed_apart q jobId Hw Hin) as Hout.
      apply get_None in Hout. unfold retryDeadLetter. by rewrite Hout.
    + intros j Hg. cbv zeta.
      assert (Hdead : jobId ∈ JsMap.keys (deadLetterQueue q))
        by (by eapply get_Some_keys).
      assert (Hnew : jobId ∉ JsMap.keys (jobs q)).
      { intros Hin. by apply (wellKeyed_apart q jobId Hw Hin). }
      destruct Hw as [_ Hnd]. apply NoDup_app in Hnd as (_ & _ & Hnd).
      unfold retryDeadLetter, getJob, getStats, countStatus. rewrite Hg.
      cbn [fst snd withStores jobs deadLetterQueue stat_dead stat_pending].
      split; [done|]. split; [by rewrite get_set_eq|].
      split; [by rewrite keys_set_new|].
      split; [by apply size_delete|].
      rewrite set_new by done. rewrite values_app, count_app.
      cbn [JsMap.values map snd]. rewrite count_one. cbn [markRetried status].
      rewrite decide_True by done. lia.
Qed.

(** *** Ticks *)

Lemma filter_none (l : list (QueueJob T R)) :
  Forall (fun j => status j ≠ pending) l →
  filter (fun j => status j = pending) l = [].
Proof.
  induction 1 as [|j l Hj _ IH]; [done|].
  rewrite filter_cons. by rewrite decide_False.
Qed.

Lemma invoked_tick q t :
  (length (invoked (snd (processNext q t))) ≤ 1)%nat.
Proof.
  destruct (processNext_cases q t) as [[_ ->]|(job & _ & _ & Hcase)]; [cbn; lia|].
  cbv zeta in Hcase.
  destruct (handler q (markProcessing (startedAt t) job)) as [r|e].
  - rewrite Hcase. cbn. lia.
  - destruct (maxAttempts job <=? attempts job + 1); rewrite Hcase; cbn; lia.
Qed.

Lemma processNext_idle q t : idle q → processNext q t = (q, []).
Proof.
  intros Hidle. unfold processNext, takeNext.
  destruct Hidle as [Hbusy|Hnone].
  - destruct (Z.leb_spec (opt_concurrency (options q))
                (Z.of_nat (size (processingSet q)))); [done | lia].
  - destruct (opt_concurrency (options q) <=? _); [done|].
    unfold pendingJobs. by rewrite filter_none.
Qed.

(** X20.  A tick with nothing to do does nothing: when the workers are
    all busy or no job is pending, [processNext] leaves the queue as it is,
    calls no handler and emits no event.  Otherwise it calls the handler
    exactly once, on the selected job with its attempt counted. *)
Theorem tick_when_idle q t :
  (idle q → processNext q t = (q, []))
  ∧ (¬ idle q →
     ∃ job, selected q job
            ∧ invoked (snd (processNext q t)) = [markProcessing (startedAt t) job]).
Proof.
  split; [apply processNext_idle|].
  - intros Hbusy.
    destruct (processNext_cases q t) as [[Hnone _]|(job & Hsel & _ & Hcase)].
    + exfalso. apply Hbusy. apply takeNext_None in Hnone as [?|Hall]; [by left|].
      right. apply Forall_forall. exact Hall.
    + exists job. split; [exact Hsel|]. cbv zeta in Hcase.
      destruct (handler q (markProcessing (startedAt t) job)) as [r|e].
      * by rewrite Hcase.
      * destruct (maxAttempts job <=? attempts job + 1); by rewrite Hcase.
Qed.

(** *** Accounting of a run *)

Lemma invoked_app (e1 e2 : list (Effect T R)) :
  invoked (e1 ++ e2) = invoked e1 ++ invoked e2.
Proof. unfold invoked. apply omap_app. Qed.

Lemma completedEvents_app (e1 e2 : list (Effect T R)) :
  completedEvents (e1 ++ e2) = completedEvents e1 ++ completedEvents e2.
Proof. unfold completedEvents. apply omap_app. Qed.

Lemma deadEvents_app (e1 e2 : list (Effect T R)) :
  deadEvents (e1 ++ e2) = deadEvents e1 ++ deadEvents e2.
Proof. unfold deadEvents. apply omap_app. Qed.

(** The entry of the selected job, and what is around it. *)
Lemma selected_split q job :
  wellKeyed q → selected q job →
  ∃ m1 m2, jobs q = m1 ++ (id job, job) :: m2
           ∧ (id job ∉ JsMap.keys m1) ∧ (id job ∉ JsMap.keys m2)
           ∧ (id job ∉ JsMap.keys (deadLetterQueue q))
           ∧ status job = pending.
Proof.
  intros Hw (before & after & Hv & Hp & _).
  pose proof Hw as [Hk Hnd].
  destruct (split_at_job (jobs q) job before after) as (m1 & m2 & Hm & _ & _ & H1 & H2);
    [intros k j0 Hin; apply Hk; apply elem_of_app; by left
    | by apply NoDup_app in Hnd as (? & _ & _) | exact Hv |].
  exists m1, m2. repeat split; try done.
  apply (wellKeyed_apart q (id job) Hw).
  rewrite Hm, keys_app. apply elem_of_app. right. left.
Qed.

Lemma tick_account q t :
  wellKeyed q →
  let q' := fst (processNext q t) in
  let effects := snd (processNext q t) in
  countStatus completed q'
    = countStatus completed q + Z.of_nat (length (completedEvents effects))
  ∧ JsMap.size (deadLetterQueue q')
    = JsMap.size (deadLetterQueue q) + Z.of_nat (length (deadEvents effects))
  ∧ JsMap.size (jobs q')
    = JsMap.size (jobs q) - Z.of_nat (length (deadEvents effects))
  ∧ (length (completedEvents effects) + length (deadEvents effects)
     ≤ length (invoked effects))%nat.
Proof.
  intros Hw. cbv zeta.
  destruct (processNext_cases q t) as [[_ ->]|(job & Hsel & _ & Hcase)].
  { cbn. repeat split; lia. }
  cbv zeta in Hcase.
  destruct (selected_split q job Hw Hsel) as (m1 & m2 & Hm & H1 & H2 & Hd & Hp).
  unfold countStatus, JsMap.size.
  destruct (handler q (markProcessing (startedAt t) job)) as [r|e].
  - rewrite Hcase. cbn [fst snd withStores jobs deadLetterQueue].
    rewrite Hm, update_at by done.
    rewrite !values_app. cbn [JsMap.values map snd].
    rewrite !count_app, !count_cons, !length_app. cbn [length status markCompleted].
    rewrite Hp. rewrite decide_True by done. rewrite decide_False by done.
    cbn. unfold JsMap.values. repeat split; lia.
  - destruct (maxAttempts job <=? attempts job + 1); rewrite Hcase;
      cbn [fst snd withStores jobs deadLetterQueue].
    + rewrite Hm, delete_at, set_new by done.
      rewrite !values_app. cbn [JsMap.values map snd].
      rewrite !count_app, !count_cons, !length_app. cbn [length].
      rewrite Hp. rewrite decide_False by done.
      cbn. unfold JsMap.values. repeat split; lia.
    + rewrite Hm, update_at by done.
      rewrite !values_app. cbn [JsMap.values map snd].
      rewrite !count_app, !count_cons, !length_app. cbn [length status markFailed].
      rewrite Hp. rewrite !decide_False by done.
      cbn. unfold JsMap.values. repeat split; lia.
Qed.

(** X21.  The events account for the run.  Over any number of ticks of a
    well-keyed queue: the completed count grows by the number of
    completion events, the dead count by the number of dead-letter events,
    and the active set shrinks by the number of dead-letter events; every
    event comes from a handler call, and no tick makes more than one. *)
Theorem events_account (ticks : list Tick) q :
  wellKeyed q →
  let q' := fst (run q ticks) in
  let effects := snd (run q ticks) in
  stat_completed (getStats q')
    = stat_completed (getStats q) + Z.of_nat (length (completedEvents effects))
  ∧ stat_dead (getStats q')
    = stat_dead (getStats q) + Z.of_nat (length (deadEvents effects))
  ∧ JsMap.size (jobs q')
    = JsMap.size (jobs q) - Z.of_nat (length (deadEvents effects))
  ∧ (length (completedEvents effects) + length (deadEvents effects)
     ≤ length (invoked effects) ≤ length ticks)%nat.
Proof.
  cbv zeta. unfold getStats. cbn [stat_completed stat_dead].
  revert q. induction ticks as [|t rest IH]; intros q Hw.
  - cbn. repeat split; lia.
  - rewrite run_cons. cbn [fst snd].
    destruct (tick_account q t Hw) as (T1 & T2 & T3 & T4). cbv zeta in T1, T2, T3, T4.
    pose proof (invoked_tick q t) as T5.
    destruct (IH (fst (processNext q t))) as (I1 & I2 & I3 & I4 & I5);
      [by apply processNext_keys|].
    rewrite completedEvents_app, deadEvents_app, invoked_app, !length_app.
    cbn [length]. repeat split; lia.
Qed.

(** *** The schedule *)

Lemma byPriority_weight (a b : QueueJob T R) : byPriority a b = weight b - weight a.
Proof. reflexivity. Qed.

(** The first job of greatest weight comes out of the sort in front, and
    the rest comes out as it would without it. *)
Lemma sort_first j (l1 l2 : list (QueueJob T R)) :
  Forall (fun x => weight x < weight j) l1 →
  Forall (fun x => weight x ≤ weight j) l2 →
  JsArray.sort byPriority (l1 ++ j :: l2) = j :: JsArray.sort byPriority (l1 ++ l2).
Proof.
  intros H1 H2. induction H1 as [|x l1 Hx _ IH].
  - cbn [app JsArray.sort].
    destruct (JsArray.sort byPriority l2) as [|y s] eqn:Hs; [done|].
    cbn [JsArray.insertBy]. rewrite byPriority_weight.
    assert (Hy : y ∈ l2).
    { rewrite <- (sort_perm byPriority l2), Hs. left. }
    rewrite Forall_forall in H2. specialize (H2 y Hy).
    destruct (Z.leb_spec (weight y - weight j) 0); [done | lia].
  - cbn [app JsArray.sort]. rewrite IH. cbn [JsArray.insertBy].
    rewrite byPriority_weight.
    destruct (Z.leb_spec (weight j - weight x) 0); [lia | done].
Qed.

Lemma pendingJobs_split q job (more : list (QueueJob T R)) :
  wellKeyed q → pendingJobs q = job :: more →
  ∃ m1 m2, jobs q = m1 ++ (id job, job) :: m2
           ∧ (id job ∉ JsMap.keys m1)
           ∧ status job = pending
           ∧ more = JsArray.sort byPriority
                      (filter (fun j => status j = pending) (JsMap.values (m1 ++ m2))).
Proof.
  intros Hw Hpj. unfold pendingJobs in Hpj.
  destruct (sort_head byPriority weight _ _ _ byPriority_weight Hpj)
    as (l1 & l2 & Hf & F1 & F2).
  destruct (filter_split _ _ _ _ _ Hf) as (v1 & v2 & Hv & <- & <- & Hp).
  pose proof Hw as [Hk Hnd].
  destruct (split_at_job (jobs q) job v1 v2) as (m1 & m2 & Hm & <- & <- & H1 & H2);
    [intros k j0 Hin; apply Hk; apply elem_of_app; by left
    | by apply NoDup_app in Hnd as (? & _ & _) | exact Hv |].
  exists m1, m2. split; [done|]. split; [done|]. split; [done|].
  rewrite Hf, sort_first in Hpj by done.
  injection Hpj as <-. by rewrite values_app, filter_app.
Qed.

(** X22.  With a handler that never fails, the worker goes through the
    pending jobs in exactly the order of the sorted array of the first tick:
    by decreasing priority and, within a priority, in insertion order.  The
    job handed to the handler at the i-th tick is the i-th job of
    [pendingJobs], marked as processing at that tick; once the pending jobs
    are used up the remaining ticks call nothing. *)
Theorem schedule_is_sorted (ticks : list Tick) q :
  wellKeyed q →
  processingSet q = ∅ →
  1 ≤ opt_concurrency (options q) →
  neverFails q →
  invoked (snd (run q ticks))
    = zip_with (fun t job => markProcessing (startedAt t) job) ticks (pendingJobs q).
Proof.
  revert q. induction ticks as [|t rest IH]; intros q Hw Hp Hc Hok; [done|].
  rewrite run_cons. cbn [snd]. rewrite invoked_app.
  destruct (pendingJobs q) as [|job more] eqn:Hpj.
  - assert (Hidle : processNext q t = (q, [])).
    { unfold processNext, takeNext. rewrite Hpj.
      by destruct (opt_concurrency (options q) <=? _). }
    rewrite Hidle. cbn [fst snd invoked omap app].
    rewrite (IH q Hw Hp Hc Hok), Hpj. by destruct rest.
  - destruct (pendingJobs_split q job more Hw Hpj) as (m1 & m2 & Hm & H1 & Hs & Hmore).
    destruct (Hok (markProcessing (startedAt t) job)) as [r Hr].
    assert (Htick : processNext q t
              = (withStores q
                   (m1 ++ (id job, markCompleted (settledAt t) r
                                     (markProcessing (startedAt t) job)) :: m2)
                   (deadLetterQueue q) ∅,
                 [Invoked (markProcessing (startedAt t) job);
                  Emitted (JobCompleted (name q) (id job) (type job))])).
    { unfold processNext, takeNext. rewrite Hpj, Hp.
      destruct (Z.leb_spec (opt_concurrency (options q)) (Z.of_nat (size (∅ : gset string))));
        [rewrite size_empty in *; lia|].
      cbn [handler withStores]. rewrite Hr. unfold settle.
      cbn [withStores jobs deadLetterQueue processingSet name id type markProcessing].
      rewrite Hm, !update_at by done.
      f_equal. f_equal. rewrite union_empty_r_L. apply difference_diag_L. }
    rewrite Htick. cbn [fst snd invoked omap app zip_with].
    f_equal. rewrite IH.
    + f_equal. unfold pendingJobs. cbn [withStores jobs].
      rewrite Hmore, !values_app. cbn [JsMap.values map snd].
      rewrite !filter_app, filter_cons. cbn [status markCompleted].
      by rewrite decide_False.
    + pose proof (wellKeyed_update q (id job)
                    (markCompleted (settledAt t) r (markProcessing (startedAt t) job))
                    ∅ Hw eq_refl) as Hw'.
      rewrite Hm, update_at in Hw' by done. exact Hw'.
    + done.
    + done.
    + exact Hok.
Qed.

End WithTypes.

Lemma deadLettered_reachable : rtc step outgoingFailing deadLettered.
Proof.
  unfold deadLettered.
  eapply rtc_r; [eapply rtc_r; [eapply rtc_r; [eapply rtc_once|]|]|];
    [| apply step_tick | apply step_tick | apply step_tick].
  apply step_add. apply (bool_decide_unpack _). vm_compute. exact I.
Defined.

Lemma attempts_within_budget_witness :
  ∃ j, getJob deadLettered "job-1" = Some j
       ∧ status j = dead ∧ attempts j = attemptsBound j.
Proof.
  destruct (getJob deadLettered "job-1") as [j|] eqn:Hg;
    [|vm_compute in Hg; discriminate].
  exists j. split; [reflexivity|].
  destruct (attempts_within_budget "outgoing" failingHandler oneWorker deadLettered
              deadLettered_reachable) as [Hjob _].
  destruct (Hjob "job-1" j Hg) as (_ & _ & _ & Hdead).
  assert (Hs : status j = dead) by (vm_compute in Hg; by injection Hg as <-).
  split; [exact Hs | exact (Hdead Hs)].
Defined.

Lemma stats_add_up_witness :
  let s := getStats (fst (processNext mixed (tick 10))) in
  stat_pending s + stat_processing s + stat_completed s = 4 ∧ stat_failed s = 0.
Proof.
  cbv zeta.
  destruct (stats_add_up "outgoing" okHandler oneWorker
              (fst (processNext mixed (tick 10)))) as (Hsum & Hfailed & _).
  - eapply rtc_r; [apply mixed_reachable | apply step_tick].
  - split; [exact Hsum | exact Hfailed].
Defined.

Lemma events_account_witness :
  let q' := fst (run mixed [tick 10; tick 20; tick 30]) in
  let effects := snd (run mixed [tick 10; tick 20; tick 30]) in
  stat_completed (getStats q')
    = stat_completed (getStats mixed) + Z.of_nat (length (completedEvents effects))
  ∧ length (completedEvents effects) = 3%nat.
Proof.
  cbv zeta. split; [|reflexivity].
  apply (events_account [tick 10; tick 20; tick 30] mixed).
  apply (reachable_sound "outgoing" okHandler oneWorker), mixed_reachable.
Defined.

Lemma schedule_is_sorted_witness :
  id <$> invoked (snd (run mixed (tick <$> [10; 20; 30; 40; 50])))
    = ["b"; "d"; "a"; "c"].
Proof.
  rewrite (schedule_is_sorted (tick <$> [10; 20; 30; 40; 50]) mixed).
  - reflexivity.
  - apply (reachable_sound "outgoing" okHandler oneWorker), mixed_reachable.
  - reflexivity.
  - cbn. lia.
  - intros j. eexists. reflexivity.
Defined.

End QueueMoreProofs.

(** ** Message queues: the handlers and what the queue makes of them *)

Module MessageQueueProofs.
Import Js JsMapFacts Queue MessageQueue QueueProofs QueueMoreProofs.

Section Standing.
Context {T R : Type}.
Implicit Types (q : MemoryQueue T R) (t : Tick) (d : T).



End Standing.

Section Outgoing.
Context {Buffer : Type}.
Variable Buffer_from : string -> Buffer.
Variable captureStack : string -> string.

Local Abbreviation handle := (handleOutgoingMessage Buffer_from captureStack).
Local Abbreviation invalid :=
  (newError captureStack "Invalid message type or missing content").

Lemma truthy_Some (s : string) : truthy (Some s) = true ↔ s ≠ "".
Proof.
  unfold truthy. destruct (String.eqb_spec s ""); cbn; split; (done || congruence).
Qed.

(** X23.  The outgoing handler sends only through a session that exists
    and is connected.  If it resolves, the message went out by the one
    method its type names: a text job by [sendText] with a text that is
    not empty, a media job by [sendMedia] with the decoded buffer and the
    caption, file name and MIME type of the job; and it resolves to the
    message id the session reported.  A missing session and a disconnected
    one are rejected with messages that name the session, before the
    content is looked at; a text job without text is rejected as invalid
    even when it carries media content. *)
Theorem handleOutgoingMessage_sends (getSession : string -> option Session)
    (job : QueueJob OutgoingMessageJob Delivery) :
  let d := data job in
  (∀ dl, handle getSession job = Resolved dl →
     ∃ session,
       getSession (sessionId d) = Some session ∧ isConnected session = true
       ∧ ((MessageQueue.type d = type_text
           ∧ ∃ txt, text (content d) = Some txt ∧ txt ≠ ""
                    ∧ delivered (sendText session (to d) txt) = Resolved dl)
          ∨ (MessageQueue.type d = type_media
             ∧ ∃ mt buf,
                 mediaType (content d) = Some mt
                 ∧ mediaBuffer (content d) = Some buf ∧ buf ≠ ""
                 ∧ delivered
                     (sendMedia session (to d) mt (Buffer_from buf)
                        {| o_caption := caption (content d);
                           o_filename := filename (content d);
                           o_mimetype := mimetype (content d) |})
                   = Resolved dl)))
  ∧ (getSession (sessionId d) = None →
     handle getSession job
       = Rejected (newError captureStack ("Session " +:+ sessionId d +:+ " not found")))
  ∧ (∀ session, getSession (sessionId d) = Some session →
       isConnected session = false →
       handle getSession job
         = Rejected (newError captureStack
                       ("Session " +:+ sessionId d +:+ " not connected")))
  ∧ (∀ session, getSession (sessionId d) = Some session →
       isConnected session = true →
       MessageQueue.type d = type_text → truthy (text (content d)) = false →
       handle getSession job = Rejected invalid).
Proof.
  cbv zeta. unfold handleOutgoingMessage. cbv zeta.
  split; [|split; [|split]].
  - intros dl.
    destruct (getSession (sessionId (data job))) as [session|]; [|done].
    destruct (isConnected session) eqn:Hc; [|done]. cbn [negb].
    destruct (MessageQueue.type (data job)).
    + destruct (text (content (data job))) as [txt|]; [|done].
      destruct (truthy (Some txt)) eqn:Ht; [|done].
      intros Hd. exists session. split; [done|]. split; [done|]. left.
      split; [done|]. exists txt. split; [done|]. split; [|done].
      by apply truthy_Some.
    + destruct (mediaType (content (data job))) as [mt|]; [|done].
      destruct (mediaBuffer (content (data job))) as [buf|]; [|done].
      destruct (truthy (Some buf)) eqn:Ht; [|done].
      intros Hd. exists session. split; [done|]. split; [done|]. right.
      split; [done|]. exists mt, buf. split; [done|]. split; [done|].
      split; [|done]. by apply truthy_Some.
  - by intros ->.
  - intros session -> ->. done.
  - intros session -> -> -> Ht. cbn [negb].
    destruct (text (content (data job))) as [txt|]; [|done]. by rewrite Ht.
Qed.



End Outgoing.

Section Incoming.
Context {D : Type}.
Implicit Types (hs : list (QueueJob D unit -> Settled unit)) (job : QueueJob D unit).

Lemma handleIncomingMessage_app hs1 hs2 job :
  handleIncomingMessage (hs1 ++ hs2) job
    = match fst (handleIncomingMessage hs1 job) with
      | Resolved _ =>
          (fst (handleIncomingMessage hs2 job),
           snd (handleIncomingMessage hs1 job) ++ snd (handleIncomingMessage hs2 job))
      | Rejected e => handleIncomingMessage hs1 job
      end.
Proof.
  induction hs1 as [|h hs1 IH]; cbn [app handleIncomingMessage fst snd].
  - by destruct (handleIncomingMessage hs2 job).
  - destruct (h job) as [u|e]; [|done].
    rewrite IH. destruct (handleIncomingMessage hs1 job) as [[u1|e1] c1]; done.
Qed.

(** X25.  The incoming pipeline runs the registered handlers in
    registration order and stops at the first that fails.  It resolves
    exactly when every handler resolves, and then each was called once;
    when one rejects, the job is rejected with that very error, the handlers
    before it were called and had resolved, and those after it are not
    called.  With no handler registered the job resolves at once.  A handler
    registered later runs after the earlier ones, and only if they all
    resolve. *)
Theorem incoming_pipeline hs job :
  let r := handleIncomingMessage hs job in
  snd r = take (length (snd r)) hs
  ∧ (fst r = Resolved tt ↔ Forall (fun h => h job = Resolved tt) hs)
  ∧ (fst r = Resolved tt → snd r = hs)
  ∧ (∀ e, fst r = Rejected e →
       ∃ before h after,
         hs = before ++ h :: after ∧ snd r = before ++ [h]
         ∧ Forall (fun h' => h' job = Resolved tt) before ∧ h job = Rejected e)
  ∧ handleIncomingMessage [] job = (Resolved tt, [])
  ∧ (∀ h, handleIncomingMessage (registerIncomingHandler hs h) job
          = match fst r with
            | Resolved _ => (h job, snd r ++ [h])
            | Rejected e => r
            end).
Proof.
  cbv zeta. split; [|split; [|split; [|split; [|split]]]].
  - induction hs as [|h hs IH]; [done|]. cbn [handleIncomingMessage].
    destruct (h job) as [u|e]; [|done].
    destruct (handleIncomingMessage hs job) as [r c]. cbn [snd length take] in *.
    by rewrite <- IH.
  - induction hs as [|h hs IH]; [done|]. cbn [handleIncomingMessage].
    destruct (h job) as [[]|e] eqn:Hh.
    + destruct (handleIncomingMessage hs job) as [r c]. cbn [fst] in *.
      rewrite IH. split; [intros; by constructor|].
      intros Hall. by apply Forall_cons in Hall as [_ ?].
    + cbn [fst]. split; [done|]. intros Hall. apply Forall_cons in Hall as [Hc _].
      congruence.
  - induction hs as [|h hs IH]; [done|]. cbn [handleIncomingMessage].
    destruct (h job) as [u|e]; [|done].
    destruct (handleIncomingMessage hs job) as [r c]. cbn [fst snd] in *.
    intros Hr. by rewrite IH.
  - induction hs as [|h hs IH]; intros e; [done|]. cbn [handleIncomingMessage].
    destruct (h job) as [[]|e0] eqn:Hh.
    + destruct (handleIncomingMessage hs job) as [r c]. cbn [fst snd] in *.
      intros Hr. destruct (IH e Hr) as (before & h' & after & -> & -> & Hall & Hrej).
      exists (h :: before), h', after. repeat split; try done. by constructor.
    + cbn [fst snd]. intros [= ->]. exists [], h, hs. by repeat split.
  - done.
  - intros h. unfold registerIncomingHandler. rewrite handleIncomingMessage_app.
    destruct (handleIncomingMessage hs job) as [[u|e] c]; cbn [fst snd]; [|done].
    cbn [handleIncomingMessage]. destruct (h job) as [[]|e]; done.
Qed.

End Incoming.


End MessageQueueProofs.

(** ** REST error handler *)

Module ErrorHandlerProofs.
Import Json Js ErrorCodes ErrorHandler.

(** X26.  What the handler tells a client about an error that is neither
    an [AppError] nor a validation error is one of three fixed answers
    (400 "Session not connected", 404 "Resource not found", 500 "An
    unexpected error occurred"), without details; the name and the stack
    of the error never reach the response, and of the message only the
    presence of the three phrases matters.  The 500 answer is the only one
    that is logged, and in production the log line carries no stack. *)
Theorem unknown_errors_sanitized (NODE_ENV : option string) (timestamp : string)
    (name : string) (e : JsError) :
  let resp := fst (errorHandler NODE_ENV timestamp (ThrownError name e)) in
  let log := snd (errorHandler NODE_ENV timestamp (ThrownError name e)) in
  answer resp ∈ sanitized
  ∧ success (body resp) = false
  ∧ details (error (body resp)) = None
  ∧ (∀ name2 e2,
       includes (Js.message e2) "not connected" = includes (Js.message e) "not connected" →
       includes (Js.message e2) "not found" = includes (Js.message e) "not found" →
       includes (Js.message e2) "Not found" = includes (Js.message e) "Not found" →
       fst (errorHandler NODE_ENV timestamp (ThrownError name2 e2)) = resp)
  ∧ (includes (Js.message e) "not connected" = true →
     answer resp = (400, SESSION_NOT_CONNECTED, "Session not connected"))
  ∧ (log ≠ [] → status resp = 500)
  ∧ (NODE_ENV = Some "production" →
     Forall (fun line => match line with
                         | LogError _ _ trace => trace = None
                         | LogWarn _ _ _ => True
                         end) log).
Proof.
  cbv zeta. unfold errorHandler.
  split; [|split; [|split; [|split; [|split; [|split]]]]].
  - destruct (includes (Js.message e) "not connected");
      [|destruct (includes (Js.message e) "not found" || includes (Js.message e) "Not found")];
      cbn; apply (bool_decide_unpack _); vm_compute; exact I.
  - destruct (includes (Js.message e) "not connected");
      [|destruct (includes (Js.message e) "not found" || includes (Js.message e) "Not found")];
      done.
  - destruct (includes (Js.message e) "not connected");
      [|destruct (includes (Js.message e) "not found" || includes (Js.message e) "Not found")];
      done.
  - intros name2 e2 -> -> ->.
    destruct (includes (Js.message e) "not connected");
      [|destruct (includes (Js.message e) "not found" || includes (Js.message e) "Not found")];
      done.
  - by intros ->.
  - destruct (includes (Js.message e) "not connected");
      [|destruct (includes (Js.message e) "not found" || includes (Js.message e) "Not found")];
      done.
  - intros ->.
    destruct (includes (Js.message e) "not connected");
      [|destruct (includes (Js.message e) "not found" || includes (Js.message e) "Not found")];
      repeat constructor.
Qed.

(** X27.  An [AppError] is answered with its own status code, code and
    message.  Every error the [Errors] factories make carries a code of
    the taxonomy and one of the status codes the handler is typed to send;
    and the error a circuit breaker raises when it refuses a call reaches
    the client as 503 CIRCUIT_BREAKER_OPEN, naming the service. *)
Theorem app_errors_keep_their_code (NODE_ENV : option string) (timestamp : string) :
  (∀ e, answer (fst (errorHandler NODE_ENV timestamp (ThrownApp e)))
        = (statusCode e, code e, ErrorCodes.message e))
  ∧ (∀ s,
       Forall (fun e => code e ∈ ErrorCode
                        ∧ statusCode e ∈ [400; 401; 403; 404; 429; 500; 503])
         [ sessionNotFound s; sessionDown s; notConnected s; toolDenied s;
           rateLimitExceeded; validationError s; circuitOpen s;
           transientError s; internal s ])
  ∧ (∀ (T E : Type) (b : Breaker.CircuitBreaker) (now : Z)
       (fn : Breaker.FnOutcome T E) (t : Z),
       Breaker.fnInvoked (Breaker.execute b now fn t) = false →
       ∃ err,
         Breaker.outcome (Breaker.execute b now fn t) = Breaker.ThrewCircuitOpen err
         ∧ answer (fst (errorHandler NODE_ENV timestamp (ThrownApp err)))
           = (503, "CIRCUIT_BREAKER_OPEN",
              "Service unavailable: " +:+ Breaker.name (Breaker.options b))).
Proof.
  split; [done|]. split.
  - intros s. repeat constructor; cbn; apply (bool_decide_unpack _); vm_compute; exact I.
  - intros T E b now fn t. unfold Breaker.execute, Breaker.runFn.
    destruct (Breaker.state b);
      try (destruct fn; cbn; discriminate).
    destruct (_ <=? _); [destruct fn; cbn; discriminate|].
    intros _. eexists. split; [reflexivity|]. reflexivity.
Qed.

End ErrorHandlerProofs.

(** ** Authentication and the rate limiter *)

Module AuthProofs.
Import Auth.

Lemma hasPermission_listed (r : Role) (p : string) :
  hasPermission r p = true →
  p ∈ JsMap.keys (PERMISSIONS r) ∨ p ∈ inherited.
Proof.
  unfold hasPermission.
  destruct (JsMap.get (PERMISSIONS r) p) as [granted|] eqn:Hg.
  - intros _. left. apply JsMapFacts.get_Some_elem in Hg.
    by apply (list_elem_of_fmap_2 fst) in Hg.
  - intros H. right. by apply bool_decide_eq_true in H.
Qed.

Lemma hasPermission_inherited (r : Role) (p : string) :
  p ∈ inherited → hasPermission r p = true.
Proof.
  intros Hin. unfold inherited in Hin.
  repeat (apply elem_of_cons in Hin as [->|Hin]; [by destruct r|]).
  by apply elem_of_nil in Hin.
Qed.

(** X28.  The roles are ordered: whatever a viewer may do an operator may
    do, and whatever an operator may do an admin may do.  For the names of
    the permission matrix, a viewer holds read permissions only, an
    operator read and write permissions only, and nobody but an admin the
    delete permissions or those on "admin" and [sessions:write].  A name
    that is not in the matrix is refused to every role, unless it is a
    member every object inherits, which is granted to every role. *)
Theorem role_hierarchy :
  (∀ p, hasPermission viewer p = true → hasPermission operator p = true)
  ∧ (∀ p, hasPermission operator p = true → hasPermission admin p = true)
  ∧ (∀ p, hasPermission viewer p = true → p ∉ inherited →
          p ∈ [ "sessions:read"; "messages:read"; "contacts:read";
                "groups:read"; "presence:read" ])
  ∧ (∀ r p, p ∈ [ "sessions:write"; "sessions:delete"; "messages:delete";
                   "groups:delete"; "admin:read"; "admin:write" ] →
            hasPermission r p = true → r = admin)
  ∧ (∀ r p, p ∉ JsMap.keys (PERMISSIONS admin) →
            (hasPermission r p = true ↔ p ∈ inherited)).
Proof.
  split; [|split; [|split; [|split]]].
  - intros p H. apply hasPermission_listed in H as [H|H];
      [|by apply hasPermission_inherited].
    cbn in H. repeat (apply elem_of_cons in H as [->|H]; [reflexivity|]).
    by apply elem_of_nil in H.
  - intros p H. apply hasPermission_listed in H as [H|H];
      [|by apply hasPermission_inherited].
    cbn in H. repeat (apply elem_of_cons in H as [->|H]; [reflexivity|]).
    by apply elem_of_nil in H.
  - intros p H Hn. apply hasPermission_listed in H as [H|H]; [exact H | done].
  - intros r p Hin H.
    repeat (apply elem_of_cons in Hin as [->|Hin];
            [destruct r; [discriminate H | discriminate H | reflexivity]|]).
    by apply elem_of_nil in Hin.
  - intros r p Hout. split; [|apply hasPermission_inherited].
    intros H. apply hasPermission_listed in H as [H|H]; [|exact H].
    exfalso. apply Hout. destruct r; cbn in H |- *;
      repeat (apply elem_of_cons in H as [->|H];
              [apply (bool_decide_unpack _); vm_compute; exact I|]);
      by apply elem_of_nil in H.
Qed.

(** X29.  Outside development, a request passes authentication and a
    permission check exactly when its key header is not empty, the key
    service accepts it, and the role of the key has the permission; a
    missing or refused key is answered 401 (a failure of the key service is
    thrown on) and a key without the permission 403.  The session check
    passes such a key exactly when no session is named, or the key is not
    restricted to particular sessions, or the session is on its list.  In
    development a request without a key header passes all three checks. *)
Theorem gates_sound (NODE_ENV : option string)
    (validateKey : string -> Js.Settled (option ApiKeyInfo)) (header : option string)
    (permission : string) (sessionId : option string) :
  let auth := authMiddleware NODE_ENV validateKey header in
  (NODE_ENV ≠ Some "development" →
     ((fst auth = Next ∧ requirePermission permission NODE_ENV (snd auth) = Next)
      ↔ ∃ raw k, header = Some raw ∧ raw ≠ ""
                 ∧ validateKey raw = Js.Resolved (Some k)
                 ∧ hasPermission (role k) permission = true)
     ∧ (fst auth ≠ Next →
        (∃ m, fst auth = Json 401 "UNAUTHORIZED" m)
        ∨ (∃ raw e, header = Some raw ∧ validateKey raw = Js.Rejected e
                    ∧ fst auth = Throws e))
     ∧ (fst auth = Next → requirePermission permission NODE_ENV (snd auth) ≠ Next →
        requirePermission permission NODE_ENV (snd auth)
          = Json 403 "FORBIDDEN" ("Permission '" +:+ permission +:+ "' required"))
     ∧ (∀ k, snd auth = Some k →
          (requireSessionAccess sessionId NODE_ENV (snd auth) = Next
           ↔ present sessionId = None ∨ sessionIds k = []
             ∨ ∃ s, present sessionId = Some s ∧ s ∈ sessionIds k)))
  ∧ (NODE_ENV = Some "development" → present header = None →
     fst auth = Next ∧ snd auth = None
     ∧ requirePermission permission NODE_ENV (snd auth) = Next
     ∧ requireSessionAccess sessionId NODE_ENV (snd auth) = Next).
Proof.
  cbv zeta. split.
  - intros Hprod. unfold authMiddleware, requirePermission.
    assert (Hd : bool_decide (NODE_ENV = Some "development") = false)
      by (by apply bool_decide_eq_false).
    rewrite ?Hd.
    split; [|split; [|split]].
    + destruct header as [raw|]; cbn [present].
      * destruct (String.eqb_spec raw "") as [->|Hne].
        -- cbn. split; [intros [[=] _] | intros (? & ? & [= <-] & ? & _); done].
        -- destruct (validateKey raw) as [[k|]|e] eqn:Hv; cbn [fst snd].
           ++ destruct (hasPermission (role k) permission) eqn:Hp; cbn [negb].
              ** split; [|done]. intros _. exists raw, k. by repeat split.
              ** split; [intros [_ [=]]|].
                 intros (raw' & k' & [= <-] & _ & Hv' & Hp'). congruence.
           ++ split; [intros [[=] _]|].
              intros (raw' & k' & [= <-] & _ & Hv' & _). congruence.
           ++ split; [intros [[=] _]|].
              intros (raw' & k' & [= <-] & _ & Hv' & _). congruence.
      * cbn. split; [intros [[=] _] | intros (? & ? & [=] & _)].
    + destruct header as [raw|]; cbn [present].
      * destruct (String.eqb_spec raw "") as [->|Hne]; cbn [fst].
        -- intros _. left. by eexists.
        -- destruct (validateKey raw) as [[k|]|e] eqn:Hv; cbn [fst]; [done| |].
           ++ intros _. left. by eexists.
           ++ intros _. right. by exists raw, e.
      * cbn [fst]. intros _. left. by eexists.
    + destruct (present header) as [raw|]; cbn [fst snd]; [|done].
      destruct (validateKey raw) as [[k|]|e]; cbn [fst snd]; [|done|done].
      intros _. by destruct (hasPermission (role k) permission).
    + intros k Hk. rewrite Hk. unfold requireSessionAccess, canAccessSession.
      destruct (present sessionId) as [s|]; [|split; [by left | done]].
      destruct (sessionIds k) as [|s0 rest] eqn:Hs; cbn [length].
      * rewrite decide_True by done. cbn. split; [by right; left | done].
      * rewrite decide_False by done.
        destruct (bool_decide (s ∈ s0 :: rest)) eqn:Hin; cbn [negb].
        -- apply bool_decide_eq_true in Hin. split; [|done]. intros _.
           right. right. by exists s.
        -- apply bool_decide_eq_false in Hin. split; [done|].
           intros [[=]|[[=]|(s' & [= <-] & Hin')]]. done.
  - intros -> Hnone. unfold authMiddleware, requirePermission, requireSessionAccess.
    rewrite Hnone. rewrite bool_decide_eq_true_2 by done. done.
Qed.

(** X30.  Authentication comes before rate limiting on the v1 router.  A
    request that does not pass authentication never reaches the rate
    limiter: it is answered 401, or the failure of the key service is thrown
    on, and the rate-limit store is left as it was, so it uses up nobody's
    quota and is never answered 429.  A request with a valid key is counted
    under the id of the key and against the key's own limit, wherever it
    comes from: the forwarded address plays no part, and only the entry of
    that key changes. *)
Theorem v1_auth_before_limit (NODE_ENV : option string)
    (validateKey : string -> Js.Settled (option ApiKeyInfo))
    (store : gmap string RateLimit.RateLimitEntry)
    (header xForwardedFor : option string) (now : Z) :
  let r := v1 NODE_ENV validateKey store header xForwardedFor now in
  (fst (authMiddleware NODE_ENV validateKey header) ≠ Next →
     snd r = store
     ∧ ((∃ m, fst r = Refused 401 "UNAUTHORIZED" m) ∨ (∃ e, fst r = Failed e)))
  ∧ (∀ raw k, present header = Some raw → validateKey raw = Js.Resolved (Some k) →
       ∃ resp,
         fst r = Limited resp
         ∧ RateLimit.X_RateLimit_Limit (RateLimit.headers resp) = rateLimit k
         ∧ snd r !! id k
           = Some (RateLimit.increment
                     (RateLimit.currentEntry RateLimit.restOptions (store !! id k) now))
         ∧ (∀ other, other ≠ id k → snd r !! other = store !! other)
         ∧ (∀ xForwardedFor2,
              v1 NODE_ENV validateKey store header xForwardedFor2 now = r)).
Proof.
  cbv zeta. unfold v1, authMiddleware. split.
  - destruct (present header) as [raw|].
    + destruct (validateKey raw) as [[k|]|e]; cbn [fst]; [done| |].
      * intros _. split; [done|]. left. by eexists.
      * intros _. split; [done|]. right. by eexists.
    + destruct (bool_decide (NODE_ENV = Some "development")); cbn [fst]; [done|].
      intros _. split; [done|]. left. by eexists.
  - intros raw k -> ->. cbn [fmap option_fmap option_map].
    set (req := {| RateLimit.apiKey := _; RateLimit.xForwardedFor := xForwardedFor |}).
    pose proof (RateLimitProofs.rateLimiter_store RateLimit.restOptions req store now) as Hst.
    destruct (RateLimit.rateLimiter RateLimit.restOptions store req now) as [resp store'] eqn:Hrl.
    cbn [fst snd] in *. exists resp. split; [done|].
    assert (Hresp : resp = fst (RateLimit.rateLimiter RateLimit.restOptions store req now))
      by (by rewrite Hrl).
    split; [|split; [|split]].
    + rewrite Hresp. unfold RateLimit.rateLimiter. cbv zeta.
      repeat match goal with
      | |- context [?x <? ?y] => destruct (Z.ltb_spec x y)
      end; reflexivity.
    + rewrite Hst. unfold RateLimit.entryAfter. cbn [RateLimit.identifierOf req RateLimit.apiKey RateLimit.id].
      by rewrite lookup_insert_eq.
    + intros other Hne. rewrite Hst. cbn. by rewrite lookup_insert_ne.
    + intros x2.
      change (RateLimit.rateLimiter RateLimit.restOptions store
                {| RateLimit.apiKey := Some {| RateLimit.id := id k; RateLimit.rateLimit := rateLimit k |};
                   RateLimit.xForwardedFor := x2 |} now)
        with (RateLimit.rateLimiter RateLimit.restOptions store req now).
      by rewrite Hrl.
Qed.

End AuthProofs.
